(** * MCDA scoring and allocation engine: a shallow embedding

  The development embeds the two allocation engines of the dashboard,
  [scoreAndAllocate] of [lib/mcda.ts] and [allocateBudget] of
  [app/mcda/page.tsx], and settles the properties the specification
  states about them.  It also embeds the effect of the page that turns
  the amounts into the rows of its table, and proves further properties
  of the normalizer, of the two engines and of the table.

  Numbers.  A JavaScript [number] is idealised as an exact rational
  ([Q]): rounding error of the binary64 format, [NaN] and the two
  infinities are outside the model.  Every division of the embedded code
  whose result is used has a divisor that the source itself guards
  against zero ([|| 1], [max === min], [total <= 0]), so the rational
  quotient is the quotient the source computes on finite inputs.
  Equality of numbers is [Qeq] ([==]).

  Statements that compare two runs of an engine are chosen so that the
  rounding of binary64 can move them by the last bits of a number only.
  Whole euros that come out of [Math.round] are compared up to one euro,
  since an amount next to a half may round either way; amounts before
  rounding, scores and shares are compared directly.  No such statement
  is made across a test of the source whose outcome at equality changes
  the result by whole euros: [alloc > cap] of [allocateBudget] under a
  cap below 100%, and the top-up of [scoreAndAllocate] under a cap
  strictly between 0 and 100%, which divides by a room total that can
  vanish. *)

From Stdlib Require Import QArith Qminmax Qround Qabs Lqa.
From Stdlib Require Import ZArith Lia List String Bool Permutation Sorted.
Import ListNotations.

Open Scope Q_scope.

(** ** JavaScript number primitives *)

Module JS.

(** [x < y] as a test. *)
Definition ltb (x y : Q) : bool := negb (Qle_bool y x).

(** Truthiness of a number: every number but zero. *)
Definition truthy (x : Q) : bool := negb (Qeq_bool x 0).

(** [x || d] on numbers. *)
Definition orElse (x d : Q) : Q := if truthy x then x else d.

(** [x ?? d] on an optional number. *)
Definition nullish (x : option Q) (d : Q) : Q :=
  match x with Some v => v | None => d end.

(** Truthiness of an optional number ([undefined] is falsy). *)
Definition truthyOpt (x : option Q) : bool :=
  match x with Some v => truthy v | None => false end.

(** [Number.isFinite]: every number of the model is finite. *)
Definition isFinite (_ : Q) : bool := true.

(** [Math.max(a, b)] and [Math.min(a, b)]. *)
Definition max (a b : Q) : Q := if Qle_bool a b then b else a.
Definition min (a b : Q) : Q := if Qle_bool a b then a else b.

(** [Math.max(...xs)] and [Math.min(...xs)] on a non-empty array; the
    default stands for the value on the empty array, which the callers
    never ask for. *)
Definition maxOf (xs : list Q) : Q :=
  match xs with [] => 0 | x :: r => fold_left max r x end.
Definition minOf (xs : list Q) : Q :=
  match xs with [] => 0 | x :: r => fold_left min r x end.

(** [Math.round]: the nearest integer, halves towards plus infinity. *)
Definition round (x : Q) : Q := inject_Z (Qfloor (x + (1 # 2))).

(** [xs.reduce((s, v) => s + f(v), 0)]. *)
Definition sumBy {A : Type} (f : A -> Q) (xs : list A) : Q :=
  fold_left (fun s a => s + f a) xs 0.

(** [xs.length] as a number. *)
Definition len {A : Type} (xs : list A) : Q :=
  inject_Z (Z.of_nat (List.length xs)).

End JS.

(** ** lib/mcda.ts *)

Module Mcda.

Definition LAKey := string.

Record MCDAInput := mkInput {
  la : LAKey;
  growth65 : Q;
  oadr : Q;
  dwellingsPer1k65 : Q;
  medianIncome : Q;
  grantsPer65 : Q;
  ruralIndex : option Q
}.

Record Weights := mkWeights {
  wGrowth : Q;
  wOadr : Q;
  wHousingInv : Q;
  wIncomeInv : Q;
  wGrantsInv : Q
}.

Record Options := mkOptions {
  ruralUplift : option Q;
  floorEUR : option Q;
  capShare : option Q;
  budgetEUR : Q
}.

Record Range := mkRange { rmin : Q; rmax : Q }.

Definition rng (vals : list Q) : Range :=
  let xs := filter JS.isFinite vals in
  match xs with
  | [] => mkRange 0 1
  | _ => mkRange (JS.minOf xs) (JS.maxOf xs)
  end.

Definition mm (x : Q) (r : Range) : Q :=
  if Qeq_bool (rmax r) (rmin r) then 1 # 2
  else (x - rmin r) / (rmax r - rmin r).

Definition mmInv (x : Q) (r : Range) : Q :=
  if Qeq_bool (rmax r) (rmin r) then 1 # 2
  else (rmax r - x) / (rmax r - rmin r).

(** The element type of [items]. *)
Record Item := mkItem { i_la : LAKey; i_score : Q }.

(** The element type of [allocs] before the euro amounts are known. *)
Record Shared := mkShared { s_la : LAKey; s_score : Q; s_share : Q }.

(** The element type of [allocs] once [eur] is set, and of the result. *)
Record Alloc := mkAlloc { a_la : LAKey; score : Q; share : Q; eur : Q }.

Definition scoreOf (w : Weights) (opt : Options)
    (gR oR hR iR eR : Range) (r : MCDAInput) : Item :=
  let sGrowth := mm (growth65 r) gR in
  let sOadr := mm (oadr r) oR in
  let sHInv := mmInv (dwellingsPer1k65 r) hR in
  let sIInv := mmInv (medianIncome r) iR in
  let sGInv := mmInv (grantsPer65 r) eR in
  let score :=
    wGrowth w * sGrowth + wOadr w * sOadr + wHousingInv w * sHInv
    + wIncomeInv w * sIInv + wGrantsInv w * sGInv in
  let ri := JS.max 0 (JS.min 1 (JS.nullish (ruralIndex r) 0)) in
  let score :=
    match ruralUplift opt with
    | Some u =>
        if JS.truthy u && JS.ltb 0 u then score * (1 + u * ri) else score
    | None => score
    end in
  mkItem (la r) score.

Definition items (rows : list MCDAInput) (w : Weights) (opt : Options)
    : list Item :=
  let gR := rng (map growth65 rows) in
  let oR := rng (map oadr rows) in
  let hR := rng (map dwellingsPer1k65 rows) in
  let iR := rng (map medianIncome rows) in
  let eR := rng (map grantsPer65 rows) in
  map (scoreOf w opt gR oR hR iR eR) rows.

Definition shares (its : list Item) : list Shared :=
  let totalScore := JS.orElse (JS.sumBy i_score its) 1 in
  map (fun a => mkShared (i_la a) (i_score a) (i_score a / totalScore)) its.

(** [room.find(x => x.la === a.la)!]; the array always holds an entry
    for [a.la], the default is never reached. *)
Definition findRoom (room : list (LAKey * Q)) (k : LAKey) : Q :=
  match find (fun x => String.eqb (fst x) k) room with
  | Some x => snd x
  | None => 0
  end.

(** The cap/floor logic: [allocs] as it stands before the final
    rounding. *)
Definition allocate (allocs : list Shared) (opt : Options) : list Alloc :=
  let B := budgetEUR opt in
  if JS.truthyOpt (floorEUR opt) || JS.truthyOpt (capShare opt) then
    let floor := JS.max 0 (JS.nullish (floorEUR opt) 0) in
    let cap := JS.max 0 (JS.min 1 (JS.nullish (capShare opt) 1)) in
    let allocs1 :=
      map (fun a =>
             let eur := s_share a * B in
             let eur := JS.max eur floor in
             let eur := JS.min eur (cap * B) in
             mkAlloc (s_la a) (s_score a) (s_share a) eur) allocs in
    let spent := JS.sumBy eur allocs1 in
    let rem := JS.max 0 (B - spent) in
    let room := map (fun a => (a_la a, cap * B - eur a)) allocs1 in
    let roomTotal :=
      JS.orElse (JS.sumBy (fun r => JS.max 0 (snd r)) room) 1 in
    map (fun a =>
           let r := findRoom room (a_la a) in
           let topUp := JS.max 0 r / roomTotal * rem in
           mkAlloc (a_la a) (score a) (share a) (eur a + topUp)) allocs1
  else
    map (fun a => mkAlloc (s_la a) (s_score a) (s_share a) (s_share a * B))
        allocs.

(** [sort((x, y) => y.eur - x.eur)]: a stable sort, larger [eur] first. *)
Fixpoint insertDesc (a : Alloc) (l : list Alloc) : list Alloc :=
  match l with
  | [] => [a]
  | b :: l' =>
      if Qle_bool (eur b - eur a) 0 then a :: b :: l'
      else b :: insertDesc a l'
  end.

Definition sortDesc (l : list Alloc) : list Alloc :=
  fold_right insertDesc [] l.

Definition rounded (a : Alloc) : Alloc :=
  mkAlloc (a_la a) (score a) (share a) (JS.round (eur a)).

Definition scoreAndAllocate (rows : list MCDAInput) (w : Weights)
    (opt : Options) : list Alloc :=
  sortDesc (map rounded (allocate (shares (items rows w opt)) opt)).

End Mcda.

(** ** app/mcda/page.tsx *)

Module Page.

Record Opts := mkOpts {
  maxShare : Q;
  minEuro : Q;
  ruralUplift : Q;
  ruralSet : option (list string)
}.

(** [opts.ruralSet?.has(n)]. *)
Definition inRuralSet (opts : Opts) (n : string) : bool :=
  match ruralSet opts with
  | Some s => existsb (String.eqb n) s
  | None => false
  end.

(** One key of the [scores] object with its entries in [boosted] and
    [alloc].  The keys of an object are distinct and the three objects
    share them, so the per-key loops of the source are loops over this
    list, in [Object.keys] order. *)
Record Entry := mkEntry { name : string; boosted : Q; alloc : Q }.

Definition setAlloc (e : Entry) (v : Q) : Entry :=
  mkEntry (name e) (boosted e) v.

Definition boost (opts : Opts) (p : string * Q) : Entry :=
  let b := JS.max 0 (snd p) in
  mkEntry (fst p)
          (if inRuralSet opts (fst p) then b * (1 + ruralUplift opts) else b)
          0.

(** [for (const n of names) if (alloc[n] < opts.minEuro) { deficit += ...;
    alloc[n] = opts.minEuro; }] *)
Fixpoint floorLoop (m : Q) (es : list Entry) (deficit : Q)
    : Q * list Entry :=
  match es with
  | [] => (deficit, [])
  | e :: rest =>
      if JS.ltb (alloc e) m then
        let (d, r) := floorLoop m rest (deficit + (m - alloc e)) in
        (d, setAlloc e m :: r)
      else
        let (d, r) := floorLoop m rest deficit in
        (d, e :: r)
  end.

(** [for (const n of names) if (alloc[n] > cap) { excess += ...;
    alloc[n] = cap; }] *)
Fixpoint capLoop (cap : Q) (es : list Entry) (excess : Q)
    : Q * list Entry :=
  match es with
  | [] => (excess, [])
  | e :: rest =>
      if JS.ltb cap (alloc e) then
        let (x, r) := capLoop cap rest (excess + (alloc e - cap)) in
        (x, setAlloc e cap :: r)
      else
        let (x, r) := capLoop cap rest excess in
        (x, e :: r)
  end.

Definition floorPass (opts : Opts) (es : list Entry) : list Entry :=
  let (deficit, es) := floorLoop (minEuro opts) es 0 in
  if JS.ltb 0 deficit then
    let isDonor e := JS.ltb (minEuro opts) (alloc e) in
    let donors := filter isDonor es in
    let pool :=
      JS.orElse (JS.sumBy (fun e => alloc e - minEuro opts) donors) 1 in
    map (fun e =>
           if isDonor e then
             setAlloc e (alloc e
                         - (alloc e - minEuro opts) / pool * deficit)
           else e) es
  else es.

Definition capPass (opts : Opts) (budget : Q) (es : list Entry)
    : list Entry :=
  let cap := budget * JS.max 0 (JS.min 1 (JS.orElse (maxShare opts) 1)) in
  let (excess, es) := capLoop cap es 0 in
  if JS.ltb 0 excess then
    let isReceiver e := JS.ltb (alloc e) cap in
    let receivers := filter isReceiver es in
    let wsum := JS.orElse (JS.sumBy boosted receivers) (JS.len receivers) in
    map (fun e =>
           if isReceiver e then
             setAlloc e (alloc e
                         + (if JS.truthy wsum then boosted e / wsum
                            else 1 / JS.len receivers) * excess)
           else e) es
  else es.

Definition allocateBudget (scores : list (string * Q)) (budget : Q)
    (opts : Opts) : list (string * Q) :=
  let es := map (boost opts) scores in
  let total := JS.sumBy boosted es in
  let es :=
    if Qle_bool total 0 then
      let floors := JS.max 0 (minEuro opts) * JS.len es in
      let even := JS.max 0 ((budget - floors) / JS.len es) in
      map (fun e => setAlloc e (JS.max 0 (minEuro opts) + JS.max 0 even)) es
    else
      let es := map (fun e => setAlloc e (boosted e / total * budget)) es in
      let es := floorPass opts es in
      capPass opts budget es in
  let sum := JS.orElse (JS.sumBy alloc es) 1 in
  let k := budget / sum in
  map (fun e => (name e, alloc e * k)) es.

End Page.

(** ** Calls and their outcomes

    A call of a JavaScript function completes by returning a value or by
    throwing.  Neither engine contains a [throw] statement, and arithmetic,
    the [Math] functions and the array methods they use do not throw on
    numbers and arrays of numbers, so a call of either engine returns. *)

Inductive Outcome (A : Type) : Type :=
| Returned (v : A)
| Thrown (msg : string).

Arguments Returned {A} v.
Arguments Thrown {A} msg.

Definition rejected {A : Type} (o : Outcome A) : Prop :=
  exists msg, o = Thrown msg.

Definition callScoreAndAllocate (rows : list Mcda.MCDAInput)
    (w : Mcda.Weights) (opt : Mcda.Options) : Outcome (list Mcda.Alloc) :=
  Returned (Mcda.scoreAndAllocate rows w opt).

Definition callAllocateBudget (scores : list (string * Q)) (budget : Q)
    (opts : Page.Opts) : Outcome (list (string * Q)) :=
  Returned (Page.allocateBudget scores budget opts).

(** ** Vocabulary of the statements

    Names for the intermediate values of the two engines and for the
    conditions the statements need.  Each of them is an expression of the
    engine it belongs to; the lemmas [allocate_constrained],
    [floorPass_spec], [capPass_spec] and [allocateBudget_settled] give the
    engines in these terms. *)

Module Props.
Import Mcda.

(** *** [scoreAndAllocate] *)

(** The two benefit indicators. *)
Inductive Benefit := Growth | Oadr.

(** A region's record with one benefit indicator increased by [d]. *)
Definition raise (b : Benefit) (d : Q) (r : MCDAInput) : MCDAInput :=
  match b with
  | Growth =>
      mkInput (la r) (growth65 r + d) (oadr r) (dwellingsPer1k65 r)
              (medianIncome r) (grantsPer65 r) (ruralIndex r)
  | Oadr =>
      mkInput (la r) (growth65 r) (oadr r + d) (dwellingsPer1k65 r)
              (medianIncome r) (grantsPer65 r) (ruralIndex r)
  end.

Definition nonnegWeights (w : Weights) : Prop :=
  0 <= wGrowth w /\ 0 <= wOadr w /\ 0 <= wHousingInv w
  /\ 0 <= wIncomeInv w /\ 0 <= wGrantsInv w.

(** The weighted sum of the normalized indicators. *)
Definition weighted (w : Weights) (gR oR hR iR eR : Range) (r : MCDAInput)
    : Q :=
  wGrowth w * mm (growth65 r) gR + wOadr w * mm (oadr r) oR
  + wHousingInv w * mmInv (dwellingsPer1k65 r) hR
  + wIncomeInv w * mmInv (medianIncome r) iR
  + wGrantsInv w * mmInv (grantsPer65 r) eR.

(** The factor of the rural uplift. *)
Definition upliftFactor (opt : Options) (r : MCDAInput) : Q :=
  match ruralUplift opt with
  | Some u =>
      if JS.truthy u && JS.ltb 0 u then
        1 + u * JS.max 0 (JS.min 1 (JS.nullish (ruralIndex r) 0))
      else 1
  | None => 1
  end.

(** The score of a row within a set of rows. *)
Definition scoreIn (rows : list MCDAInput) (w : Weights) (opt : Options)
    (r : MCDAInput) : Item :=
  scoreOf w opt (rng (map growth65 rows)) (rng (map oadr rows))
          (rng (map dwellingsPer1k65 rows)) (rng (map medianIncome rows))
          (rng (map grantsPer65 rows)) r.

(** The euro amounts before the final rounding. *)
Definition exact (rows : list MCDAInput) (w : Weights) (opt : Options)
    : list Alloc :=
  allocate (shares (items rows w opt)) opt.

(** Which branch of the cap/floor logic runs: the [else] branch when
    neither a floor nor a cap is configured. *)
Definition unconstrained (opt : Options) : Prop :=
  JS.truthyOpt (floorEUR opt) || JS.truthyOpt (capShare opt) = false.

Definition constrained (opt : Options) : Prop :=
  JS.truthyOpt (floorEUR opt) || JS.truthyOpt (capShare opt) = true.

(** [floor] and [cap] of the cap/floor logic. *)
Definition floorOf (opt : Options) : Q :=
  JS.max 0 (JS.nullish (floorEUR opt) 0).

Definition capOf (opt : Options) : Q :=
  JS.max 0 (JS.min 1 (JS.nullish (capShare opt) 1)).

(** No cap strictly between 0 and 100% is in force: the proportional path,
    or a cap of 100% (also when [capShare] is absent, as with a floor
    alone), or a cap of 0. *)
Definition noPartialCap (opt : Options) : Prop :=
  unconstrained opt \/ capOf opt == 1 \/ capOf opt == 0.

(** [allocs] after the clamping [map] of the cap/floor logic. *)
Definition clamped (allocs : list Shared) (opt : Options) : list Alloc :=
  map (fun a =>
         mkAlloc (s_la a) (s_score a) (s_share a)
           (JS.min (JS.max (s_share a * budgetEUR opt) (floorOf opt))
                   (capOf opt * budgetEUR opt))) allocs.

(** [spent], [rem], [room] and the sum behind [roomTotal]. *)
Definition spentOf (allocs : list Shared) (opt : Options) : Q :=
  JS.sumBy eur (clamped allocs opt).

Definition remOf (allocs : list Shared) (opt : Options) : Q :=
  JS.max 0 (budgetEUR opt - spentOf allocs opt).

Definition roomOf (allocs : list Shared) (opt : Options)
    : list (LAKey * Q) :=
  map (fun a => (a_la a, capOf opt * budgetEUR opt - eur a))
      (clamped allocs opt).

Definition roomSum (allocs : list Shared) (opt : Options) : Q :=
  JS.sumBy (fun r => JS.max 0 (snd r)) (roomOf allocs opt).


(** *** [allocateBudget] *)

(** [total]: the sum of the boosted scores. *)
Definition pageTotal (scores : list (string * Q)) (opts : Page.Opts) : Q :=
  JS.sumBy Page.boosted (map (Page.boost opts) scores).

(** The sum of the euro amounts of a result. *)
Definition pageSum (res : list (string * Q)) : Q := JS.sumBy snd res.

(** The cap as a share. *)
Definition pageCapOf (opts : Page.Opts) : Q :=
  JS.max 0 (JS.min 1 (JS.orElse (Page.maxShare opts) 1)).

(** The proportional amounts, before floor and cap. *)
Definition proportional (total budget : Q) (es : list Page.Entry)
    : list Page.Entry :=
  map (fun e => Page.setAlloc e (Page.boosted e / total * budget)) es.

(** What one turn of the floor loop does to an entry, and what it adds to
    [deficit]. *)
Definition raiseTo (m : Q) (e : Page.Entry) : Page.Entry :=
  if JS.ltb (Page.alloc e) m then Page.setAlloc e m else e.

Definition shortfall (m : Q) (e : Page.Entry) : Q :=
  if JS.ltb (Page.alloc e) m then m - Page.alloc e else 0.

(** The donors' pool, before its [|| 1], and what the donor loop does to
    an entry. *)
Definition poolOf (m : Q) (es : list Page.Entry) : Q :=
  JS.sumBy (fun e => Page.alloc e - m)
    (filter (fun e => JS.ltb m (Page.alloc e)) (map (raiseTo m) es)).

Definition donate (m pool deficit : Q) (e : Page.Entry) : Page.Entry :=
  if JS.ltb m (Page.alloc e) then
    Page.setAlloc e (Page.alloc e - (Page.alloc e - m) / pool * deficit)
  else e.

(** What one turn of the cap loop does to an entry, and what it adds to
    [excess]. *)
Definition clipTo (cap : Q) (e : Page.Entry) : Page.Entry :=
  if JS.ltb cap (Page.alloc e) then Page.setAlloc e cap else e.

Definition overshoot (cap : Q) (e : Page.Entry) : Q :=
  if JS.ltb cap (Page.alloc e) then Page.alloc e - cap else 0.

(** The receivers, the sum of their boosted scores before its [||], and
    what the receiver loop does to an entry. *)
Definition receiversOf (cap : Q) (es : list Page.Entry)
    : list Page.Entry :=
  filter (fun e => JS.ltb (Page.alloc e) cap) (map (clipTo cap) es).

Definition weightOf (cap : Q) (es : list Page.Entry) : Q :=
  JS.sumBy Page.boosted (receiversOf cap es).

Definition receive (cap wsum n excess : Q) (e : Page.Entry) : Page.Entry :=
  if JS.ltb (Page.alloc e) cap then
    Page.setAlloc e (Page.alloc e
                     + (if JS.truthy wsum then Page.boosted e / wsum
                        else 1 / n) * excess)
  else e.

(** The entries as they stand before the final renormalization. *)
Definition settled (scores : list (string * Q)) (budget : Q)
    (opts : Page.Opts) : list Page.Entry :=
  let es := map (Page.boost opts) scores in
  let total := JS.sumBy Page.boosted es in
  if Qle_bool total 0 then
    let floors := JS.max 0 (Page.minEuro opts) * JS.len es in
    let even := JS.max 0 ((budget - floors) / JS.len es) in
    map (fun e =>
           Page.setAlloc e
             (JS.max 0 (Page.minEuro opts) + JS.max 0 even)) es
  else Page.capPass opts budget
         (Page.floorPass opts (proportional total budget es)).

End Props.

(** ** Concrete scenarios *)

Module Scenario.
Import Mcda.

Definition row (k : string) (g o : Q) : MCDAInput :=
  mkInput k g o 0 0 0 None.

Definition growthOnly : Weights := mkWeights 1 0 0 0 0.

Definition three : list MCDAInput :=
  [row "r1" 10 0; row "r2" 20 0; row "r3" 30 0].

Definition eurs (l : list Alloc) : list (LAKey * Q) :=
  map (fun a => (a_la a, eur a)) l.

Definition amounts (l : list (string * Q)) : list (string * Q) :=
  map (fun p => (fst p, Qred (snd p))) l.

(** Budget 300000 and a floor of 50000. *)
Definition floored : Options := mkOptions None (Some 50000) None 300000.

(** Budget 100 over the three regions: thirds that do not round evenly. *)
Definition hundred : Options := mkOptions None None None 100.

(** A negative budget. *)
Definition negative : Options := mkOptions None None None (-300000).

(** Two indicators, a cap of one half, budget 100; [before] and [after]
  differ in the growth rate of region [a] only. *)
Definition twoWeights : Weights := mkWeights 1 1 0 0 0.
Definition halfCap : Options := mkOptions None None (Some (1 # 2)) 100.
Definition before : list MCDAInput :=
  [row "a" 0 0; row "b" 2 1; row "c" 3 0].
Definition after : list MCDAInput :=
  [row "a" 2 0; row "b" 2 1; row "c" 3 0].

(** Two equal regions, floor 50, cap 30% of a budget of 100. *)
Definition twins : list MCDAInput := [row "a" 1 0; row "b" 1 0].
Definition floorOverCap : Options :=
  mkOptions None (Some 50) (Some (3 # 10)) 100.

(** A floor of 100.40 on the three regions, budget 1000, no cap. *)
Definition centsFloor : Options := mkOptions None (Some (502 # 5)) None 1000.

(** One fully rural region and an uplift of 100%. *)
Definition rural : list MCDAInput := [mkInput "a"%string 1 0 0 0 0 (Some 1)].
Definition doubling : Options := mkOptions (Some 1) None None 100.

(** [allocateBudget]: budget 100, a cap of 40% and no floor;
  the floor scenario; a floor of 10 on regions without score. *)
Definition capped : Page.Opts := Page.mkOpts (2 # 5) 0 0 None.
Definition pageFloored (rs : option (list string)) : Page.Opts :=
  Page.mkOpts 1 50000 0 rs.
Definition floorTen : Page.Opts := Page.mkOpts 1 10 0 None.

(** [allocateBudget]: region [a] rural, an uplift of 100%. *)
Definition ruralA : Page.Opts :=
  Page.mkOpts 1 0 1 (Some ["a"%string]).

End Scenario.

(** ** Changes of an input

    The ways of changing the input of an engine that the invariance
    statements speak of: another unit for one indicator, a common factor
    on the weights or on the scores, no rural uplift. *)

Module Change.
Import Mcda.




(** The three indicators that count inversely, and the row with one of
    them decreased by [d]. *)
Inductive Inverse := DwellingsInv | IncomeInv | GrantsInv.

Definition lower (c : Inverse) (d : Q) (r : MCDAInput) : MCDAInput :=
  match c with
  | DwellingsInv =>
      mkInput (la r) (growth65 r) (oadr r) (dwellingsPer1k65 r - d)
              (medianIncome r) (grantsPer65 r) (ruralIndex r)
  | IncomeInv =>
      mkInput (la r) (growth65 r) (oadr r) (dwellingsPer1k65 r)
              (medianIncome r - d) (grantsPer65 r) (ruralIndex r)
  | GrantsInv =>
      mkInput (la r) (growth65 r) (oadr r) (dwellingsPer1k65 r)
              (medianIncome r) (grantsPer65 r - d) (ruralIndex r)
  end.

(** The weights with a common factor. *)
Definition scaleWeights (c : Q) (w : Weights) : Weights :=
  mkWeights (c * wGrowth w) (c * wOadr w) (c * wHousingInv w)
            (c * wIncomeInv w) (c * wGrantsInv w).


(** The options without a rural uplift, and without a cap. *)
Definition noUplift (opt : Options) : Options :=
  mkOptions None (floorEUR opt) (capShare opt) (budgetEUR opt).

Definition noCap (opt : Options) : Options :=
  mkOptions (ruralUplift opt) (floorEUR opt) None (budgetEUR opt).

(** Two entries of [allocs] for the same region with the same share, and
    with the same euro amount. *)
Definition sameShare (s s' : Shared) : Prop :=
  s_la s = s_la s' /\ s_share s == s_share s'.

Definition sameAmount (a a' : Alloc) : Prop :=
  a_la a = a_la a' /\ eur a == eur a'.

(** The scores of [allocateBudget] with a common factor. *)
Definition scaleScores (c : Q) (scores : list (string * Q))
    : list (string * Q) :=
  map (fun p => (fst p, c * snd p)) scores.

(** Two entries of [allocateBudget] for the same key with the same amount,
    the boosted score of the second [c] times that of the first. *)
Definition sameEntry (c : Q) (e e' : Page.Entry) : Prop :=
  Page.name e = Page.name e' /\ Page.alloc e == Page.alloc e'
  /\ Page.boosted e' == c * Page.boosted e.

(** Two results of [allocateBudget] with the same keys and amounts. *)
Definition sameResult (res res' : list (string * Q)) : Prop :=
  Forall2 (fun p q => fst p = fst q /\ snd p == snd q) res res'.

(** The options of [allocateBudget] with another uplift. *)
Definition withUplift (u : Q) (opts : Page.Opts) : Page.Opts :=
  Page.mkOpts (Page.maxShare opts) (Page.minEuro opts) u
              (Page.ruralSet opts).

End Change.

(** ** app/mcda/page.tsx: the table of the page

    The effect that computes the allocations: from the hospital records by
    local authority and the scores of the backend, when it answered, to
    the rows the table shows. *)

Module PageTable.

(** The 31 local authorities. *)
Definition LA_LIST : list string :=
  ["Carlow"; "Cavan"; "Clare"; "Cork City"; "Cork County"; "Donegal";
   "Dublin City"; "Dún Laoghaire–Rathdown"; "Fingal"; "South Dublin";
   "Galway City"; "Galway County"; "Kerry"; "Kildare"; "Kilkenny"; "Laois";
   "Leitrim"; "Limerick City and County"; "Longford"; "Louth"; "Mayo";
   "Meath"; "Monaghan"; "Offaly"; "Roscommon"; "Sligo"; "Tipperary";
   "Waterford City and County"; "Westmeath"; "Wexford"; "Wicklow"]%string.

Record HospRow := mkHospRow {
  hospitals_total : Q;
  acute_hospitals_count : Q;
  hospitals_per_100k_65 : option Q
}.

Record OutRow := mkOutRow {
  la : string;
  score : Q;
  hospitals : Q;
  accessPer100k65 : option Q;
  share : Q;
  euros : Q
}.

(** [o[k]] on an object given by its entries: [None] stands for
    [undefined], the value at a key the object does not have. *)
Definition get {V : Type} (o : list (string * V)) (k : string) : option V :=
  match find (fun x => String.eqb (fst x) k) o with
  | Some x => Some (snd x)
  | None => None
  end.

Definition dubs : list string :=
  ["Dublin City"; "Fingal"; "South Dublin";
   "Dún Laoghaire–Rathdown"]%string.

Definition ruralSet : list string :=
  filter (fun la => negb (existsb (String.eqb la) dubs)) LA_LIST.

(** The record used for an authority without hospital data. *)
Definition noHospital : HospRow := mkHospRow 0 0 None.

(** The fallback score of one authority: the inverse of the access per
    100k, or else of the number of sites, or else 0. *)
Definition inv (r : HospRow) : Q :=
  let bySites :=
    if JS.truthy (hospitals_total r) && JS.ltb 0 (hospitals_total r)
    then 1 / hospitals_total r else 0 in
  match hospitals_per_100k_65 r with
  | Some v => if JS.truthy v && JS.ltb 0 v then 1 / v else bySites
  | None => bySites
  end.

Definition fallback (hosp : list (string * HospRow)) : list (string * Q) :=
  map (fun la =>
         (la, inv (match get hosp la with
                             | Some r => r
                             | None => noHospital
                             end))) LA_LIST.

(** [sort((a, b) => b.euros - a.euros)]: a stable sort, larger [euros]
    first. *)
Fixpoint insertRow (a : OutRow) (l : list OutRow) : list OutRow :=
  match l with
  | [] => [a]
  | b :: l' =>
      if Qle_bool (euros b - euros a) 0 then a :: b :: l'
      else b :: insertRow a l'
  end.

Definition sortRows (l : list OutRow) : list OutRow :=
  fold_right insertRow [] l.

(** The array handed to [setRows]; [server] is the answer of
    [fetchBackendScores], [None] when it is [null]. *)
Definition out (hosp : list (string * HospRow))
    (server : option (list (string * Q)))
    (budget ruralUplift maxShare minEuro : Q) : list OutRow :=
  let scores :=
    match server with Some s => s | None => fallback hosp end in
  let euros :=
    Page.allocateBudget scores budget
      (Page.mkOpts maxShare minEuro ruralUplift (Some ruralSet)) in
  let scoreSum :=
    JS.orElse (JS.sumBy (fun p => JS.max 0 (snd p)) scores) 1 in
  sortRows
    (map (fun la =>
            mkOutRow la
              (JS.max 0 (JS.nullish (get scores la) 0) / scoreSum)
              (match get hosp la with
               | Some r => hospitals_total r
               | None => 0
               end)
              (match get hosp la with
               | Some r => hospitals_per_100k_65 r
               | None => None
               end)
              (JS.nullish (get euros la) 0 / JS.max 1 budget)
              (JS.nullish (get euros la) 0)) LA_LIST).

(** [rows.reduce((s, r) => s + r.euros, 0)], the allocated total the page
    shows. *)
Definition total (rows : list OutRow) : Q := JS.sumBy euros rows.

End PageTable.

(** ** Facts about the number primitives *)

Section JSFacts.

Lemma ltb_lt (x y : Q) : JS.ltb x y = true <-> x < y.
Proof.
  unfold JS.ltb. rewrite negb_true_iff, <- not_true_iff_false, Qle_bool_iff.
  split; intro H; [apply Qnot_le_lt | apply Qlt_not_le]; exact H.
Qed.

Lemma ltb_ge (x y : Q) : JS.ltb x y = false <-> y <= x.
Proof.
  unfold JS.ltb. rewrite negb_false_iff. apply Qle_bool_iff.
Qed.

Lemma leb_gt (x y : Q) : Qle_bool x y = false <-> y < x.
Proof.
  rewrite <- not_true_iff_false, Qle_bool_iff.
  split; intro H; [apply Qnot_le_lt | apply Qlt_not_le]; exact H.
Qed.

Lemma max_cases (a b : Q) :
  (a <= b /\ JS.max a b = b) \/ (b < a /\ JS.max a b = a).
Proof.
  unfold JS.max. destruct (Qle_bool a b) eqn:E.
  - left. split; [apply Qle_bool_iff; exact E | reflexivity].
  - right. split; [apply leb_gt; exact E | reflexivity].
Qed.

Lemma min_cases (a b : Q) :
  (a <= b /\ JS.min a b = a) \/ (b < a /\ JS.min a b = b).
Proof.
  unfold JS.min. destruct (Qle_bool a b) eqn:E.
  - left. split; [apply Qle_bool_iff; exact E | reflexivity].
  - right. split; [apply leb_gt; exact E | reflexivity].
Qed.

Lemma truthy_true (x : Q) : JS.truthy x = true <-> ~ x == 0.
Proof.
  unfold JS.truthy. rewrite negb_true_iff, <- not_true_iff_false.
  rewrite Qeq_bool_iff. tauto.
Qed.

Lemma truthy_false (x : Q) : JS.truthy x = false <-> x == 0.
Proof.
  unfold JS.truthy. rewrite negb_false_iff. apply Qeq_bool_iff.
Qed.

Lemma orElse_cases (x d : Q) :
  (x == 0 /\ JS.orElse x d = d) \/ (~ x == 0 /\ JS.orElse x d = x).
Proof.
  unfold JS.orElse. destruct (JS.truthy x) eqn:E.
  - right. split; [apply truthy_true; exact E | reflexivity].
  - left. split; [apply truthy_false; exact E | reflexivity].
Qed.

Lemma max_lower_l (a b : Q) : a <= JS.max a b.
Proof. destruct (max_cases a b) as [[H ->] | [H ->]]; lra. Qed.

Lemma max_lower_r (a b : Q) : b <= JS.max a b.
Proof. destruct (max_cases a b) as [[H ->] | [H ->]]; lra. Qed.

Lemma min_upper_l (a b : Q) : JS.min a b <= a.
Proof. destruct (min_cases a b) as [[H ->] | [H ->]]; lra. Qed.

Lemma min_upper_r (a b : Q) : JS.min a b <= b.
Proof. destruct (min_cases a b) as [[H ->] | [H ->]]; lra. Qed.

(** The clamp [Math.max(0, Math.min(1, x))] lands in the unit interval. *)
Lemma clamp01_range (x : Q) : 0 <= JS.max 0 (JS.min 1 x) <= 1.
Proof.
  destruct (min_cases 1 x) as [[H ->] | [H ->]];
    destruct (max_cases 0 1) as [[H1 E1] | [H1 E1]];
    destruct (max_cases 0 x) as [[H2 E2] | [H2 E2]];
    try rewrite E1; try rewrite E2; lra.
Qed.

(** [Math.round] stays within half a unit of its argument. *)
Lemma round_near (x : Q) : x - (1 # 2) < JS.round x <= x + (1 # 2).
Proof.
  unfold JS.round. split.
  - pose proof (Qlt_floor (x + (1 # 2))) as H.
    rewrite inject_Z_plus in H. change (inject_Z 1) with 1 in H. lra.
  - apply Qfloor_le.
Qed.

Lemma round_mono (x y : Q) : x <= y -> JS.round x <= JS.round y.
Proof.
  intro H. unfold JS.round. rewrite <- Zle_Qle.
  apply Qfloor_resp_le. lra.
Qed.


End JSFacts.

(** ** Facts about [reduce] sums *)

Section Sums.
Context {A : Type}.
Implicit Types (f g : A -> Q) (l : list A).

Lemma sumBy_acc f l (a : Q) :
  fold_left (fun s x => s + f x) l a == a + JS.sumBy f l.
Proof.
  unfold JS.sumBy. revert a.
  induction l as [| x l IH]; intro a; simpl.
  - lra.
  - rewrite (IH (a + f x)), (IH (0 + f x)). lra.
Qed.

Lemma sumBy_nil f : JS.sumBy f [] == 0.
Proof. reflexivity. Qed.

Lemma sumBy_cons f x l : JS.sumBy f (x :: l) == f x + JS.sumBy f l.
Proof.
  unfold JS.sumBy at 1. simpl. rewrite sumBy_acc. lra.
Qed.

Lemma sumBy_app f l1 l2 :
  JS.sumBy f (l1 ++ l2) == JS.sumBy f l1 + JS.sumBy f l2.
Proof.
  induction l1 as [| x l1 IH]; simpl.
  - rewrite sumBy_nil. lra.
  - rewrite !sumBy_cons, IH. lra.
Qed.

Lemma sumBy_ext f g l :
  (forall x, In x l -> f x == g x) -> JS.sumBy f l == JS.sumBy g l.
Proof.
  induction l as [| x l IH]; intro H.
  - reflexivity.
  - rewrite !sumBy_cons, IH, (H x).
    + reflexivity.
    + left; reflexivity.
    + intros y Hy. apply H. right; exact Hy.
Qed.

Lemma sumBy_le f g l :
  (forall x, In x l -> f x <= g x) -> JS.sumBy f l <= JS.sumBy g l.
Proof.
  induction l as [| x l IH]; intro H.
  - rewrite !sumBy_nil. lra.
  - rewrite !sumBy_cons.
    assert (f x <= g x) by (apply H; left; reflexivity).
    assert (JS.sumBy f l <= JS.sumBy g l)
      by (apply IH; intros y Hy; apply H; right; exact Hy).
    lra.
Qed.

Lemma sumBy_zero l : JS.sumBy (fun _ : A => 0) l == 0.
Proof.
  induction l as [| x l IH].
  - reflexivity.
  - rewrite sumBy_cons, IH. lra.
Qed.

Lemma sumBy_nonneg f l :
  (forall x, In x l -> 0 <= f x) -> 0 <= JS.sumBy f l.
Proof.
  intro H. rewrite <- (sumBy_zero l). apply sumBy_le. exact H.
Qed.

Lemma sumBy_plus f g l :
  JS.sumBy (fun x => f x + g x) l == JS.sumBy f l + JS.sumBy g l.
Proof.
  induction l as [| x l IH].
  - rewrite !sumBy_nil. lra.
  - rewrite !sumBy_cons, IH. lra.
Qed.

Lemma sumBy_scale f (c : Q) l :
  JS.sumBy (fun x => f x * c) l == JS.sumBy f l * c.
Proof.
  induction l as [| x l IH].
  - rewrite !sumBy_nil. lra.
  - rewrite !sumBy_cons, IH. lra.
Qed.

Lemma sumBy_const (c : Q) l : JS.sumBy (fun _ : A => c) l == c * JS.len l.
Proof.
  unfold JS.len. induction l as [| x l IH].
  - rewrite sumBy_nil.
    change (inject_Z (Z.of_nat (List.length (@nil A)))) with 0. lra.
  - rewrite sumBy_cons, IH. cbn [List.length].
    rewrite Nat2Z.inj_succ, <- Z.add_1_r, inject_Z_plus.
    change (inject_Z 1) with 1. lra.
Qed.

Lemma sumBy_filter f (p : A -> bool) l :
  JS.sumBy f (filter p l) == JS.sumBy (fun x => if p x then f x else 0) l.
Proof.
  induction l as [| x l IH]; simpl.
  - reflexivity.
  - rewrite sumBy_cons. destruct (p x).
    + rewrite sumBy_cons, IH. reflexivity.
    + rewrite IH. lra.
Qed.

Lemma sumBy_member f l x :
  (forall y, In y l -> 0 <= f y) -> In x l -> f x <= JS.sumBy f l.
Proof.
  induction l as [| y l IH]; intros Hpos Hin.
  - destruct Hin.
  - rewrite sumBy_cons.
    assert (0 <= f y) by (apply Hpos; left; reflexivity).
    assert (0 <= JS.sumBy f l)
      by (apply sumBy_nonneg; intros z Hz; apply Hpos; right; exact Hz).
    destruct Hin as [-> | Hin].
    + lra.
    + assert (f x <= JS.sumBy f l)
        by (apply IH; [intros z Hz; apply Hpos; right; exact Hz | exact Hin]).
      lra.
Qed.

Lemma sumBy_all_zero f l :
  (forall y, In y l -> 0 <= f y) -> JS.sumBy f l == 0 ->
  forall x, In x l -> f x == 0.
Proof.
  intros Hpos Hsum x Hin.
  pose proof (sumBy_member f l x Hpos Hin).
  pose proof (Hpos x Hin). lra.
Qed.

Lemma sumBy_perm f l l' :
  Permutation l l' -> JS.sumBy f l == JS.sumBy f l'.
Proof.
  induction 1.
  - reflexivity.
  - rewrite !sumBy_cons, IHPermutation. reflexivity.
  - rewrite !sumBy_cons. lra.
  - rewrite IHPermutation1. exact IHPermutation2.
Qed.

Lemma len_nonneg l : 0 <= JS.len l.
Proof.
  unfold JS.len. change 0 with (inject_Z 0). rewrite <- Zle_Qle. lia.
Qed.

Lemma len_pos l : l <> [] -> 0 < JS.len l.
Proof.
  intro H. unfold JS.len. change 0 with (inject_Z 0). rewrite <- Zlt_Qlt.
  destruct l; [congruence | simpl; lia].
Qed.

End Sums.

Lemma sumBy_map {A B : Type} (f : B -> Q) (g : A -> B) (l : list A) :
JS.sumBy f (map g l) = JS.sumBy (fun x => f (g x)) l.
Proof.
unfold JS.sumBy. generalize 0.
induction l as [| x l IH]; intro a; simpl.
- reflexivity.
- apply IH.
Qed.

Lemma len_map {A B : Type} (g : A -> B) (l : list A) :
JS.len (map g l) = JS.len l.
Proof. unfold JS.len. rewrite length_map. reflexivity. Qed.

(** ** Minimum and maximum of an array *)

Section MinMaxOf.

Lemma fold_min_spec (r : list Q) (x : Q) :
  fold_left JS.min r x <= x
  /\ (forall y, In y r -> fold_left JS.min r x <= y)
  /\ (fold_left JS.min r x = x \/ In (fold_left JS.min r x) r).
Proof.
  revert x. induction r as [| z r IH]; intro x; simpl.
  - repeat split; [lra | tauto | left; reflexivity].
  - destruct (IH (JS.min x z)) as (H1 & H2 & H3).
    pose proof (min_upper_l x z). pose proof (min_upper_r x z).
    repeat split.
    + lra.
    + intros y [-> | Hy]; [lra | apply H2; exact Hy].
    + destruct H3 as [E | Hin]; [| right; right; exact Hin].
      rewrite E. destruct (min_cases x z) as [[_ ->] | [_ ->]]; auto.
Qed.

Lemma fold_max_spec (r : list Q) (x : Q) :
  x <= fold_left JS.max r x
  /\ (forall y, In y r -> y <= fold_left JS.max r x)
  /\ (fold_left JS.max r x = x \/ In (fold_left JS.max r x) r).
Proof.
  revert x. induction r as [| z r IH]; intro x; simpl.
  - repeat split; [lra | tauto | left; reflexivity].
  - destruct (IH (JS.max x z)) as (H1 & H2 & H3).
    pose proof (max_lower_l x z). pose proof (max_lower_r x z).
    repeat split.
    + lra.
    + intros y [-> | Hy]; [lra | apply H2; exact Hy].
    + destruct H3 as [E | Hin]; [| right; right; exact Hin].
      rewrite E. destruct (max_cases x z) as [[_ ->] | [_ ->]]; auto.
Qed.

Lemma minOf_le (xs : list Q) (y : Q) : In y xs -> JS.minOf xs <= y.
Proof.
  destruct xs as [| x r]; [intros [] |]. simpl.
  destruct (fold_min_spec r x) as (H1 & H2 & _).
  intros [-> | Hy]; [exact H1 | apply H2; exact Hy].
Qed.

Lemma maxOf_ge (xs : list Q) (y : Q) : In y xs -> y <= JS.maxOf xs.
Proof.
  destruct xs as [| x r]; [intros [] |]. simpl.
  destruct (fold_max_spec r x) as (H1 & H2 & _).
  intros [-> | Hy]; [exact H1 | apply H2; exact Hy].
Qed.

Lemma minOf_in (xs : list Q) : xs <> [] -> In (JS.minOf xs) xs.
Proof.
  destruct xs as [| x r]; [congruence | intros _]. simpl.
  destruct (fold_min_spec r x) as (_ & _ & [E | H]); [left; auto | right; auto].
Qed.

Lemma maxOf_in (xs : list Q) : xs <> [] -> In (JS.maxOf xs) xs.
Proof.
  destruct xs as [| x r]; [congruence | intros _]. simpl.
  destruct (fold_max_spec r x) as (_ & _ & [E | H]); [left; auto | right; auto].
Qed.

Lemma filter_isFinite (xs : list Q) : filter JS.isFinite xs = xs.
Proof.
  induction xs as [| x xs IH]; simpl; [| rewrite IH]; reflexivity.
Qed.

Lemma rng_nonempty (xs : list Q) :
  xs <> [] -> Mcda.rng xs = Mcda.mkRange (JS.minOf xs) (JS.maxOf xs).
Proof.
  intro H. unfold Mcda.rng. rewrite filter_isFinite.
  destruct xs; [congruence | reflexivity].
Qed.

End MinMaxOf.

(** * The engine of lib/mcda.ts *)

(** ** The result array of [scoreAndAllocate] *)

Section ResultArray.
Import Mcda Props.

Lemma insertDesc_perm (a : Alloc) (l : list Alloc) :
  Permutation (insertDesc a l) (a :: l).
Proof.
  induction l as [| b l IH]; simpl.
  - apply Permutation_refl.
  - destruct (Qle_bool (eur b - eur a) 0).
    + apply Permutation_refl.
    + eapply perm_trans; [apply perm_skip; exact IH | apply perm_swap].
Qed.

Lemma sortDesc_perm (l : list Alloc) : Permutation (sortDesc l) l.
Proof.
  induction l as [| a l IH]; simpl.
  - apply perm_nil.
  - eapply perm_trans; [apply insertDesc_perm | apply perm_skip; exact IH].
Qed.

Lemma result_perm rows w opt :
  Permutation (scoreAndAllocate rows w opt) (map rounded (exact rows w opt)).
Proof. apply sortDesc_perm. Qed.

Lemma result_in rows w opt (a : Alloc) :
  In a (scoreAndAllocate rows w opt) <->
  exists p, In p (exact rows w opt) /\ a = rounded p.
Proof.
  split.
  - intro H. apply (Permutation_in _ (result_perm rows w opt)) in H.
    apply in_map_iff in H. destruct H as (p & E & Hp). eauto.
  - intros (p & Hp & ->).
    apply (Permutation_in _ (Permutation_sym (result_perm rows w opt))).
    apply in_map. exact Hp.
Qed.

Lemma allocate_length (allocs : list Shared) (opt : Options) :
  List.length (allocate allocs opt) = List.length allocs.
Proof.
  unfold allocate.
  destruct (JS.truthyOpt (floorEUR opt) || JS.truthyOpt (capShare opt));
    rewrite ?length_map; reflexivity.
Qed.

Lemma exact_length rows w opt :
  List.length (exact rows w opt) = List.length rows.
Proof.
  unfold exact, shares, items. rewrite allocate_length, !length_map.
  reflexivity.
Qed.

Lemma result_length rows w opt :
  List.length (scoreAndAllocate rows w opt) = List.length rows.
Proof.
  rewrite (Permutation_length (result_perm rows w opt)), length_map.
  apply exact_length.
Qed.

(** The shares add up to one unless the scores add up to zero. *)
Lemma shares_sum (its : list Item) :
  ~ JS.sumBy i_score its == 0 -> JS.sumBy s_share (shares its) == 1.
Proof.
  intro Hnz. unfold shares. rewrite sumBy_map. cbn [s_share].
  destruct (orElse_cases (JS.sumBy i_score its) 1) as [[H _] | [_ ->]];
    [contradiction |].
  unfold Qdiv. rewrite sumBy_scale. field. exact Hnz.
Qed.

Lemma exact_unconstrained rows w opt :
  unconstrained opt ->
  exact rows w opt
  = map (fun a => mkAlloc (s_la a) (s_score a) (s_share a)
                          (s_share a * budgetEUR opt))
        (shares (items rows w opt)).
Proof.
  intro H. unfold exact, allocate. unfold unconstrained in H.
  rewrite H. reflexivity.
Qed.




Lemma shares_keys rows w opt :
  map s_la (shares (items rows w opt)) = map la rows.
Proof.
  unfold shares, items. rewrite !map_map. reflexivity.
Qed.

Lemma shares_len rows w opt :
  JS.len (shares (items rows w opt)) = JS.len rows.
Proof.
  unfold shares, items. rewrite !len_map. reflexivity.
Qed.

End ResultArray.

(** ** Scores and shares are not negative *)

Section McdaScores.
Import Mcda Props.

Lemma In_nonempty {A : Type} (x : A) (l : list A) : In x l -> l <> [].
Proof. intros H E. rewrite E in H. destruct H. Qed.

Lemma rng_bounds (vals : list Q) (x : Q) :
  In x vals -> rmin (rng vals) <= x <= rmax (rng vals).
Proof.
  intro H. rewrite (rng_nonempty vals (In_nonempty x vals H)).
  cbn [rmin rmax]. split; [apply minOf_le | apply maxOf_ge]; exact H.
Qed.

Lemma mm_cases (x : Q) (r : Range) :
  (rmax r == rmin r /\ mm x r = 1 # 2)
  \/ (~ rmax r == rmin r /\ mm x r = (x - rmin r) / (rmax r - rmin r)).
Proof.
  unfold mm. destruct (Qeq_bool (rmax r) (rmin r)) eqn:E.
  - left. split; [apply Qeq_bool_iff; exact E | reflexivity].
  - right. split; [apply Qeq_bool_neq; exact E | reflexivity].
Qed.

Lemma mmInv_cases (x : Q) (r : Range) :
  (rmax r == rmin r /\ mmInv x r = 1 # 2)
  \/ (~ rmax r == rmin r /\ mmInv x r = (rmax r - x) / (rmax r - rmin r)).
Proof.
  unfold mmInv. destruct (Qeq_bool (rmax r) (rmin r)) eqn:E.
  - left. split; [apply Qeq_bool_iff; exact E | reflexivity].
  - right. split; [apply Qeq_bool_neq; exact E | reflexivity].
Qed.

Lemma mm_range (vals : list Q) (x : Q) :
  In x vals -> 0 <= mm x (rng vals) <= 1.
Proof.
  intro H. pose proof (rng_bounds vals x H) as [Hlo Hhi].
  destruct (mm_cases x (rng vals)) as [[_ ->] | [Hne ->]]; [lra |].
  assert (Hd : 0 < rmax (rng vals) - rmin (rng vals)) by lra.
  split.
  - apply Qle_shift_div_l; [exact Hd | lra].
  - apply Qle_shift_div_r; [exact Hd | lra].
Qed.

Lemma mmInv_range (vals : list Q) (x : Q) :
  In x vals -> 0 <= mmInv x (rng vals) <= 1.
Proof.
  intro H. pose proof (rng_bounds vals x H) as [Hlo Hhi].
  destruct (mmInv_cases x (rng vals)) as [[_ ->] | [Hne ->]]; [lra |].
  assert (Hd : 0 < rmax (rng vals) - rmin (rng vals)) by lra.
  split.
  - apply Qle_shift_div_l; [exact Hd | lra].
  - apply Qle_shift_div_r; [exact Hd | lra].
Qed.

Lemma upliftFactor_pos (opt : Options) (r : MCDAInput) :
  1 <= upliftFactor opt r.
Proof.
  unfold upliftFactor. destruct (ruralUplift opt) as [u |]; [| lra].
  destruct (JS.truthy u && JS.ltb 0 u) eqn:E; [| lra].
  apply andb_true_iff in E. destruct E as [_ E]. apply ltb_lt in E.
  pose proof (clamp01_range (JS.nullish (ruralIndex r) 0)) as [H0 _].
  nra.
Qed.

Lemma scoreOf_factor (w : Weights) (opt : Options) (gR oR hR iR eR : Range)
    (r : MCDAInput) :
  i_la (scoreOf w opt gR oR hR iR eR r) = la r
  /\ i_score (scoreOf w opt gR oR hR iR eR r)
     == weighted w gR oR hR iR eR r * upliftFactor opt r.
Proof.
  unfold scoreOf, upliftFactor, weighted. cbn [i_la i_score].
  split; [reflexivity |].
  destruct (ruralUplift opt) as [u |]; [| lra].
  destruct (JS.truthy u && JS.ltb 0 u); lra.
Qed.

Lemma items_nonneg (rows : list MCDAInput) (w : Weights) (opt : Options)
    (it : Item) :
  nonnegWeights w -> In it (items rows w opt) -> 0 <= i_score it.
Proof.
  intros (Hg & Ho & Hh & Hi & He) Hin.
  unfold items in Hin. apply in_map_iff in Hin.
  destruct Hin as (r & <- & Hr).
  rewrite (proj2 (scoreOf_factor _ _ _ _ _ _ _ _)).
  pose proof (upliftFactor_pos opt r).
  pose proof (mm_range (map growth65 rows) (growth65 r) (in_map _ _ _ Hr)).
  pose proof (mm_range (map oadr rows) (oadr r) (in_map _ _ _ Hr)).
  pose proof (mmInv_range (map dwellingsPer1k65 rows) (dwellingsPer1k65 r)
                (in_map _ _ _ Hr)).
  pose proof (mmInv_range (map medianIncome rows) (medianIncome r)
                (in_map _ _ _ Hr)).
  pose proof (mmInv_range (map grantsPer65 rows) (grantsPer65 r)
                (in_map _ _ _ Hr)).
  unfold weighted.
  apply Qmult_le_0_compat; [| lra].
  pose proof (Qmult_le_0_compat _ _ Hg (proj1 H0)).
  pose proof (Qmult_le_0_compat _ _ Ho (proj1 H1)).
  pose proof (Qmult_le_0_compat _ _ Hh (proj1 H2)).
  pose proof (Qmult_le_0_compat _ _ Hi (proj1 H3)).
  pose proof (Qmult_le_0_compat _ _ He (proj1 H4)).
  lra.
Qed.

Lemma shares_range (its : list Item) (s : Shared) :
  (forall it, In it its -> 0 <= i_score it) ->
  In s (shares its) -> 0 <= s_share s <= 1.
Proof.
  intros Hpos Hin. unfold shares in Hin.
  apply in_map_iff in Hin. destruct Hin as (it & <- & Hit). cbn [s_share].
  pose proof (sumBy_nonneg i_score its Hpos) as HT.
  pose proof (sumBy_member i_score its it Hpos Hit) as Hle.
  pose proof (Hpos it Hit) as H0.
  destruct (orElse_cases (JS.sumBy i_score its) 1) as [[Hz ->] | [Hnz ->]].
  - assert (E : i_score it == 0) by lra. rewrite E.
    setoid_replace (0 / 1) with 0 by reflexivity. lra.
  - assert (Hd : 0 < JS.sumBy i_score its) by lra.
    split.
    + apply Qle_shift_div_l; [exact Hd | lra].
    + apply Qle_shift_div_r; [exact Hd | lra].
Qed.

End McdaScores.

(** ** The cap/floor logic of [scoreAndAllocate] *)

Section McdaConstrained.
Import Mcda Props.

Lemma allocate_constrained (allocs : list Shared) (opt : Options) :
  constrained opt ->
  allocate allocs opt
  = map (fun a =>
           mkAlloc (a_la a) (score a) (share a)
             (eur a
              + JS.max 0 (findRoom (roomOf allocs opt) (a_la a))
                / JS.orElse (roomSum allocs opt) 1 * remOf allocs opt))
        (clamped allocs opt).
Proof.
  intro H. unfold allocate. unfold constrained in H. rewrite H. reflexivity.
Qed.

Lemma find_key {V : Type} (l : list (string * V)) (k : string) (v : V) :
  NoDup (map fst l) -> In (k, v) l ->
  find (fun x => String.eqb (fst x) k) l = Some (k, v).
Proof.
  induction l as [| [k' v'] l IH]; intros Hnd Hin.
  - destruct Hin.
  - cbn [map fst] in Hnd. inversion Hnd as [| ? ? Hnotin Hnd']; subst.
    cbn [find fst]. destruct Hin as [E | Hin].
    + inversion E; subst. rewrite String.eqb_refl. reflexivity.
    + destruct (String.eqb k' k) eqn:Ek.
      * apply String.eqb_eq in Ek. subst k'. exfalso. apply Hnotin.
        apply (in_map fst) in Hin. exact Hin.
      * apply IH; assumption.
Qed.

Lemma clamped_keys (allocs : list Shared) (opt : Options) :
  map fst (roomOf allocs opt) = map s_la allocs.
Proof.
  unfold roomOf, clamped. rewrite !map_map. reflexivity.
Qed.

Lemma findRoom_own (allocs : list Shared) (opt : Options) (a : Alloc) :
  NoDup (map s_la allocs) -> In a (clamped allocs opt) ->
  findRoom (roomOf allocs opt) (a_la a)
  = capOf opt * budgetEUR opt - eur a.
Proof.
  intros Hnd Hin. unfold findRoom.
  rewrite (find_key (roomOf allocs opt) (a_la a)
             (capOf opt * budgetEUR opt - eur a)).
  - reflexivity.
  - rewrite clamped_keys. exact Hnd.
  - unfold roomOf.
    apply (in_map (fun a => (a_la a, capOf opt * budgetEUR opt - eur a))).
    exact Hin.
Qed.

Lemma clamped_le_cap (allocs : list Shared) (opt : Options) (a : Alloc) :
  In a (clamped allocs opt) -> eur a <= capOf opt * budgetEUR opt.
Proof.
  intro Hin. apply in_map_iff in Hin. destruct Hin as (s & <- & _).
  cbn [eur]. apply min_upper_r.
Qed.

Lemma clamped_ge (allocs : list Shared) (opt : Options) (a : Alloc) :
  In a (clamped allocs opt) ->
  JS.min (floorOf opt) (capOf opt * budgetEUR opt) <= eur a.
Proof.
  intro Hin. apply in_map_iff in Hin. destruct Hin as (s & <- & _).
  cbn [eur].
  pose proof (max_lower_r (s_share s * budgetEUR opt) (floorOf opt)).
  destruct (min_cases (floorOf opt) (capOf opt * budgetEUR opt))
    as [[H1 ->] | [H1 ->]];
    destruct (min_cases (JS.max (s_share s * budgetEUR opt) (floorOf opt))
                (capOf opt * budgetEUR opt)) as [[H2 ->] | [H2 ->]]; lra.
Qed.

Lemma roomSum_value (allocs : list Shared) (opt : Options) :
  roomSum allocs opt
  == capOf opt * budgetEUR opt * JS.len allocs - spentOf allocs opt.
Proof.
  unfold roomSum, roomOf, spentOf. rewrite sumBy_map. cbn [snd].
  rewrite (sumBy_ext _ (fun a => capOf opt * budgetEUR opt + eur a * - (1))).
  - rewrite sumBy_plus, sumBy_const, sumBy_scale.
    unfold clamped at 1. rewrite len_map. lra.
  - intros a Ha. pose proof (clamped_le_cap allocs opt a Ha).
    destruct (max_cases 0 (capOf opt * budgetEUR opt - eur a))
      as [[H1 ->] | [H1 ->]]; lra.
Qed.

Lemma remOf_nonneg (allocs : list Shared) (opt : Options) :
  0 <= remOf allocs opt.
Proof. apply max_lower_l. Qed.

Lemma roomSum_nonneg (allocs : list Shared) (opt : Options) :
  0 <= roomSum allocs opt.
Proof.
  apply sumBy_nonneg. intros r _. apply max_lower_l.
Qed.

(** The top-up never takes a region above the cap when the cap is
    feasible. *)
Lemma constrained_le_cap (allocs : list Shared) (opt : Options) (a : Alloc) :
  constrained opt ->
  NoDup (map s_la allocs) ->
  0 <= budgetEUR opt ->
  1 <= capOf opt * JS.len allocs ->
  In a (allocate allocs opt) -> eur a <= capOf opt * budgetEUR opt.
Proof.
  intros Hc Hnd HB Hfeas Hin.
  rewrite (allocate_constrained allocs opt Hc) in Hin.
  apply in_map_iff in Hin. destruct Hin as (c & <- & Hcl). cbn [eur].
  rewrite (findRoom_own allocs opt c Hnd Hcl).
  pose proof (clamped_le_cap allocs opt c Hcl) as Hle.
  pose proof (roomSum_value allocs opt) as HR.
  pose proof (roomSum_nonneg allocs opt) as HR0.
  destruct (max_cases 0 (capOf opt * budgetEUR opt - eur c))
    as [[H1 ->] | [H1 ->]]; [| lra].
  unfold remOf.
  destruct (max_cases 0 (budgetEUR opt - spentOf allocs opt))
    as [[H2 ->] | [H2 ->]]; cycle 1.
  { unfold Qdiv. rewrite Qmult_0_r. lra. }
  assert (Hroom : budgetEUR opt - spentOf allocs opt <= roomSum allocs opt)
    by nra.
  destruct (orElse_cases (roomSum allocs opt) 1) as [[Hz ->] | [Hnz ->]].
  - assert (E : budgetEUR opt - spentOf allocs opt == 0) by lra.
    rewrite E, Qmult_0_r. lra.
  - assert (Hpos : 0 < roomSum allocs opt) by lra.
    assert (Hr : (budgetEUR opt - spentOf allocs opt) / roomSum allocs opt
                 <= 1).
    { apply Qle_shift_div_r; [exact Hpos | lra]. }
    assert (Hr0 : 0 <= (budgetEUR opt - spentOf allocs opt)
                       / roomSum allocs opt).
    { apply Qle_shift_div_l; [exact Hpos | lra]. }
    setoid_replace ((capOf opt * budgetEUR opt - eur c)
                    / roomSum allocs opt
                    * (budgetEUR opt - spentOf allocs opt))
      with ((capOf opt * budgetEUR opt - eur c)
            * ((budgetEUR opt - spentOf allocs opt) / roomSum allocs opt))
      by (field; exact Hnz).
    nra.
Qed.

(** The top-up is never negative. *)
Lemma constrained_ge (allocs : list Shared) (opt : Options) (a : Alloc) :
  constrained opt ->
  In a (allocate allocs opt) ->
  JS.min (floorOf opt) (capOf opt * budgetEUR opt) <= eur a.
Proof.
  intros Hc Hin.
  rewrite (allocate_constrained allocs opt Hc) in Hin.
  apply in_map_iff in Hin. destruct Hin as (c & <- & Hcl). cbn [eur].
  pose proof (clamped_ge allocs opt c Hcl) as Hge.
  pose proof (remOf_nonneg allocs opt) as Hrem.
  pose proof (roomSum_nonneg allocs opt) as HR0.
  pose proof (max_lower_l 0 (findRoom (roomOf allocs opt) (a_la c))) as Hm.
  assert (Hrt : 0 < JS.orElse (roomSum allocs opt) 1).
  { destruct (orElse_cases (roomSum allocs opt) 1) as [[_ ->] | [Hnz ->]];
      lra. }
  assert (0 <= JS.max 0 (findRoom (roomOf allocs opt) (a_la c))
               / JS.orElse (roomSum allocs opt) 1).
  { apply Qle_shift_div_l; [exact Hrt | lra]. }
  nra.
Qed.


End McdaConstrained.

(** ** Cap respect of [scoreAndAllocate] *)

Section McdaCap.
Import Mcda Props.

Lemma capOf_unconstrained (opt : Options) :
  unconstrained opt -> capOf opt == 1 \/ capOf opt == 0.
Proof.
  unfold unconstrained, capOf. intro H.
  apply orb_false_iff in H. destruct H as [_ H].
  destruct (capShare opt) as [c |]; cbn [JS.truthyOpt JS.nullish] in *.
  - right. apply truthy_false in H.
    destruct (min_cases 1 c) as [[H1 ->] | [H1 ->]];
      [destruct (max_cases 0 1) as [[H2 ->] | [H2 ->]]
      | destruct (max_cases 0 c) as [[H2 ->] | [H2 ->]]]; lra.
  - left. reflexivity.
Qed.

(** Cap respect of [scoreAndAllocate], before rounding. *)
Lemma exact_le_cap (rows : list MCDAInput) (w : Weights) (opt : Options)
    (p : Alloc) :
  NoDup (map la rows) ->
  0 <= budgetEUR opt ->
  nonnegWeights w ->
  1 <= capOf opt * JS.len rows ->
  In p (exact rows w opt) ->
  eur p <= capOf opt * budgetEUR opt.
Proof.
  intros Hnd HB Hw Hfeas Hp.
  destruct (JS.truthyOpt (floorEUR opt) || JS.truthyOpt (capShare opt))
    eqn:Ec.
  - apply (constrained_le_cap (shares (items rows w opt)) opt p Ec).
    + rewrite shares_keys. exact Hnd.
    + exact HB.
    + rewrite shares_len. exact Hfeas.
    + exact Hp.
  - rewrite (exact_unconstrained rows w opt Ec) in Hp.
    apply in_map_iff in Hp. destruct Hp as (s & <- & Hs). cbn [eur].
    pose proof (shares_range (items rows w opt) s
                  (fun it Hit => items_nonneg rows w opt it Hw Hit) Hs)
      as [_ H1].
    pose proof (len_nonneg rows) as Hlen.
    destruct (capOf_unconstrained opt Ec) as [E | E]; rewrite E in *; nra.
Qed.

End McdaCap.

(** ** Normalization when one value is raised *)

Section Normalized.
Import Mcda Props.

Lemma Qdiv_le_cross (a b c d : Q) :
  0 < b -> 0 < d -> a * d <= c * b -> a / b <= c / d.
Proof.
  intros Hb Hd H.
  apply Qle_shift_div_l; [exact Hd |].
  setoid_replace (a / b * d) with (a * d / b) by (field; lra).
  apply Qle_shift_div_r; [exact Hb | exact H].
Qed.

Lemma in_middle {A : Type} (y v : A) (p q : list A) :
  In y (p ++ v :: q) <-> y = v \/ In y (p ++ q).
Proof.
  rewrite !in_app_iff. cbn [In]. intuition congruence.
Qed.

(** Order facts on the ranges of an array before and after one of its
    values is raised. *)
Lemma raised_ranges (p q : list Q) (v d : Q) :
  0 <= d ->
  let r := rng (p ++ v :: q) in
  let r' := rng (p ++ (v + d) :: q) in
  (rmin r <= v <= rmax r)
  /\ (rmin r' <= v + d <= rmax r')
  /\ (forall y, In y (p ++ q) ->
        rmin r <= y <= rmax r /\ rmin r' <= y <= rmax r')
  /\ rmin r <= rmin r' /\ rmax r <= rmax r'
  /\ (rmin r' == rmin r \/ rmin r == v)
  /\ (rmax r' == rmax r \/ rmax r' == v + d).
Proof.
  intros Hd r r'.
  assert (Hne : p ++ v :: q <> []) by (destruct p; discriminate).
  assert (Hne' : p ++ (v + d) :: q <> []) by (destruct p; discriminate).
  assert (Hv : In v (p ++ v :: q)) by (apply in_middle; left; reflexivity).
  assert (Hv' : In (v + d) (p ++ (v + d) :: q))
    by (apply in_middle; left; reflexivity).
  assert (Hy : forall y, In y (p ++ q) ->
                 In y (p ++ v :: q) /\ In y (p ++ (v + d) :: q)).
  { intros y H. split; apply in_middle; right; exact H. }
  pose proof (rng_bounds _ _ Hv) as Bv.
  pose proof (rng_bounds _ _ Hv') as Bv'.
  assert (By : forall y, In y (p ++ q) ->
                 rmin r <= y <= rmax r /\ rmin r' <= y <= rmax r').
  { intros y H. destruct (Hy y H) as [H1 H2].
    split; [apply (rng_bounds _ _ H1) | apply (rng_bounds _ _ H2)]. }
  fold r in Bv. fold r' in Bv'.
  assert (Hlo : In (rmin r) (p ++ v :: q)).
  { unfold r. rewrite (rng_nonempty _ Hne). apply minOf_in. exact Hne. }
  assert (Hhi : In (rmax r) (p ++ v :: q)).
  { unfold r. rewrite (rng_nonempty _ Hne). apply maxOf_in. exact Hne. }
  assert (Hlo' : In (rmin r') (p ++ (v + d) :: q)).
  { unfold r'. rewrite (rng_nonempty _ Hne'). apply minOf_in. exact Hne'. }
  assert (Hhi' : In (rmax r') (p ++ (v + d) :: q)).
  { unfold r'. rewrite (rng_nonempty _ Hne'). apply maxOf_in. exact Hne'. }
  apply in_middle in Hlo, Hhi, Hlo', Hhi'.
  assert (Hmin : rmin r <= rmin r').
  { destruct Hlo' as [E | H]; [rewrite E; lra | apply (By _ H)]. }
  assert (Hmax : rmax r <= rmax r').
  { destruct Hhi as [E | H]; [rewrite E; lra | apply (By _ H)]. }
  repeat split; try lra; try (apply By; assumption).
  - destruct Hlo as [E | H]; [right; rewrite E; reflexivity |].
    left. pose proof (proj2 (By _ H)). lra.
  - destruct Hhi' as [E | H]; [right; rewrite E; reflexivity |].
    left. pose proof (proj1 (By _ H)). lra.
Qed.

(** Raising one value of a benefit indicator does not lower the
    normalized score of its region... *)
Lemma mm_raised_own (p q : list Q) (v d : Q) :
  0 <= d ->
  mm v (rng (p ++ v :: q)) <= mm (v + d) (rng (p ++ (v + d) :: q)).
Proof.
  intro Hd.
  destruct (raised_ranges p q v d Hd)
    as (Bv & Bv' & _ & Hmin & Hmax & HA & HB).
  set (r := rng (p ++ v :: q)) in *.
  set (r' := rng (p ++ (v + d) :: q)) in *.
  destruct (mm_cases v r) as [[Hdeg ->] | [Hnd ->]];
    destruct (mm_cases (v + d) r') as [[Hdeg' ->] | [Hnd' ->]].
  - lra.
  - apply Qle_shift_div_l; [lra |]. destruct HB; lra.
  - apply Qle_shift_div_r; [lra |]. destruct HA; lra.
  - apply Qdiv_le_cross; [lra | lra |].
    destruct HA as [EA | EA]; destruct HB as [EB | EB]; nra.
Qed.

(** ... and does not raise that of any other region. *)
Lemma mm_raised_other (p q : list Q) (v d y : Q) :
  0 <= d -> In y (p ++ q) ->
  mm y (rng (p ++ (v + d) :: q)) <= mm y (rng (p ++ v :: q)).
Proof.
  intros Hd Hy.
  destruct (raised_ranges p q v d Hd)
    as (Bv & Bv' & By & Hmin & Hmax & HA & HB).
  destruct (By y Hy) as [Hy1 Hy2].
  set (r := rng (p ++ v :: q)) in *.
  set (r' := rng (p ++ (v + d) :: q)) in *.
  destruct (mm_cases y r) as [[Hdeg ->] | [Hnd ->]];
    destruct (mm_cases y r') as [[Hdeg' ->] | [Hnd' ->]].
  - lra.
  - apply Qle_shift_div_r; [lra |]. lra.
  - apply Qle_shift_div_l; [lra |]. lra.
  - apply Qdiv_le_cross; [lra | lra |].
    assert (0 <= (y - rmin r) * (rmax r' - rmax r)) by nra.
    assert (0 <= (rmin r' - rmin r) * (rmax r - y)) by nra.
    nra.
Qed.

End Normalized.

(** ** Scores and shares when one indicator is raised *)

Section Monotone.
Import Mcda Props.

Lemma items_scoreIn rows w opt :
  items rows w opt = map (scoreIn rows w opt) rows.
Proof. reflexivity. Qed.

Lemma scoreIn_factor rows w opt r :
  i_la (scoreIn rows w opt r) = la r
  /\ i_score (scoreIn rows w opt r)
     == weighted w (rng (map growth65 rows)) (rng (map oadr rows))
          (rng (map dwellingsPer1k65 rows)) (rng (map medianIncome rows))
          (rng (map grantsPer65 rows)) r
        * upliftFactor opt r.
Proof. apply scoreOf_factor. Qed.

Lemma raise_keeps (b : Benefit) (d : Q) (r : MCDAInput) (opt : Options) :
  la (raise b d r) = la r
  /\ upliftFactor opt (raise b d r) = upliftFactor opt r.
Proof. destruct b; split; reflexivity. Qed.

Lemma raise_keys (b : Benefit) (d : Q) (pre post : list MCDAInput)
    (r : MCDAInput) :
  map la (pre ++ raise b d r :: post) = map la (pre ++ r :: post).
Proof.
  rewrite !map_app. cbn [map]. destruct b; reflexivity.
Qed.

Ltac split_columns :=
  rewrite ?map_app; cbn [map raise growth65 oadr dwellingsPer1k65
                         medianIncome grantsPer65].

(** Raising a benefit indicator of a row does not lower its score... *)
Lemma score_raised_own (b : Benefit) (d : Q) (pre post : list MCDAInput)
    (r : MCDAInput) (w : Weights) (opt : Options) :
  0 <= d -> nonnegWeights w ->
  i_score (scoreIn (pre ++ r :: post) w opt r)
  <= i_score (scoreIn (pre ++ raise b d r :: post) w opt (raise b d r)).
Proof.
  intros Hd (Hg & Ho & _).
  rewrite (proj2 (scoreIn_factor (pre ++ r :: post) w opt r)).
  rewrite (proj2 (scoreIn_factor (pre ++ raise b d r :: post) w opt
                    (raise b d r))).
  rewrite (proj2 (raise_keeps b d r opt)).
  pose proof (upliftFactor_pos opt r) as Hf.
  unfold weighted.
  apply Qmult_le_compat_r; [| lra].
  destruct b; split_columns.
  - pose proof (mm_raised_own (map growth65 pre) (map growth65 post)
                  (growth65 r) d Hd).
    nra.
  - pose proof (mm_raised_own (map oadr pre) (map oadr post) (oadr r) d Hd).
    nra.
Qed.

(** ... and does not raise the score of any other row. *)
Lemma score_raised_other (b : Benefit) (d : Q) (pre post : list MCDAInput)
    (r z : MCDAInput) (w : Weights) (opt : Options) :
  0 <= d -> nonnegWeights w -> In z (pre ++ post) ->
  i_score (scoreIn (pre ++ raise b d r :: post) w opt z)
  <= i_score (scoreIn (pre ++ r :: post) w opt z).
Proof.
  intros Hd (Hg & Ho & _) Hz.
  rewrite (proj2 (scoreIn_factor (pre ++ r :: post) w opt z)).
  rewrite (proj2 (scoreIn_factor (pre ++ raise b d r :: post) w opt z)).
  pose proof (upliftFactor_pos opt z) as Hf.
  unfold weighted.
  apply Qmult_le_compat_r; [| lra].
  destruct b; split_columns.
  - assert (Hin : In (growth65 z) (map growth65 pre ++ map growth65 post)).
    { rewrite <- map_app. apply in_map. exact Hz. }
    pose proof (mm_raised_other (map growth65 pre) (map growth65 post)
                  (growth65 r) d (growth65 z) Hd Hin).
    nra.
  - assert (Hin : In (oadr z) (map oadr pre ++ map oadr post)).
    { rewrite <- map_app. apply in_map. exact Hz. }
    pose proof (mm_raised_other (map oadr pre) (map oadr post)
                  (oadr r) d (oadr z) Hd Hin).
    nra.
Qed.

Lemma NoDup_key {A B : Type} (f : A -> B) (l : list A) (a b : A) :
  NoDup (map f l) -> In a l -> In b l -> f a = f b -> a = b.
Proof.
  induction l as [| c l IH]; intros Hnd Ha Hb E.
  - destruct Ha.
  - cbn [map] in Hnd. inversion Hnd as [| ? ? Hnotin Hnd']; subst.
    destruct Ha as [-> | Ha]; destruct Hb as [-> | Hb].
    + reflexivity.
    + exfalso. apply Hnotin. rewrite E. apply in_map. exact Hb.
    + exfalso. apply Hnotin. rewrite <- E. apply in_map. exact Ha.
    + apply IH; assumption.
Qed.

Lemma share_mono (S S' O O' T T' : Q) :
  0 <= S -> S <= S' -> 0 <= O' -> O' <= O ->
  T == S + O -> T' == S' + O' ->
  S / JS.orElse T 1 <= S' / JS.orElse T' 1.
Proof.
  intros HS HSS HO HOO ET ET'.
  destruct (orElse_cases T 1) as [[Hz ->] | [Hnz ->]];
    destruct (orElse_cases T' 1) as [[Hz' ->] | [Hnz' ->]].
  - assert (E : S == 0) by lra. assert (E' : S' == 0) by lra.
    rewrite E, E'. lra.
  - assert (E : S == 0) by lra. rewrite E.
    setoid_replace (0 / 1) with 0 by reflexivity.
    apply Qle_shift_div_l; lra.
  - assert (E' : S' == 0) by lra. assert (E : S == 0) by lra.
    rewrite E, E'. setoid_replace (0 / 1) with 0 by reflexivity.
    unfold Qdiv. rewrite Qmult_0_l. lra.
  - apply Qdiv_le_cross; [lra | lra |]. rewrite ET, ET'. nra.
Qed.

End Monotone.

(** ** The primitives respect equality of numbers *)

Section Compat.

Lemma max_compat (a a' b b' : Q) :
  a == a' -> b == b' -> JS.max a b == JS.max a' b'.
Proof.
  intros Ha Hb.
  destruct (max_cases a b) as [[H ->] | [H ->]];
    destruct (max_cases a' b') as [[H' ->] | [H' ->]]; lra.
Qed.

Lemma min_compat (a a' b b' : Q) :
  a == a' -> b == b' -> JS.min a b == JS.min a' b'.
Proof.
  intros Ha Hb.
  destruct (min_cases a b) as [[H ->] | [H ->]];
    destruct (min_cases a' b') as [[H' ->] | [H' ->]]; lra.
Qed.

Lemma orElse_compat (x x' d d' : Q) :
  x == x' -> d == d' -> JS.orElse x d == JS.orElse x' d'.
Proof.
  intros Hx Hd.
  destruct (orElse_cases x d) as [[H ->] | [H ->]];
    destruct (orElse_cases x' d') as [[H' ->] | [H' ->]];
    try assumption.
  - exfalso. apply H'. rewrite <- Hx. exact H.
  - exfalso. apply H. rewrite Hx. exact H'.
Qed.

Lemma orElse_nonzero (x d : Q) : ~ d == 0 -> ~ JS.orElse x d == 0.
Proof.
  intro Hd. destruct (orElse_cases x d) as [[H ->] | [H ->]]; assumption.
Qed.

Lemma ltb_compat (a a' b b' : Q) :
  a == a' -> b == b' -> JS.ltb a b = JS.ltb a' b'.
Proof.
  intros Ha Hb. apply eq_true_iff_eq. rewrite !ltb_lt. rewrite Ha, Hb.
  tauto.
Qed.

Lemma leb_compat (a a' b b' : Q) :
  a == a' -> b == b' -> Qle_bool a b = Qle_bool a' b'.
Proof.
  intros Ha Hb. apply eq_true_iff_eq. rewrite !Qle_bool_iff.
  rewrite Ha, Hb. tauto.
Qed.

Lemma truthy_compat (a a' : Q) : a == a' -> JS.truthy a = JS.truthy a'.
Proof.
  intro Ha. apply eq_true_iff_eq. rewrite !truthy_true. rewrite Ha. tauto.
Qed.

Lemma round_compat (x y : Q) : x == y -> JS.round x = JS.round y.
Proof.
  intro H. unfold JS.round. f_equal. apply Qfloor_comp. rewrite H.
  reflexivity.
Qed.

Lemma round_zero (x : Q) : x == 0 -> JS.round x = 0.
Proof. intro H. rewrite (round_compat x 0 H). reflexivity. Qed.

Lemma round_nonneg (x : Q) : 0 <= x -> 0 <= JS.round x.
Proof.
  intro H. change 0 with (JS.round 0) at 1. apply round_mono. exact H.
Qed.

Lemma sumBy_Forall2 {A B : Type} (f : A -> Q) (g : B -> Q)
    (l : list A) (l' : list B) :
  Forall2 (fun a b => f a == g b) l l' -> JS.sumBy f l == JS.sumBy g l'.
Proof.
  induction 1 as [| a b l l' Hab _ IH].
  - reflexivity.
  - rewrite !sumBy_cons, Hab, IH. reflexivity.
Qed.

Lemma Forall2_length_len {A B : Type} (R : A -> B -> Prop)
    (l : list A) (l' : list B) :
  Forall2 R l l' -> JS.len l = JS.len l'.
Proof.
  intro H. unfold JS.len. rewrite (Forall2_length H). reflexivity.
Qed.

Lemma Forall2_map_same {A B C : Type} (R : B -> C -> Prop)
    (f : A -> B) (g : A -> C) (l : list A) :
  (forall x, In x l -> R (f x) (g x)) -> Forall2 R (map f l) (map g l).
Proof.
  induction l as [| x l IH]; intro H; simpl; constructor.
  - apply H. left. reflexivity.
  - apply IH. intros y Hy. apply H. right. exact Hy.
Qed.

Lemma Forall2_map {A B C D : Type} (R : C -> D -> Prop)
    (f : A -> C) (g : B -> D) (l : list A) (l' : list B) :
  Forall2 (fun a b => R (f a) (g b)) l l' -> Forall2 R (map f l) (map g l').
Proof. induction 1; simpl; constructor; assumption. Qed.

Lemma Forall2_weaken {A B : Type} (R S : A -> B -> Prop)
    (l : list A) (l' : list B) :
  (forall a b, In a l -> In b l' -> R a b -> S a b) ->
  Forall2 R l l' -> Forall2 S l l'.
Proof.
  intros H F. induction F as [| a b l l' Hab F IH]; constructor.
  - apply H; [left; reflexivity | left; reflexivity | exact Hab].
  - apply IH. intros x y Hx Hy. apply H; right; assumption.
Qed.

Lemma Forall2_In_l {A B : Type} (R : A -> B -> Prop)
    (l : list A) (l' : list B) (a : A) :
  Forall2 R l l' -> In a l -> exists b, In b l' /\ R a b.
Proof.
  induction 1 as [| x y l l' Hxy _ IH]; intro Hin; [destruct Hin |].
  destruct Hin as [-> | Hin].
  - exists y. split; [left; reflexivity | exact Hxy].
  - destruct (IH Hin) as (b & Hb & Hab). exists b.
    split; [right; exact Hb | exact Hab].
Qed.

Lemma Forall2_In_r {A B : Type} (R : A -> B -> Prop)
    (l : list A) (l' : list B) (b : B) :
  Forall2 R l l' -> In b l' -> exists a, In a l /\ R a b.
Proof.
  induction 1 as [| x y l l' Hxy _ IH]; intro Hin; [destruct Hin |].
  destruct Hin as [<- | Hin].
  - exists x. split; [left; reflexivity | exact Hxy].
  - destruct (IH Hin) as (a & Ha & Hab). exists a.
    split; [right; exact Ha | exact Hab].
Qed.

End Compat.

(** ** The normalizer *)

Section Normalizer.
Import Mcda Props.



Lemma rng_affine_neg (vals : list Q) (a b : Q) :
  vals <> [] -> a < 0 ->
  rmin (rng (map (fun v => a * v + b) vals)) == a * rmax (rng vals) + b
  /\ rmax (rng (map (fun v => a * v + b) vals)) == a * rmin (rng vals) + b.
Proof.
  intros Hne Ha.
  assert (Hne' : map (fun v => a * v + b) vals <> []).
  { destruct vals; [contradiction | discriminate]. }
  rewrite (rng_nonempty _ Hne), (rng_nonempty _ Hne'). cbn [rmin rmax].
  pose proof (minOf_in _ Hne') as Hm'. pose proof (maxOf_in _ Hne') as HM'.
  pose proof (minOf_in _ Hne) as Hm. pose proof (maxOf_in _ Hne) as HM.
  apply in_map_iff in Hm'. destruct Hm' as (u & Eu & Hu).
  apply in_map_iff in HM'. destruct HM' as (v & Ev & Hv).
  pose proof (maxOf_ge _ _ Hu) as H1. pose proof (minOf_le _ _ Hv) as H2.
  pose proof (minOf_le _ _ (in_map (fun v => a * v + b) _ _ HM)) as H3.
  pose proof (maxOf_ge _ _ (in_map (fun v => a * v + b) _ _ Hm)) as H4.
  cbv beta in H3, H4. rewrite <- Eu in *. rewrite <- Ev in *.
  split; nra.
Qed.


Lemma mm_affine_neg (vals : list Q) (a b x : Q) :
  vals <> [] -> a < 0 ->
  mm (a * x + b) (rng (map (fun v => a * v + b) vals)) == mmInv x (rng vals)
  /\ mmInv (a * x + b) (rng (map (fun v => a * v + b) vals))
     == mm x (rng vals).
Proof.
  intros Hne Ha.
  destruct (rng_affine_neg vals a b Hne Ha) as [Em EM].
  set (r' := rng (map (fun v => a * v + b) vals)) in *.
  set (r := rng vals) in *.
  destruct (mm_cases (a * x + b) r') as [[D' ->] | [D' ->]];
    destruct (mm_cases x r) as [[D ->] | [D ->]];
    destruct (mmInv_cases (a * x + b) r') as [[I' ->] | [I' ->]];
    destruct (mmInv_cases x r) as [[I ->] | [I ->]];
    try contradiction;
    try (split; reflexivity).
  - exfalso. apply D. rewrite Em, EM in D'. nra.
  - exfalso. apply D'. rewrite Em, EM, D. reflexivity.
  - assert (Hd : ~ rmax r - rmin r == 0) by (intro E; apply D; lra).
    assert (Ha' : ~ a == 0) by lra.
    split; rewrite Em, EM; field; split; try assumption;
      intro E; apply Hd; nra.
Qed.

End Normalizer.

(** ** [scoreAndAllocate]: the array it returns *)

Section ResultFields.
Import Mcda Props.

Lemma insertDesc_sorted (a : Alloc) (l : list Alloc) :
  StronglySorted (fun x y => eur y <= eur x) l ->
  StronglySorted (fun x y => eur y <= eur x) (insertDesc a l).
Proof.
  induction 1 as [| b l Hs IH Hb]; simpl.
  - constructor; [constructor | constructor].
  - destruct (Qle_bool (eur b - eur a) 0) eqn:E.
    + apply Qle_bool_iff in E.
      constructor; [constructor; assumption |].
      constructor; [lra |].
      rewrite Forall_forall in Hb |- *. intros y Hy.
      specialize (Hb y Hy). lra.
    + apply leb_gt in E.
      constructor; [exact IH |].
      rewrite Forall_forall in Hb |- *. intros y Hy.
      apply (Permutation_in _ (insertDesc_perm a l)) in Hy.
      destruct Hy as [<- | Hy]; [lra | apply Hb; exact Hy].
Qed.

Lemma sortDesc_sorted (l : list Alloc) :
  StronglySorted (fun x y => eur y <= eur x) (sortDesc l).
Proof.
  induction l as [| a l IH]; simpl.
  - constructor.
  - apply insertDesc_sorted. exact IH.
Qed.

Lemma allocate_fields (allocs : list Shared) (opt : Options) :
  map (fun a => (a_la a, score a, share a)) (allocate allocs opt)
  = map (fun s => (s_la s, s_score s, s_share s)) allocs.
Proof.
  unfold allocate.
  destruct (JS.truthyOpt (floorEUR opt) || JS.truthyOpt (capShare opt));
    rewrite ?map_map; apply map_ext; reflexivity.
Qed.

Lemma exact_fields rows w opt :
  map (fun a => (a_la a, score a, share a)) (exact rows w opt)
  = map (fun s => (s_la s, s_score s, s_share s)) (shares (items rows w opt)).
Proof. apply allocate_fields. Qed.

Lemma result_fields rows w opt :
  Permutation
    (map (fun a => (a_la a, score a, share a)) (scoreAndAllocate rows w opt))
    (map (fun s => (s_la s, s_score s, s_share s))
         (shares (items rows w opt))).
Proof.
  rewrite <- exact_fields.
  eapply perm_trans.
  - apply Permutation_map. apply result_perm.
  - rewrite map_map. cbn [rounded a_la score share].
    apply Permutation_refl.
Qed.

Lemma result_keys rows w opt :
  Permutation (map a_la (scoreAndAllocate rows w opt)) (map la rows).
Proof.
  rewrite <- shares_keys with (w := w) (opt := opt).
  pose proof (Permutation_map (fun t : LAKey * Q * Q => fst (fst t))
                (result_fields rows w opt)) as H.
  rewrite !map_map in H. exact H.
Qed.


Lemma result_field_in rows w opt (a : Alloc) :
  In a (scoreAndAllocate rows w opt) ->
  exists s, In s (shares (items rows w opt))
            /\ a_la a = s_la s /\ score a = s_score s
            /\ share a = s_share s.
Proof.
  intro Hin.
  pose proof (in_map (fun a => (a_la a, score a, share a)) _ _ Hin) as H.
  apply (Permutation_in _ (result_fields rows w opt)) in H.
  apply in_map_iff in H. destruct H as (s & E & Hs).
  exists s. injection E as E1 E2 E3.
  split; [exact Hs | repeat split; symmetry; assumption].
Qed.

Lemma shares_in (its : list Item) (s : Shared) :
  In s (shares its) ->
  exists it, In it its /\ s_la s = i_la it /\ s_score s = i_score it
             /\ s_share s
                = i_score it / JS.orElse (JS.sumBy i_score its) 1.
Proof.
  unfold shares. intro H. apply in_map_iff in H.
  destruct H as (it & <- & Hit). exists it.
  split; [exact Hit | repeat split; reflexivity].
Qed.

Lemma exact_keys rows w opt :
  map a_la (exact rows w opt) = map la rows.
Proof.
  rewrite <- (shares_keys rows w opt).
  pose proof (f_equal (map (fun t : LAKey * Q * Q => fst (fst t)))
                (exact_fields rows w opt)) as H.
  rewrite !map_map in H. exact H.
Qed.

End ResultFields.

(** ** [scoreAndAllocate]: equal shares give equal amounts *)

Section Congruence.
Import Mcda Props Change.

Lemma findRoom_sim (room room' : list (LAKey * Q)) (k : LAKey) :
  Forall2 (fun p q => fst p = fst q /\ snd p == snd q) room room' ->
  findRoom room k == findRoom room' k.
Proof.
  unfold findRoom. induction 1 as [| p q room room' [Hk Hv] _ IH];
    cbn [find].
  - reflexivity.
  - unfold LAKey in *. rewrite <- Hk.
    destruct (String.eqb (fst p) k); [exact Hv | exact IH].
Qed.

Lemma clamped_sim (ss ss' : list Shared) (opt : Options) :
  Forall2 sameShare ss ss' ->
  Forall2 sameAmount (clamped ss opt) (clamped ss' opt).
Proof.
  intro H. unfold clamped. apply Forall2_map.
  apply (Forall2_weaken sameShare); [| exact H].
  intros s s' _ _ [Hk Hs]. split; cbn [a_la eur]; [exact Hk |].
  apply min_compat; [apply max_compat |]; try reflexivity.
  rewrite Hs. reflexivity.
Qed.

Lemma allocate_sim (ss ss' : list Shared) (opt : Options) :
  Forall2 sameShare ss ss' ->
  Forall2 sameAmount (allocate ss opt) (allocate ss' opt).
Proof.
  intro H.
  destruct (JS.truthyOpt (floorEUR opt) || JS.truthyOpt (capShare opt))
    eqn:E.
  - rewrite !(allocate_constrained _ opt E).
    pose proof (clamped_sim ss ss' opt H) as Hc.
    assert (Hspent : spentOf ss opt == spentOf ss' opt).
    { unfold spentOf. apply sumBy_Forall2.
      apply (Forall2_weaken sameAmount); [| exact Hc].
      intros a a' _ _ [_ He]. exact He. }
    assert (Hroom : Forall2 (fun p q => fst p = fst q /\ snd p == snd q)
                      (roomOf ss opt) (roomOf ss' opt)).
    { unfold roomOf. apply Forall2_map.
      apply (Forall2_weaken sameAmount); [| exact Hc].
      intros a a' _ _ [Hk He]. split; cbn [fst snd]; [exact Hk |].
      rewrite He. reflexivity. }
    assert (Hsum : roomSum ss opt == roomSum ss' opt).
    { unfold roomSum. apply sumBy_Forall2.
      apply (Forall2_weaken (fun p q => fst p = fst q /\ snd p == snd q));
        [| exact Hroom].
      intros p q _ _ [_ Hv]. apply max_compat; [reflexivity | exact Hv]. }
    assert (Hrem : remOf ss opt == remOf ss' opt).
    { unfold remOf. apply max_compat; [reflexivity |]. rewrite Hspent.
      reflexivity. }
    apply Forall2_map.
    apply (Forall2_weaken sameAmount); [| exact Hc].
    intros a a' _ _ [Hk He]. split; cbn [a_la eur]; [exact Hk |].
    rewrite <- Hk.
    rewrite (max_compat 0 0 _ _ (Qeq_refl 0)
               (findRoom_sim _ _ (a_la a) Hroom)).
    rewrite (orElse_compat _ _ 1 1 Hsum (Qeq_refl 1)).
    rewrite He, Hrem. reflexivity.
  - unfold allocate. rewrite E. apply Forall2_map.
    apply (Forall2_weaken sameShare); [| exact H].
    intros s s' _ _ [Hk Hs]. split; cbn [a_la eur]; [exact Hk |].
    rewrite Hs. reflexivity.
Qed.

Lemma shares_sim (its its' : list Item) (c : Q) :
  0 < c ->
  c == 1 \/ ~ JS.sumBy i_score its == 0 ->
  Forall2 (fun i i' => i_la i = i_la i' /\ i_score i' == c * i_score i)
          its its' ->
  Forall2 sameShare (shares its) (shares its').
Proof.
  intros Hc Hcase H.
  assert (Hsum : JS.sumBy i_score its' == c * JS.sumBy i_score its).
  { rewrite Qmult_comm, <- sumBy_scale. symmetry. apply sumBy_Forall2.
    apply (Forall2_weaken
             (fun i i' => i_la i = i_la i' /\ i_score i' == c * i_score i));
      [| exact H].
    intros i i' _ _ [_ E]. rewrite E. ring. }
  unfold shares. apply Forall2_map.
  apply (Forall2_weaken
           (fun i i' => i_la i = i_la i' /\ i_score i' == c * i_score i));
    [| exact H].
  intros i i' _ _ [Hk E]. split; cbn [s_la s_share]; [exact Hk |].
  destruct Hcase as [H1 | Hnz].
  - assert (Hs1 : JS.sumBy i_score its' == JS.sumBy i_score its)
      by (rewrite Hsum, H1; ring).
    rewrite E, (orElse_compat _ _ 1 1 Hs1 (Qeq_refl 1)), H1, Qmult_1_l.
    reflexivity.
  - destruct (orElse_cases (JS.sumBy i_score its) 1) as [[Z _] | [_ ->]];
      [contradiction |].
    destruct (orElse_cases (JS.sumBy i_score its') 1) as [[Z _] | [_ ->]].
    + exfalso. apply Hnz. rewrite Hsum in Z. nra.
    + rewrite E, Hsum. field. split; [exact Hnz | lra].
Qed.

End Congruence.

(** ** [scoreAndAllocate]: rows and results *)

Section RowsAndResults.
Import Mcda Props Change.

Lemma row_of_result rows w opt (a : Alloc) :
  In a (scoreAndAllocate rows w opt) ->
  exists r, In r rows /\ a_la a = la r
            /\ score a = i_score (scoreIn rows w opt r)
            /\ share a
               = i_score (scoreIn rows w opt r)
                 / JS.orElse (JS.sumBy i_score (items rows w opt)) 1.
Proof.
  intro Hin.
  destruct (result_field_in rows w opt a Hin) as (s & Hs & Ek & Es & Eh).
  destruct (shares_in _ s Hs) as (it & Hit & Ik & Is & Ih).
  rewrite items_scoreIn in Hit. apply in_map_iff in Hit.
  destruct Hit as (r & <- & Hr). exists r.
  split; [exact Hr |]. split; [| split].
  - rewrite Ek, Ik. apply scoreIn_factor.
  - rewrite Es, Is. reflexivity.
  - rewrite Eh, Ih. reflexivity.
Qed.

Lemma result_of_row rows w opt (r : MCDAInput) :
  In r rows ->
  exists a, In a (scoreAndAllocate rows w opt) /\ a_la a = la r
            /\ score a = i_score (scoreIn rows w opt r).
Proof.
  intro Hr.
  assert (Hs : In (mkShared (i_la (scoreIn rows w opt r))
                            (i_score (scoreIn rows w opt r))
                            (i_score (scoreIn rows w opt r)
                             / JS.orElse (JS.sumBy i_score (items rows w opt))
                                         1))
                  (shares (items rows w opt))).
  { unfold shares. rewrite items_scoreIn at 2.
    rewrite map_map. apply in_map_iff. exists r.
    split; [reflexivity | exact Hr]. }
  apply (in_map (fun s => (s_la s, s_score s, s_share s))) in Hs.
  apply (Permutation_in _ (Permutation_sym (result_fields rows w opt))) in Hs.
  apply in_map_iff in Hs. destruct Hs as (a & E & Ha).
  cbn [s_la s_score s_share] in E. injection E as E1 E2 E3. exists a.
  split; [exact Ha |]. split; [exact E1 | exact E2].
Qed.

Lemma unconstrained_eur rows w opt (a : Alloc) :
  unconstrained opt -> In a (scoreAndAllocate rows w opt) ->
  eur a = JS.round (share a * budgetEUR opt).
Proof.
  intros Hu Hin. apply result_in in Hin. destruct Hin as (p & Hp & ->).
  rewrite (exact_unconstrained rows w opt Hu) in Hp.
  apply in_map_iff in Hp. destruct Hp as (s & <- & _). reflexivity.
Qed.


Lemma upliftFactor_upper (opt : Options) (r : MCDAInput) :
  upliftFactor opt r <= 1 + JS.max 0 (JS.nullish (ruralUplift opt) 0).
Proof.
  unfold upliftFactor. destruct (ruralUplift opt) as [u |]; cbn [JS.nullish].
  - pose proof (max_lower_l 0 u) as H0. pose proof (max_lower_r 0 u) as Hu.
    destruct (JS.truthy u && JS.ltb 0 u) eqn:E; [| lra].
    apply andb_true_iff in E. destruct E as [_ E]. apply ltb_lt in E.
    pose proof (clamp01_range (JS.nullish (ruralIndex r) 0)) as [Hl Hh].
    nra.
  - pose proof (max_lower_l 0 0). lra.
Qed.

Lemma weighted_nonneg rows w (r : MCDAInput) :
  nonnegWeights w -> In r rows ->
  0 <= weighted w (rng (map growth65 rows)) (rng (map oadr rows))
         (rng (map dwellingsPer1k65 rows)) (rng (map medianIncome rows))
         (rng (map grantsPer65 rows)) r.
Proof.
  intros (H1 & H2 & H3 & H4 & H5) Hr. unfold weighted.
  pose proof (mm_range _ _ (in_map growth65 _ _ Hr)) as [A1 _].
  pose proof (mm_range _ _ (in_map oadr _ _ Hr)) as [A2 _].
  pose proof (mmInv_range _ _ (in_map dwellingsPer1k65 _ _ Hr)) as [A3 _].
  pose proof (mmInv_range _ _ (in_map medianIncome _ _ Hr)) as [A4 _].
  pose proof (mmInv_range _ _ (in_map grantsPer65 _ _ Hr)) as [A5 _].
  pose proof (Qmult_le_0_compat _ _ H1 A1).
  pose proof (Qmult_le_0_compat _ _ H2 A2).
  pose proof (Qmult_le_0_compat _ _ H3 A3).
  pose proof (Qmult_le_0_compat _ _ H4 A4).
  pose proof (Qmult_le_0_compat _ _ H5 A5).
  lra.
Qed.

Lemma weighted_scaled (c : Q) w gR oR hR iR eR (r : MCDAInput) :
  weighted (scaleWeights c w) gR oR hR iR eR r
  == c * weighted w gR oR hR iR eR r.
Proof.
  unfold weighted, scaleWeights.
  cbn [wGrowth wOadr wHousingInv wIncomeInv wGrantsInv]. ring.
Qed.




End RowsAndResults.

(** ** [scoreAndAllocate]: edge cases of the cap/floor logic and of the
    scores *)

Section McdaEdges.
Import Mcda Props Change.

Lemma shares_sim_zero (its its' : list Item) (c : Q) :
  (forall i, In i its -> i_score i == 0) ->
  Forall2 (fun i i' => i_la i = i_la i' /\ i_score i' == c * i_score i)
          its its' ->
  Forall2 sameShare (shares its) (shares its').
Proof.
  intros Hz H. unfold shares. apply Forall2_map.
  apply (Forall2_weaken
           (fun i i' => i_la i = i_la i' /\ i_score i' == c * i_score i));
    [| exact H].
  intros i i' Hi _ [Hk E]. split; cbn [s_la s_share]; [exact Hk |].
  rewrite E, (Hz i Hi). unfold Qdiv. ring.
Qed.

Lemma findRoom_zero (room : list (LAKey * Q)) (k : LAKey) :
  (forall p, In p room -> snd p == 0) -> findRoom room k == 0.
Proof.
  intro H. unfold findRoom.
  destruct (find (fun x => String.eqb (fst x) k) room) as [x |] eqn:E.
  - apply find_some in E. apply H. apply E.
  - reflexivity.
Qed.

Lemma clamped_zero_cap (allocs : list Shared) (opt : Options) (a : Alloc) :
  capOf opt == 0 -> In a (clamped allocs opt) -> eur a == 0.
Proof.
  intros Hc Ha.
  pose proof (clamped_le_cap allocs opt a Ha) as Hle.
  pose proof (clamped_ge allocs opt a Ha) as Hge.
  assert (H0 : capOf opt * budgetEUR opt == 0) by (rewrite Hc; ring).
  pose proof (max_lower_l 0 (JS.nullish (floorEUR opt) 0)) as Hf.
  fold (floorOf opt) in Hf.
  destruct (min_cases (floorOf opt) (capOf opt * budgetEUR opt))
    as [[H E] | [H E]]; rewrite E in Hge; lra.
Qed.

Lemma exact_zero_cap (allocs : list Shared) (opt : Options) (p : Alloc) :
  constrained opt -> capOf opt == 0 ->
  In p (allocate allocs opt) -> eur p == 0.
Proof.
  intros Hcon Hc Hp. rewrite (allocate_constrained allocs opt Hcon) in Hp.
  apply in_map_iff in Hp. destruct Hp as (a & <- & Ha). cbn [eur].
  assert (Hroom : findRoom (roomOf allocs opt) (a_la a) == 0).
  { apply findRoom_zero. intros q Hq. unfold roomOf in Hq.
    apply in_map_iff in Hq. destruct Hq as (a' & <- & Ha'). cbn [snd].
    rewrite (clamped_zero_cap allocs opt a' Hc Ha'), Hc. ring. }
  rewrite (clamped_zero_cap allocs opt a Hc Ha).
  rewrite (max_compat 0 0 _ 0 (Qeq_refl 0) Hroom).
  change (JS.max 0 0) with 0. unfold Qdiv. ring.
Qed.


Lemma Forall2_and {A B : Type} (R S : A -> B -> Prop)
    (l : list A) (l' : list B) :
  Forall2 R l l' -> Forall2 S l l' ->
  Forall2 (fun a b => R a b /\ S a b) l l'.
Proof.
  intro H. induction H as [| a b l l' Hab _ IH]; intro H';
    inversion H' as [| a0 b0 l0 l0' Sab F]; subst; constructor.
  - split; assumption.
  - apply IH. exact F.
Qed.

(** Two inputs whose scores differ by a common factor, region by region:
    what the two results hold for a region. *)
Lemma scaled_items_result (c : Q) rows rows' w w' opt (x y : Alloc) :
  0 < c ->
  c == 1 \/ (forall i, In i (items rows w opt) -> 0 <= i_score i) ->
  NoDup (map la rows) ->
  Forall2 (fun i i' => i_la i = i_la i' /\ i_score i' == c * i_score i)
          (items rows w opt) (items rows' w' opt) ->
  In x (scoreAndAllocate rows w opt) ->
  In y (scoreAndAllocate rows' w' opt) ->
  a_la x = a_la y ->
  score y == c * score x /\ share x == share y /\ eur x = eur y.
Proof.
  intros Hc Hcase Hnd F Hx Hy Hk.
  assert (FS : Forall2 sameShare (shares (items rows w opt))
                 (shares (items rows' w' opt))).
  { destruct Hcase as [H1 | Hpos].
    - apply (shares_sim _ _ c); [exact Hc | left; exact H1 | exact F].
    - destruct (Qeq_dec (JS.sumBy i_score (items rows w opt)) 0)
        as [Z | NZ].
      + apply (shares_sim_zero _ _ c); [| exact F].
        apply sumBy_all_zero; assumption.
      + apply (shares_sim _ _ c); [exact Hc | right; exact NZ | exact F]. }
  assert (FC : Forall2 (fun s s' => s_score s' == c * s_score s)
                 (shares (items rows w opt)) (shares (items rows' w' opt))).
  { unfold shares. apply Forall2_map.
    apply (Forall2_weaken
             (fun i i' => i_la i = i_la i' /\ i_score i' == c * i_score i));
      [| exact F].
    intros i i' _ _ [_ E]. exact E. }
  assert (Hnds : NoDup (map s_la (shares (items rows w opt))))
    by (rewrite shares_keys; exact Hnd).
  destruct (result_field_in rows w opt x Hx) as (sx & Hsx & Kx & Sx & Ex).
  destruct (result_field_in rows' w' opt y Hy) as (sy & Hsy & Ky & Sy & Ey).
  destruct (Forall2_In_r _ _ _ sy (Forall2_and _ _ _ _ FS FC) Hsy)
    as (s0 & Hs0 & [K0 E0] & C0).
  assert (E : s0 = sx).
  { apply (NoDup_key s_la (shares (items rows w opt))); try assumption.
    congruence. }
  subst s0.
  split; [rewrite Sx, Sy; exact C0 |].
  split; [rewrite Ex, Ey; exact E0 |].
  apply result_in in Hx. destruct Hx as (p & Hp & ->).
  apply result_in in Hy. destruct Hy as (q & Hq & ->).
  cbn [rounded a_la eur] in *. apply round_compat.
  pose proof (allocate_sim _ _ opt FS) as FA.
  fold (exact rows w opt) in FA. fold (exact rows' w' opt) in FA.
  destruct (Forall2_In_r _ _ _ q FA Hq) as (p0 & Hp0 & Kp0 & Ep0).
  assert (E : p0 = p).
  { apply (NoDup_key a_la (exact rows w opt)); try assumption.
    - rewrite exact_keys. exact Hnd.
    - congruence. }
  subst p0. exact Ep0.
Qed.

End McdaEdges.

(** ** [scoreAndAllocate]: the amount of a row when its share grows *)

Section AmountOfRow.
Import Mcda Props Change.

(** The amount of a row before the final rounding, in the cap/floor
    logic: the clamped amount and the top-up. *)
Lemma constrained_row rows w opt (r : MCDAInput) (p : Alloc) :
  constrained opt -> NoDup (map la rows) -> In r rows ->
  In p (exact rows w opt) -> a_la p = la r ->
  let s := i_score (scoreIn rows w opt r)
           / JS.orElse (JS.sumBy i_score (items rows w opt)) 1 in
  let c := JS.min (JS.max (s * budgetEUR opt) (floorOf opt))
                  (capOf opt * budgetEUR opt) in
  eur p
  == c + JS.max 0 (capOf opt * budgetEUR opt - c)
         / JS.orElse (roomSum (shares (items rows w opt)) opt) 1
         * remOf (shares (items rows w opt)) opt.
Proof.
  intros Hcon Hnd Hr Hp Hk s c.
  assert (Hnd' : NoDup (map s_la (shares (items rows w opt))))
    by (rewrite shares_keys; exact Hnd).
  unfold exact in Hp. rewrite (allocate_constrained _ opt Hcon) in Hp.
  apply in_map_iff in Hp. destruct Hp as (a & <- & Ha).
  cbn [a_la eur] in *.
  rewrite (findRoom_own _ opt a Hnd' Ha).
  assert (Ea : eur a = c).
  { unfold clamped in Ha. apply in_map_iff in Ha.
    destruct Ha as (sh & <- & Hsh). cbn [a_la eur] in *.
    destruct (shares_in _ sh Hsh) as (it & Hit & Ik & _ & Eh).
    rewrite items_scoreIn in Hit. apply in_map_iff in Hit.
    destruct Hit as (r0 & <- & Hr0).
    rewrite Ik, (proj1 (scoreIn_factor rows w opt r0)) in Hk.
    rewrite (NoDup_key la rows r0 r Hnd Hr0 Hr Hk) in Eh.
    rewrite Eh. reflexivity. }
  rewrite Ea. reflexivity.
Qed.

Lemma topUp_nonneg (x R rem : Q) :
  0 <= R -> 0 <= rem -> 0 <= JS.max 0 x / JS.orElse R 1 * rem.
Proof.
  intros HR Hrem. pose proof (max_lower_l 0 x) as Hx.
  apply Qmult_le_0_compat; [| exact Hrem].
  apply Qle_shift_div_l; [| lra].
  destruct (orElse_cases R 1) as [[_ ->] | [N ->]]; lra.
Qed.

(** With a cap of 100% and scores that do not add up to zero the clamped
    amounts use up the budget: nothing remains to top up. *)
Lemma nothing_remains rows w opt :
  nonnegWeights w -> 0 <= budgetEUR opt -> capOf opt == 1 ->
  ~ JS.sumBy i_score (items rows w opt) == 0 ->
  remOf (shares (items rows w opt)) opt == 0.
Proof.
  intros Hw HB Hcap Hnz.
  assert (Hspent : budgetEUR opt <= spentOf (shares (items rows w opt)) opt).
  { unfold spentOf, clamped. rewrite sumBy_map. cbn [eur].
    rewrite <- (Qmult_1_l (budgetEUR opt)) at 1.
    rewrite <- (shares_sum _ Hnz), <- sumBy_scale.
    apply sumBy_le. intros sh Hsh.
    assert (Hs : 0 <= s_share sh <= 1).
    { apply (shares_range (items rows w opt)); [| exact Hsh].
      intros it Hit. apply (items_nonneg rows w opt it Hw Hit). }
    pose proof (max_lower_l (s_share sh * budgetEUR opt) (floorOf opt)).
    destruct (min_cases
                (JS.max (s_share sh * budgetEUR opt) (floorOf opt))
                (capOf opt * budgetEUR opt)) as [[_ ->] | [_ ->]];
      [lra | rewrite Hcap; nra]. }
  unfold remOf.
  destruct (max_cases 0 (budgetEUR opt
                         - spentOf (shares (items rows w opt)) opt))
    as [[H ->] | [H ->]]; lra.
Qed.

Lemma clamp_mono (s s' B f capB : Q) :
  0 <= B -> s <= s' ->
  JS.min (JS.max (s * B) f) capB <= JS.min (JS.max (s' * B) f) capB.
Proof.
  intros HB Hs.
  destruct (max_cases (s * B) f) as [[H1 ->] | [H1 ->]];
    destruct (max_cases (s' * B) f) as [[H2 ->] | [H2 ->]];
    destruct (min_cases (s * B) capB) as [[H3 E3] | [H3 E3]];
    destruct (min_cases (s' * B) capB) as [[H4 E4] | [H4 E4]];
    destruct (min_cases f capB) as [[H5 E5] | [H5 E5]];
    rewrite ?E3, ?E4, ?E5; nra.
Qed.

Lemma zero_shares_sim (ss ss' : list Shared) :
  map s_la ss = map s_la ss' ->
  (forall s, In s ss -> s_share s == 0) ->
  (forall s, In s ss' -> s_share s == 0) ->
  Forall2 sameShare ss ss'.
Proof.
  revert ss'. induction ss as [| a l IH]; intros [| a' l'] L A A';
    try discriminate L; [constructor |].
  cbn [map] in L. injection L as La Ll. constructor.
  - split; [exact La |].
    rewrite (A a (or_introl eq_refl)), (A' a' (or_introl eq_refl)).
    reflexivity.
  - apply IH; [exact Ll | |]; intros s Hs; [apply A | apply A'];
      right; exact Hs.
Qed.

Lemma zero_total_shares rows w opt :
  nonnegWeights w -> JS.sumBy i_score (items rows w opt) == 0 ->
  forall s, In s (shares (items rows w opt)) -> s_share s == 0.
Proof.
  intros Hw Hz s Hs.
  destruct (shares_in _ s Hs) as (it & Hit & _ & _ & ->).
  rewrite (sumBy_all_zero i_score (items rows w opt)
             (fun y Hy => items_nonneg rows w opt y Hw Hy) Hz it Hit).
  unfold Qdiv. ring.
Qed.

(** The amount of a region before the final rounding does not fall when
    its score grows and the scores of the others do not: on the
    proportional path, and in the cap/floor logic when the cap is 100% or
    0. *)
Lemma amount_mono rows rows' w opt (r r' : MCDAInput) (O O' : Q)
    (p q : Alloc) :
  nonnegWeights w -> 0 <= budgetEUR opt ->
  noPartialCap opt ->
  NoDup (map la rows) -> map la rows' = map la rows ->
  In r rows -> In r' rows' -> la r' = la r ->
  i_score (scoreIn rows w opt r) <= i_score (scoreIn rows' w opt r') ->
  0 <= O' -> O' <= O ->
  JS.sumBy i_score (items rows w opt)
  == i_score (scoreIn rows w opt r) + O ->
  JS.sumBy i_score (items rows' w opt)
  == i_score (scoreIn rows' w opt r') + O' ->
  In p (exact rows w opt) -> a_la p = la r ->
  In q (exact rows' w opt) -> a_la q = la r ->
  eur p <= eur q.
Proof.
  intros Hw HB Hpath Hnd Hkeys Hr Hr' Hla HS HO' HOO HT HT' Hp Hpk Hq Hqk.
  set (S := i_score (scoreIn rows w opt r)) in *.
  set (S' := i_score (scoreIn rows' w opt r')) in *.
  set (T := JS.sumBy i_score (items rows w opt)) in *.
  set (T' := JS.sumBy i_score (items rows' w opt)) in *.
  assert (HS0 : 0 <= S).
  { apply (items_nonneg rows w opt _ Hw). rewrite items_scoreIn.
    apply in_map. exact Hr. }
  assert (Hshare : S / JS.orElse T 1 <= S' / JS.orElse T' 1)
    by (apply (share_mono S S' O O' T T'); assumption).
  assert (Hnd' : NoDup (map la rows')) by (rewrite Hkeys; exact Hnd).
  rewrite <- Hla in Hqk.
  destruct (JS.truthyOpt (floorEUR opt) || JS.truthyOpt (capShare opt))
    eqn:E.
  - (* the cap/floor logic *)
    destruct Hpath as [U | [Hcap | Hzero]];
      [unfold unconstrained in U; rewrite E in U; discriminate U | |].
    2: { (* a cap of 0: nothing is allocated *)
         rewrite (exact_zero_cap _ opt p E Hzero Hp).
         rewrite (exact_zero_cap _ opt q E Hzero Hq). lra. }
    pose proof (constrained_row rows w opt r p E Hnd Hr Hp Hpk) as Ep.
    pose proof (constrained_row rows' w opt r' q E Hnd' Hr' Hq Hqk) as Eq.
    cbv zeta in Ep, Eq. fold S T in Ep. fold S' T' in Eq.
    pose proof (topUp_nonneg
                  (capOf opt * budgetEUR opt
                   - JS.min (JS.max (S / JS.orElse T 1 * budgetEUR opt)
                                    (floorOf opt))
                            (capOf opt * budgetEUR opt))
                  _ _ (roomSum_nonneg (shares (items rows w opt)) opt)
                  (remOf_nonneg (shares (items rows w opt)) opt)) as Tp.
    pose proof (topUp_nonneg
                  (capOf opt * budgetEUR opt
                   - JS.min (JS.max (S' / JS.orElse T' 1 * budgetEUR opt)
                                    (floorOf opt))
                            (capOf opt * budgetEUR opt))
                  _ _ (roomSum_nonneg (shares (items rows' w opt)) opt)
                  (remOf_nonneg (shares (items rows' w opt)) opt)) as Tq.
    pose proof (clamp_mono _ _ (budgetEUR opt) (floorOf opt)
                  (capOf opt * budgetEUR opt) HB Hshare) as Hclamp.
    destruct (Qeq_dec T 0) as [Z | NZ]; destruct (Qeq_dec T' 0) as [Z' | NZ'].
    + (* no score before, none after: the same amounts *)
      assert (F : Forall2 sameShare (shares (items rows w opt))
                    (shares (items rows' w opt))).
      { apply zero_shares_sim.
        - rewrite !shares_keys. symmetry. exact Hkeys.
        - apply (zero_total_shares rows w opt Hw Z).
        - apply (zero_total_shares rows' w opt Hw Z'). }
      pose proof (allocate_sim _ _ opt F) as FA.
      fold (exact rows w opt) in FA. fold (exact rows' w opt) in FA.
      destruct (Forall2_In_r _ _ _ q FA Hq) as (p0 & Hp0 & Kp0 & Ep0).
      assert (E0 : p0 = p).
      { apply (NoDup_key a_la (exact rows w opt)); try assumption.
        - rewrite exact_keys. exact Hnd.
        - congruence. }
      subst p0. rewrite Ep0. lra.
    + (* no score before, some after: the region has all of it *)
      assert (HO : O' == 0) by lra.
      assert (Hone : S' / JS.orElse T' 1 == 1).
      { destruct (orElse_cases T' 1) as [[Z' _] | [_ ->]]; [contradiction |].
        rewrite HT', HO. field. intro E0. apply NZ'. lra. }
      pose proof (nothing_remains rows' w opt Hw HB Hcap NZ') as R'.
      assert (Hle : eur p <= capOf opt * budgetEUR opt).
      { apply (constrained_le_cap (shares (items rows w opt)) opt p E);
          try assumption.
        - rewrite shares_keys. exact Hnd.
        - rewrite shares_len, Hcap.
          assert (H1 : 1 <= JS.len rows).
          { unfold JS.len. change 1 with (inject_Z 1). rewrite <- Zle_Qle.
            destruct rows; [destruct Hr | cbn [List.length]; lia]. }
          lra. }
      assert (H1 : 1 <= S' / JS.orElse T' 1) by lra.
      pose proof (clamp_mono _ _ (budgetEUR opt) (floorOf opt)
                    (capOf opt * budgetEUR opt) HB H1) as Hall.
      pose proof (max_lower_l (1 * budgetEUR opt) (floorOf opt)) as M.
      destruct (min_cases (JS.max (1 * budgetEUR opt) (floorOf opt))
                  (capOf opt * budgetEUR opt)) as [[H2 E2] | [H2 E2]];
        rewrite E2 in Hall; rewrite Eq, R'; nra.
    + (* some score before, none after: the region had none *)
      assert (HS' : S' == 0) by lra.
      assert (HSz : S == 0) by lra.
      pose proof (nothing_remains rows w opt Hw HB Hcap NZ) as R.
      rewrite Ep, R. rewrite Eq.
      assert (C0 : JS.min (JS.max (S / JS.orElse T 1 * budgetEUR opt)
                                  (floorOf opt))
                          (capOf opt * budgetEUR opt)
                   <= JS.min (JS.max (S' / JS.orElse T' 1 * budgetEUR opt)
                                     (floorOf opt))
                             (capOf opt * budgetEUR opt)) by exact Hclamp.
      lra.
    + (* some score before and after: the clamped amounts *)
      pose proof (nothing_remains rows w opt Hw HB Hcap NZ) as R.
      pose proof (nothing_remains rows' w opt Hw HB Hcap NZ') as R'.
      rewrite Ep, Eq, R, R'. lra.
  - (* the proportional path *)
    rewrite (exact_unconstrained rows w opt E) in Hp.
    rewrite (exact_unconstrained rows' w opt E) in Hq.
    apply in_map_iff in Hp, Hq.
    destruct Hp as (sp & <- & Hsp). destruct Hq as (sq & <- & Hsq).
    cbn [a_la eur] in *.
    destruct (shares_in _ sp Hsp) as (ip & Hip & Kp & _ & ->).
    destruct (shares_in _ sq Hsq) as (iq & Hiq & Kq & _ & ->).
    rewrite items_scoreIn in Hip, Hiq. apply in_map_iff in Hip, Hiq.
    destruct Hip as (rp & <- & Hrp). destruct Hiq as (rq & <- & Hrq).
    rewrite Kp, (proj1 (scoreIn_factor rows w opt rp)) in Hpk.
    rewrite Kq, (proj1 (scoreIn_factor rows' w opt rq)) in Hqk.
    rewrite (NoDup_key la rows rp r Hnd Hrp Hr Hpk).
    rewrite (NoDup_key la rows' rq r' Hnd' Hrq Hr' Hqk).
    fold S S' T T'. apply Qmult_le_compat_r; [exact Hshare | exact HB].
Qed.

(** The same for a row that is replaced in place, when the scores of
    the other rows do not grow. *)
Lemma replaced_row_mono (pre post : list MCDAInput) (r r' : MCDAInput)
    w opt (p q : Alloc) :
  nonnegWeights w -> 0 <= budgetEUR opt ->
  noPartialCap opt ->
  NoDup (map la (pre ++ r :: post)) -> la r' = la r ->
  i_score (scoreIn (pre ++ r :: post) w opt r)
  <= i_score (scoreIn (pre ++ r' :: post) w opt r') ->
  (forall z, In z (pre ++ post) ->
             i_score (scoreIn (pre ++ r' :: post) w opt z)
             <= i_score (scoreIn (pre ++ r :: post) w opt z)) ->
  In p (exact (pre ++ r :: post) w opt) -> a_la p = la r ->
  In q (exact (pre ++ r' :: post) w opt) -> a_la q = la r ->
  eur p <= eur q.
Proof.
  intros Hw HB Hpath Hnd Hla Hown Hoth Hp Hpk Hq Hqk.
  set (rows := pre ++ r :: post) in *.
  set (rows' := pre ++ r' :: post) in *.
  assert (Hr : In r rows) by (apply in_middle; left; reflexivity).
  assert (Hr' : In r' rows') by (apply in_middle; left; reflexivity).
  assert (Hpos : forall rs z, In z rs -> 0 <= i_score (scoreIn rs w opt z)).
  { intros rs z Hz. apply (items_nonneg rs w opt _ Hw).
    rewrite items_scoreIn. apply in_map. exact Hz. }
  apply (amount_mono rows rows' w opt r r'
           (JS.sumBy (fun z => i_score (scoreIn rows w opt z)) pre
            + JS.sumBy (fun z => i_score (scoreIn rows w opt z)) post)
           (JS.sumBy (fun z => i_score (scoreIn rows' w opt z)) pre
            + JS.sumBy (fun z => i_score (scoreIn rows' w opt z)) post));
    try assumption.
  - unfold rows, rows'. rewrite !map_app. cbn [map]. rewrite Hla.
    reflexivity.
  - assert (0 <= JS.sumBy (fun z => i_score (scoreIn rows' w opt z)) pre).
    { apply sumBy_nonneg. intros z Hz. apply Hpos.
      apply in_middle. right. apply in_or_app. left. exact Hz. }
    assert (0 <= JS.sumBy (fun z => i_score (scoreIn rows' w opt z)) post).
    { apply sumBy_nonneg. intros z Hz. apply Hpos.
      apply in_middle. right. apply in_or_app. right. exact Hz. }
    lra.
  - assert (JS.sumBy (fun z => i_score (scoreIn rows' w opt z)) pre
            <= JS.sumBy (fun z => i_score (scoreIn rows w opt z)) pre).
    { apply sumBy_le. intros z Hz. apply Hoth.
      apply in_or_app. left. exact Hz. }
    assert (JS.sumBy (fun z => i_score (scoreIn rows' w opt z)) post
            <= JS.sumBy (fun z => i_score (scoreIn rows w opt z)) post).
    { apply sumBy_le. intros z Hz. apply Hoth.
      apply in_or_app. right. exact Hz. }
    lra.
  - rewrite items_scoreIn, sumBy_map. unfold rows.
    rewrite sumBy_app, sumBy_cons. lra.
  - rewrite items_scoreIn, sumBy_map. unfold rows'.
    rewrite sumBy_app, sumBy_cons. lra.
Qed.

End AmountOfRow.

(** * The engine of app/mcda/page.tsx *)

(** ** The passes of [allocateBudget] *)

Section PagePasses.
Import Page Props.

Lemma floorLoop_spec (m : Q) (es : list Entry) (d0 : Q) :
  snd (floorLoop m es d0) = map (raiseTo m) es
  /\ fst (floorLoop m es d0) == d0 + JS.sumBy (shortfall m) es.
Proof.
  revert d0. induction es as [| e es IH]; intro d0; simpl.
  - split; [reflexivity | rewrite sumBy_nil; lra].
  - rewrite sumBy_cons. unfold raiseTo at 1, shortfall at 1.
    destruct (JS.ltb (alloc e) m).
    + destruct (IH (d0 + (m - alloc e))) as [H1 H2].
      destruct (floorLoop m es (d0 + (m - alloc e))) as [d r].
      simpl in *. split; [rewrite H1; reflexivity | lra].
    + destruct (IH d0) as [H1 H2].
      destruct (floorLoop m es d0) as [d r].
      simpl in *. split; [rewrite H1; reflexivity | lra].
Qed.

Lemma capLoop_spec (cap : Q) (es : list Entry) (x0 : Q) :
  snd (capLoop cap es x0) = map (clipTo cap) es
  /\ fst (capLoop cap es x0) == x0 + JS.sumBy (overshoot cap) es.
Proof.
  revert x0. induction es as [| e es IH]; intro x0; simpl.
  - split; [reflexivity | rewrite sumBy_nil; lra].
  - rewrite sumBy_cons. unfold clipTo at 1, overshoot at 1.
    destruct (JS.ltb cap (alloc e)).
    + destruct (IH (x0 + (alloc e - cap))) as [H1 H2].
      destruct (capLoop cap es (x0 + (alloc e - cap))) as [d r].
      simpl in *. split; [rewrite H1; reflexivity | lra].
    + destruct (IH x0) as [H1 H2].
      destruct (capLoop cap es x0) as [d r].
      simpl in *. split; [rewrite H1; reflexivity | lra].
Qed.

(** The floor pass, one entry at a time. *)
Lemma floorPass_spec (opts : Opts) (es : list Entry) :
  exists d pool,
    d == JS.sumBy (shortfall (minEuro opts)) es
    /\ pool = JS.orElse
                (JS.sumBy (fun e => alloc e - minEuro opts)
                   (filter (fun e => JS.ltb (minEuro opts) (alloc e))
                      (map (raiseTo (minEuro opts)) es))) 1
    /\ floorPass opts es
       = if JS.ltb 0 d then
           map (donate (minEuro opts) pool d) (map (raiseTo (minEuro opts)) es)
         else map (raiseTo (minEuro opts)) es.
Proof.
  unfold floorPass.
  destruct (floorLoop_spec (minEuro opts) es 0) as [H1 H2].
  destruct (floorLoop (minEuro opts) es 0) as [d es1]. simpl in H1, H2.
  subst es1. exists d. eexists. split; [lra |]. split; [reflexivity |].
  reflexivity.
Qed.

(** The cap pass, one entry at a time. *)
Lemma capPass_spec (opts : Opts) (budget : Q) (es : list Entry) :
  let cap := budget * pageCapOf opts in
  exists x wsum n,
    x == JS.sumBy (overshoot cap) es
    /\ wsum = JS.orElse
                (JS.sumBy boosted
                   (filter (fun e => JS.ltb (alloc e) cap)
                      (map (clipTo cap) es)))
                n
    /\ n = JS.len (filter (fun e => JS.ltb (alloc e) cap)
                     (map (clipTo cap) es))
    /\ capPass opts budget es
       = if JS.ltb 0 x then
           map (receive cap wsum n x) (map (clipTo cap) es)
         else map (clipTo cap) es.
Proof.
  intro cap. unfold capPass. fold (pageCapOf opts). fold cap.
  destruct (capLoop_spec cap es 0) as [H1 H2].
  destruct (capLoop cap es 0) as [x es1]. simpl in H1, H2.
  subst es1. exists x. do 2 eexists.
  split; [lra |]. split; [reflexivity |]. split; reflexivity.
Qed.

(** Every pass keeps the keys and the boosted scores. *)
Lemma raiseTo_keeps m e :
  name (raiseTo m e) = name e /\ boosted (raiseTo m e) = boosted e.
Proof. unfold raiseTo. destruct (JS.ltb (alloc e) m); split; reflexivity. Qed.

Lemma donate_keeps m pool d e :
  name (donate m pool d e) = name e /\ boosted (donate m pool d e) = boosted e.
Proof. unfold donate. destruct (JS.ltb m (alloc e)); split; reflexivity. Qed.

Lemma clipTo_keeps cap e :
  name (clipTo cap e) = name e /\ boosted (clipTo cap e) = boosted e.
Proof. unfold clipTo. destruct (JS.ltb cap (alloc e)); split; reflexivity. Qed.

Lemma receive_keeps cap wsum n x e :
  name (receive cap wsum n x e) = name e
  /\ boosted (receive cap wsum n x e) = boosted e.
Proof. unfold receive. destruct (JS.ltb (alloc e) cap); split; reflexivity. Qed.

Lemma floorPass_names opts es :
  map name (floorPass opts es) = map name es.
Proof.
  destruct (floorPass_spec opts es) as (d & pool & _ & _ & ->).
  destruct (JS.ltb 0 d); rewrite ?map_map; apply map_ext; intro e.
  - rewrite (proj1 (donate_keeps _ _ _ _)). apply raiseTo_keeps.
  - apply raiseTo_keeps.
Qed.

Lemma capPass_names opts budget es :
  map name (capPass opts budget es) = map name es.
Proof.
  destruct (capPass_spec opts budget es) as (x & wsum & n & _ & _ & _ & ->).
  destruct (JS.ltb 0 x); rewrite ?map_map; apply map_ext; intro e.
  - rewrite (proj1 (receive_keeps _ _ _ _ _)). apply clipTo_keeps.
  - apply clipTo_keeps.
Qed.

Lemma allocateBudget_names scores budget opts :
  map fst (allocateBudget scores budget opts) = map fst scores.
Proof.
  unfold allocateBudget. rewrite map_map. cbn [fst].
  change (fun x : Entry => name x) with name.
  destruct (Qle_bool _ 0).
  - rewrite !map_map. apply map_ext. reflexivity.
  - rewrite capPass_names, floorPass_names, !map_map.
    apply map_ext. reflexivity.
Qed.

End PagePasses.

(** ** The fallback of [allocateBudget] for regions without score *)

Section EqualSplit.
Import Page Props.

(** The amount every region holds before the renormalization when no
    score is positive. *)
Lemma fallback_amount_pos (m budget n : Q) :
  0 < budget -> 0 < n ->
  0 < JS.max 0 m + JS.max 0 (JS.max 0 ((budget - JS.max 0 m * n) / n)).
Proof.
  intros Hb Hn.
  pose proof (max_lower_l 0 (JS.max 0 ((budget - JS.max 0 m * n) / n))).
  pose proof (max_lower_r 0 (JS.max 0 ((budget - JS.max 0 m * n) / n))).
  pose proof (max_lower_r 0 ((budget - JS.max 0 m * n) / n)).
  destruct (max_cases 0 m) as [[Hm E] | [Hm E]]; rewrite E in *.
  - destruct (Qlt_le_dec 0 m) as [Hpos | Hle]; [lra |].
    assert (Em : m == 0) by lra.
    assert (0 < (budget - m * n) / n).
    { apply Qlt_shift_div_l; [exact Hn |]. rewrite Em. lra. }
    lra.
  - assert (0 < (budget - 0 * n) / n).
    { apply Qlt_shift_div_l; [exact Hn | lra]. }
    lra.
Qed.

End EqualSplit.

(** ** The floor pass *)

Section FloorPass.
Import Page Props.

Lemma raiseTo_alloc (m : Q) (e : Entry) :
  alloc (raiseTo m e) == alloc e + shortfall m e /\ m <= alloc (raiseTo m e).
Proof.
  unfold raiseTo, shortfall.
  destruct (JS.ltb (alloc e) m) eqn:E;
    [apply ltb_lt in E | apply ltb_ge in E]; cbn [setAlloc alloc];
    split; lra.
Qed.

Lemma shortfall_nonneg (m : Q) (e : Entry) : 0 <= shortfall m e.
Proof.
  unfold shortfall.
  destruct (JS.ltb (alloc e) m) eqn:E; [apply ltb_lt in E |]; lra.
Qed.

(** The surplus a raised entry offers as a donor. *)
Lemma surplus_term (m : Q) (e : Entry) :
  (if JS.ltb m (alloc (raiseTo m e)) then alloc (raiseTo m e) - m else 0)
  - shortfall m e == alloc e - m.
Proof.
  unfold raiseTo, shortfall.
  destruct (JS.ltb (alloc e) m) eqn:E;
    [apply ltb_lt in E | apply ltb_ge in E]; cbn [setAlloc alloc].
  - rewrite (proj2 (ltb_ge m m)) by lra. lra.
  - destruct (JS.ltb m (alloc e)) eqn:E2;
      [apply ltb_lt in E2 | apply ltb_ge in E2]; lra.
Qed.

Lemma poolOf_nonneg (m : Q) (es : list Entry) : 0 <= poolOf m es.
Proof.
  unfold poolOf. apply sumBy_nonneg. intros e He.
  apply filter_In in He. destruct He as [_ He]. apply ltb_lt in He. lra.
Qed.

(** The donors' pool exceeds the deficit by what the allocations exceed
    the floors. *)
Lemma pool_deficit (m : Q) (es : list Entry) :
  poolOf m es - JS.sumBy (shortfall m) es
  == JS.sumBy alloc es - m * JS.len es.
Proof.
  unfold poolOf. rewrite sumBy_filter, sumBy_map.
  rewrite <- (sumBy_const m es).
  assert (E : JS.sumBy alloc es
              == JS.sumBy (fun e => (alloc e - m) + m) es).
  { apply sumBy_ext. intros e _. lra. }
  rewrite E, sumBy_plus.
  assert (E2 : JS.sumBy (fun e => alloc e - m) es
               == JS.sumBy (fun e =>
                    (if JS.ltb m (alloc (raiseTo m e))
                     then alloc (raiseTo m e) - m else 0)
                    + - shortfall m e) es).
  { apply sumBy_ext. intros e _. pose proof (surplus_term m e). lra. }
  rewrite E2, sumBy_plus.
  assert (E3 : JS.sumBy (fun e => - shortfall m e) es
               == - JS.sumBy (shortfall m) es).
  { assert (E4 : JS.sumBy (fun e => - shortfall m e) es
                 == JS.sumBy (fun e => shortfall m e * - (1)) es)
      by (apply sumBy_ext; intros e _; lra).
    rewrite E4, sumBy_scale. lra. }
  rewrite E3. lra.
Qed.

Lemma raised_sum (m : Q) (es : list Entry) :
  JS.sumBy alloc (map (raiseTo m) es)
  == JS.sumBy alloc es + JS.sumBy (shortfall m) es.
Proof.
  rewrite sumBy_map, <- sumBy_plus. apply sumBy_ext.
  intros e _. apply raiseTo_alloc.
Qed.

Lemma donate_alloc (m pool d : Q) (e : Entry) :
  alloc (donate m pool d e)
  == alloc e
     + (if JS.ltb m (alloc e) then alloc e - m else 0) * - (d / pool).
Proof.
  unfold donate. destruct (JS.ltb m (alloc e)); cbn [setAlloc alloc].
  - unfold Qdiv. ring.
  - ring.
Qed.

Lemma donated_sum (m pool d : Q) (es : list Entry) :
  JS.sumBy alloc (map (donate m pool d) (map (raiseTo m) es))
  == JS.sumBy alloc (map (raiseTo m) es) - poolOf m es * (d / pool).
Proof.
  rewrite (sumBy_map alloc (donate m pool d)).
  rewrite (sumBy_ext _ _ _ (fun e _ => donate_alloc m pool d e)).
  rewrite sumBy_plus, sumBy_scale. unfold poolOf.
  rewrite (sumBy_filter (fun e => alloc e - m)). lra.
Qed.

Lemma floorPass_cases (opts : Opts) (es : list Entry) :
  exists d,
    d == JS.sumBy (shortfall (minEuro opts)) es
    /\ floorPass opts es
       = if JS.ltb 0 d then
           map (donate (minEuro opts)
                       (JS.orElse (poolOf (minEuro opts) es) 1) d)
               (map (raiseTo (minEuro opts)) es)
         else map (raiseTo (minEuro opts)) es.
Proof.
  destruct (floorPass_spec opts es) as (d & pool & Hd & -> & ->).
  exists d. split; [exact Hd | reflexivity].
Qed.

(** When the floors fit into what is allocated, the floor pass leaves every
    entry at or above the floor and keeps the total. *)
Lemma floor_respected (opts : Opts) (es : list Entry) :
  minEuro opts * JS.len es <= JS.sumBy alloc es ->
  (forall e, In e (floorPass opts es) -> minEuro opts <= alloc e)
  /\ JS.sumBy alloc (floorPass opts es) == JS.sumBy alloc es.
Proof.
  intro Hfit.
  destruct (floorPass_cases opts es) as (d & Hd & ->).
  pose proof (pool_deficit (minEuro opts) es) as Hpd.
  pose proof (poolOf_nonneg (minEuro opts) es) as Hp0.
  destruct (JS.ltb 0 d) eqn:E; [apply ltb_lt in E | apply ltb_ge in E].
  - destruct (orElse_cases (poolOf (minEuro opts) es) 1)
      as [[Hz _] | [Hnz ->]]; [lra |].
    set (pool := poolOf (minEuro opts) es) in *.
    assert (Hpool : 0 < pool) by lra.
    assert (Hr : d / pool <= 1).
    { apply Qle_shift_div_r; [exact Hpool | lra]. }
    assert (Hr0 : 0 <= d / pool).
    { apply Qle_shift_div_l; [exact Hpool | lra]. }
    split.
    + intros e' Hin.
      apply in_map_iff in Hin. destruct Hin as (e1 & <- & Hin).
      apply in_map_iff in Hin. destruct Hin as (e & <- & _).
      rewrite donate_alloc.
      destruct (raiseTo_alloc (minEuro opts) e) as [_ Hge].
      destruct (JS.ltb (minEuro opts) (alloc (raiseTo (minEuro opts) e)));
        nra.
    + rewrite donated_sum, raised_sum. fold pool.
      setoid_replace (pool * (d / pool)) with d by (field; lra). lra.
  - split.
    + intros e' Hin. apply in_map_iff in Hin. destruct Hin as (e & <- & _).
      apply raiseTo_alloc.
    + rewrite raised_sum.
      pose proof (sumBy_nonneg (shortfall (minEuro opts)) es
                    (fun e _ => shortfall_nonneg (minEuro opts) e)).
      lra.
Qed.

(** The floor pass never lowers the total. *)
Lemma floor_sum_ge (opts : Opts) (es : list Entry) :
  JS.sumBy alloc es <= JS.sumBy alloc (floorPass opts es).
Proof.
  destruct (floorPass_cases opts es) as (d & Hd & ->).
  pose proof (poolOf_nonneg (minEuro opts) es) as Hp0.
  pose proof (sumBy_nonneg (shortfall (minEuro opts)) es
                (fun e _ => shortfall_nonneg (minEuro opts) e)) as HD.
  destruct (JS.ltb 0 d) eqn:E; [apply ltb_lt in E | apply ltb_ge in E].
  - rewrite donated_sum, raised_sum.
    destruct (orElse_cases (poolOf (minEuro opts) es) 1)
      as [[Hz ->] | [Hnz ->]].
    + rewrite Hz. lra.
    + setoid_replace (poolOf (minEuro opts) es
                      * (d / poolOf (minEuro opts) es)) with d
        by (field; exact Hnz).
      lra.
  - rewrite raised_sum. lra.
Qed.

(** An entry at or below the floor leaves the floor pass at the floor. *)
Lemma floor_low (opts : Opts) (es : list Entry) (e' : Entry) :
  In e' (floorPass opts es) ->
  exists e, In e es /\ boosted e' = boosted e
            /\ (alloc e <= minEuro opts -> alloc e' == minEuro opts).
Proof.
  destruct (floorPass_cases opts es) as (d & Hd & ->).
  assert (Hraise : forall e, alloc e <= minEuro opts ->
                     alloc (raiseTo (minEuro opts) e) == minEuro opts).
  { intros e Hle. unfold raiseTo.
    destruct (JS.ltb (alloc e) (minEuro opts)) eqn:E;
      [reflexivity | apply ltb_ge in E; lra]. }
  destruct (JS.ltb 0 d); intro Hin.
  - apply in_map_iff in Hin. destruct Hin as (e1 & <- & Hin).
    apply in_map_iff in Hin. destruct Hin as (e & <- & He).
    exists e. split; [exact He |]. split.
    + rewrite (proj2 (donate_keeps _ _ _ _)). apply raiseTo_keeps.
    + intro Hle. specialize (Hraise e Hle). unfold donate.
      rewrite (proj2 (ltb_ge _ _)) by lra. exact Hraise.
  - apply in_map_iff in Hin. destruct Hin as (e & <- & He).
    exists e. split; [exact He |]. split; [apply raiseTo_keeps |].
    apply Hraise.
Qed.

End FloorPass.

(** ** The cap pass *)

Section CapPass.
Import Page Props.

Lemma clipTo_alloc (cap : Q) (e : Entry) :
  alloc (clipTo cap e) + overshoot cap e == alloc e
  /\ alloc (clipTo cap e) <= cap
  /\ (alloc e <= cap -> clipTo cap e = e)
  /\ (cap < alloc e -> alloc (clipTo cap e) = cap).
Proof.
  unfold clipTo, overshoot.
  destruct (JS.ltb cap (alloc e)) eqn:E;
    [apply ltb_lt in E | apply ltb_ge in E]; cbn [setAlloc alloc];
    repeat split; try lra; try reflexivity; intro; lra.
Qed.

Lemma overshoot_nonneg (cap : Q) (e : Entry) : 0 <= overshoot cap e.
Proof.
  unfold overshoot.
  destruct (JS.ltb cap (alloc e)) eqn:E; [apply ltb_lt in E |]; lra.
Qed.

Lemma clipped_sum (cap : Q) (es : list Entry) :
  JS.sumBy alloc (map (clipTo cap) es) + JS.sumBy (overshoot cap) es
  == JS.sumBy alloc es.
Proof.
  rewrite sumBy_map, <- sumBy_plus. apply sumBy_ext.
  intros e _. apply clipTo_alloc.
Qed.

Lemma capPass_cases (opts : Opts) (budget : Q) (es : list Entry) :
  let cap := budget * pageCapOf opts in
  exists x,
    x == JS.sumBy (overshoot cap) es
    /\ capPass opts budget es
       = if JS.ltb 0 x then
           map (receive cap
                  (JS.orElse (weightOf cap es) (JS.len (receiversOf cap es)))
                  (JS.len (receiversOf cap es)) x)
               (map (clipTo cap) es)
         else map (clipTo cap) es.
Proof.
  intro cap.
  destruct (capPass_spec opts budget es) as (x & wsum & n & Hx & -> & -> & ->).
  exists x. split; [exact Hx | reflexivity].
Qed.

Lemma receive_alloc (cap wsum n x : Q) (e : Entry) :
  alloc (receive cap wsum n x e)
  == alloc e
     + (if JS.ltb (alloc e) cap then
          (if JS.truthy wsum then boosted e / wsum else 1 / n) * x
        else 0).
Proof.
  unfold receive. destruct (JS.ltb (alloc e) cap); cbn [setAlloc alloc]; lra.
Qed.

Lemma receivers_boosted (cap : Q) (es : list Entry) (e : Entry) :
  (forall e0, In e0 es -> 0 <= boosted e0) ->
  In e (receiversOf cap es) -> 0 <= boosted e.
Proof.
  intros Hpos Hin. apply filter_In in Hin. destruct Hin as [Hin _].
  apply in_map_iff in Hin. destruct Hin as (e0 & <- & He0).
  rewrite (proj2 (clipTo_keeps cap e0)). apply Hpos. exact He0.
Qed.

(** The part of the excess a receiver gets: its boosted score over the
    receivers' total when that total is positive, nothing otherwise. *)
Lemma receiver_factor (cap : Q) (es : list Entry) (e : Entry) :
  (forall e0, In e0 es -> 0 <= boosted e0) ->
  In e (receiversOf cap es) ->
  let wsum := JS.orElse (weightOf cap es) (JS.len (receiversOf cap es)) in
  (if JS.truthy wsum then boosted e / wsum
   else 1 / JS.len (receiversOf cap es))
  == (if JS.truthy (weightOf cap es) then boosted e / weightOf cap es else 0).
Proof.
  intros Hpos Hin wsum. subst wsum.
  destruct (orElse_cases (weightOf cap es) (JS.len (receiversOf cap es)))
    as [[Hz ->] | [Hnz ->]].
  - rewrite (proj2 (truthy_false _) Hz).
    assert (Hn : 0 < JS.len (receiversOf cap es)).
    { apply len_pos. intro E. rewrite E in Hin. destruct Hin. }
    rewrite (proj2 (truthy_true _)) by lra.
    assert (Hb : boosted e == 0).
    { apply (sumBy_all_zero boosted (receiversOf cap es));
        [intros y Hy; apply (receivers_boosted cap es y Hpos Hy)
        | exact Hz | exact Hin]. }
    rewrite Hb. field. lra.
  - rewrite (proj2 (truthy_true _) Hnz). reflexivity.
Qed.

Lemma received_alloc (cap x : Q) (es : list Entry) (e : Entry) :
  (forall e0, In e0 es -> 0 <= boosted e0) ->
  In e (map (clipTo cap) es) ->
  alloc (receive cap
           (JS.orElse (weightOf cap es) (JS.len (receiversOf cap es)))
           (JS.len (receiversOf cap es)) x e)
  == alloc e
     + (if JS.ltb (alloc e) cap then
          if JS.truthy (weightOf cap es) then boosted e else 0
        else 0) * (x / weightOf cap es).
Proof.
  intros Hpos Hin. rewrite receive_alloc.
  destruct (JS.ltb (alloc e) cap) eqn:E; [| lra].
  assert (HinR : In e (receiversOf cap es)).
  { apply filter_In. split; assumption. }
  rewrite (receiver_factor cap es e Hpos HinR).
  destruct (JS.truthy (weightOf cap es)) eqn:Et.
  - unfold Qdiv. ring.
  - lra.
Qed.

Lemma weightOf_nonneg (cap : Q) (es : list Entry) :
  (forall e0, In e0 es -> 0 <= boosted e0) -> 0 <= weightOf cap es.
Proof.
  intro Hpos. apply sumBy_nonneg. intros e He.
  apply (receivers_boosted cap es e Hpos He).
Qed.

(** The total after the receiver loop: the excess comes back when the
    receivers have a positive total weight, and is lost otherwise. *)
Lemma received_sum (cap x : Q) (es : list Entry) :
  (forall e0, In e0 es -> 0 <= boosted e0) ->
  JS.sumBy alloc
    (map (receive cap
            (JS.orElse (weightOf cap es) (JS.len (receiversOf cap es)))
            (JS.len (receiversOf cap es)) x)
         (map (clipTo cap) es))
  == JS.sumBy alloc (map (clipTo cap) es)
     + (if JS.truthy (weightOf cap es) then x else 0).
Proof.
  intro Hpos.
  rewrite (sumBy_map alloc (receive _ _ _ _)).
  rewrite (sumBy_ext _ _ _ (fun e He => received_alloc cap x es e Hpos He)).
  rewrite sumBy_plus, sumBy_scale.
  assert (E : JS.sumBy
                (fun e => if JS.ltb (alloc e) cap then
                            if JS.truthy (weightOf cap es) then boosted e
                            else 0
                          else 0) (map (clipTo cap) es)
              == if JS.truthy (weightOf cap es) then weightOf cap es else 0).
  { destruct (JS.truthy (weightOf cap es)).
    - unfold weightOf, receiversOf. rewrite sumBy_filter. reflexivity.
    - rewrite (sumBy_ext _ (fun _ => 0)).
      + apply sumBy_zero.
      + intros e _. destruct (JS.ltb (alloc e) cap); reflexivity. }
  rewrite E.
  destruct (JS.truthy (weightOf cap es)) eqn:Et.
  - apply truthy_true in Et. field. exact Et.
  - lra.
Qed.

(** A receiver never loses. *)
Lemma received_ge (cap x : Q) (es : list Entry) (e : Entry) :
  (forall e0, In e0 es -> 0 <= boosted e0) ->
  0 <= x ->
  In e (map (clipTo cap) es) ->
  alloc e
  <= alloc (receive cap
              (JS.orElse (weightOf cap es) (JS.len (receiversOf cap es)))
              (JS.len (receiversOf cap es)) x e).
Proof.
  intros Hpos Hx Hin. rewrite (received_alloc cap x es e Hpos Hin).
  pose proof (weightOf_nonneg cap es Hpos) as Hw.
  destruct (JS.ltb (alloc e) cap) eqn:E; [| lra].
  destruct (JS.truthy (weightOf cap es)) eqn:Et; [| lra].
  apply truthy_true in Et.
  assert (Hb : 0 <= boosted e).
  { apply (receivers_boosted cap es e Hpos). apply filter_In.
    split; assumption. }
  assert (0 <= x / weightOf cap es).
  { apply Qle_shift_div_l; lra. }
  nra.
Qed.

Lemma floorPass_length (opts : Opts) (es : list Entry) :
  List.length (floorPass opts es) = List.length es.
Proof.
  rewrite <- (length_map name (floorPass opts es)), floorPass_names.
  apply length_map.
Qed.

Lemma capPass_length (opts : Opts) (budget : Q) (es : list Entry) :
  List.length (capPass opts budget es) = List.length es.
Proof.
  rewrite <- (length_map name (capPass opts budget es)), capPass_names.
  apply length_map.
Qed.

End CapPass.

(** ** From the passes to the result *)

Section PageAssembly.
Import Page Props.

Lemma allocateBudget_settled scores budget opts :
  allocateBudget scores budget opts
  = map (fun e =>
           (name e,
            alloc e
            * (budget
               / JS.orElse (JS.sumBy alloc (settled scores budget opts)) 1)))
        (settled scores budget opts).
Proof. reflexivity. Qed.

Lemma settled_length scores budget opts :
  List.length (settled scores budget opts) = List.length scores.
Proof.
  unfold settled. destruct (Qle_bool _ 0).
  - rewrite !length_map. reflexivity.
  - unfold proportional.
    rewrite capPass_length, floorPass_length, !length_map. reflexivity.
Qed.

Lemma boost_nonneg (opts : Opts) (p : string * Q) :
  0 <= ruralUplift opts -> 0 <= boosted (boost opts p).
Proof.
  intro Hu. unfold boost. cbn [boosted].
  pose proof (max_lower_l 0 (snd p)).
  destruct (inRuralSet opts (fst p)); [nra | lra].
Qed.

Lemma pageCapOf_range (opts : Opts) :
  0 <= maxShare opts -> 0 < pageCapOf opts <= 1.
Proof.
  intro H. unfold pageCapOf.
  pose proof (clamp01_range (JS.orElse (maxShare opts) 1)) as [H0 H1].
  split; [| exact H1].
  destruct (orElse_cases (maxShare opts) 1) as [[_ E] | [Hnz E]];
    rewrite E in *.
  - vm_compute. reflexivity.
  - destruct (min_cases 1 (maxShare opts)) as [[Hm Em] | [Hm Em]];
      rewrite Em in *;
      [ destruct (max_cases 0 1) as [[Hx Ex] | [Hx Ex]]
      | destruct (max_cases 0 (maxShare opts)) as [[Hx Ex] | [Hx Ex]] ];
      rewrite Ex in *; lra.
Qed.

Lemma proportional_sum (total budget : Q) (es : list Entry) :
  ~ JS.sumBy boosted es == 0 -> total = JS.sumBy boosted es ->
  JS.sumBy alloc (proportional total budget es) == budget.
Proof.
  intros Hnz ->. unfold proportional. rewrite sumBy_map.
  cbn [setAlloc alloc]. unfold Qdiv.
  rewrite (sumBy_scale (fun e => boosted e * / JS.sumBy boosted es) budget).
  rewrite sumBy_scale. field. exact Hnz.
Qed.

Lemma proportional_alloc (total budget : Q) (es : list Entry) (e : Entry) :
  In e (proportional total budget es) ->
  alloc e == boosted e / total * budget
  /\ exists e0, In e0 es /\ boosted e = boosted e0.
Proof.
  intro Hin. apply in_map_iff in Hin. destruct Hin as (e0 & <- & He0).
  split; [reflexivity | exists e0; split; [exact He0 | reflexivity]].
Qed.

(** The renormalization returns the whole budget whenever the settled
    amounts do not add up to zero. *)
Lemma renormalized_sum scores budget opts :
  ~ JS.sumBy alloc (settled scores budget opts) == 0 ->
  pageSum (allocateBudget scores budget opts) == budget.
Proof.
  intro Hnz. unfold pageSum. rewrite allocateBudget_settled, sumBy_map.
  cbn [snd]. rewrite sumBy_scale.
  destruct (orElse_cases (JS.sumBy alloc (settled scores budget opts)) 1)
    as [[Hz _] | [_ ->]]; [contradiction |].
  field. exact Hnz.
Qed.

End PageAssembly.

(** ** The settled total is positive *)

Section PageBounds.
Import Page Props.

Lemma sumBy_exists_pos {A : Type} (f : A -> Q) (l : list A) :
  0 < JS.sumBy f l -> exists x, In x l /\ 0 < f x.
Proof.
  induction l as [| y l IH]; intro H.
  - rewrite sumBy_nil in H. lra.
  - rewrite sumBy_cons in H.
    destruct (Qlt_le_dec 0 (f y)) as [Hy | Hy].
    + exists y. split; [left; reflexivity | exact Hy].
    + destruct IH as (x & Hx & Hfx); [lra |].
      exists x. split; [right; exact Hx | exact Hfx].
Qed.

Lemma floorPass_forward (opts : Opts) (es : list Entry) (e : Entry) :
  In e es ->
  exists e', In e' (floorPass opts es) /\ boosted e' = boosted e.
Proof.
  intro He. destruct (floorPass_cases opts es) as (d & _ & ->).
  destruct (JS.ltb 0 d).
  - eexists. split.
    + apply in_map. apply in_map. exact He.
    + rewrite (proj2 (donate_keeps _ _ _ _)). apply raiseTo_keeps.
  - eexists. split; [apply in_map; exact He | apply raiseTo_keeps].
Qed.

(** The value every region gets on the fallback path. *)
Lemma equal_split_value (scores : list (string * Q)) (budget : Q)
    (opts : Opts) (p : string * Q) :
  scores <> [] -> 0 < budget -> pageTotal scores opts <= 0 ->
  In p (allocateBudget scores budget opts) ->
  snd p == budget / JS.len scores.
Proof.
  intros Hne Hb Htot Hin.
  assert (Hn : 0 < JS.len scores) by (apply len_pos; exact Hne).
  unfold allocateBudget in Hin.
  unfold pageTotal in Htot. apply Qle_bool_iff in Htot.
  rewrite Htot in Hin. rewrite len_map in Hin.
  set (c0 := JS.max 0 (minEuro opts)
             + JS.max 0 (JS.max 0 ((budget
                 - JS.max 0 (minEuro opts) * JS.len scores)
                 / JS.len scores))) in Hin.
  assert (Hc0 : 0 < c0) by (apply fallback_amount_pos; assumption).
  assert (Hsum : JS.sumBy alloc
                   (map (fun e => setAlloc e c0) (map (boost opts) scores))
                 == c0 * JS.len scores).
  { rewrite sumBy_map. cbn [setAlloc alloc].
    rewrite sumBy_const, len_map. reflexivity. }
  assert (Hsum0 : 0 < c0 * JS.len scores).
  { apply Qmult_lt_0_compat; assumption. }
  destruct (orElse_cases
              (JS.sumBy alloc
                 (map (fun e => setAlloc e c0) (map (boost opts) scores))) 1)
    as [[Hz _] | [_ Hor]]; [lra |].
  rewrite Hor in Hin.
  apply in_map_iff in Hin. destruct Hin as (e' & <- & He').
  apply in_map_iff in He'. destruct He' as (e & <- & _).
  cbn [snd setAlloc alloc]. rewrite Hsum.
  field. split; lra.
Qed.

(** The settled amounts add up to a positive number. *)
Lemma settled_sum_pos (scores : list (string * Q)) (budget : Q)
    (opts : Opts) :
  scores <> [] -> 0 < budget ->
  0 <= minEuro opts -> 0 <= maxShare opts -> 0 <= ruralUplift opts ->
  0 < JS.sumBy alloc (settled scores budget opts).
Proof.
  intros Hne Hb Hm Hs Hu.
  assert (Hn : 0 < JS.len scores) by (apply len_pos; exact Hne).
  unfold settled.
  set (es := map (boost opts) scores).
  assert (Hbo : forall e, In e es -> 0 <= boosted e).
  { intros e He. apply in_map_iff in He. destruct He as (q & <- & _).
    apply boost_nonneg. exact Hu. }
  destruct (Qle_bool (JS.sumBy boosted es) 0) eqn:ET.
  - rewrite sumBy_map. cbn [setAlloc alloc]. rewrite sumBy_const.
    unfold es at 3. rewrite len_map.
    apply Qmult_lt_0_compat; [| exact Hn].
    unfold es. rewrite len_map. apply fallback_amount_pos; assumption.
  - apply leb_gt in ET.
    set (T := JS.sumBy boosted es) in *.
    set (es0 := proportional T budget es).
    assert (H0 : JS.sumBy alloc es0 == budget).
    { apply proportional_sum; [unfold T in ET; lra | reflexivity]. }
    pose proof (floor_sum_ge opts es0) as H2.
    set (es2 := floorPass opts es0) in *.
    assert (Hb2 : forall e, In e es2 ->
                    0 <= boosted e /\ (boosted e == 0 -> 0 <= alloc e)).
    { intros e He. destruct (floor_low opts es0 e He) as (e0 & He0 & Eb & Hlow).
      destruct (proportional_alloc T budget es e0 He0)
        as (Ha & e1 & He1 & Eb1).
      split; [rewrite Eb, Eb1; apply Hbo; exact He1 |].
      intro Hz. rewrite Eb in Hz.
      assert (Ha0 : alloc e0 == 0).
      { rewrite Ha, Hz. field. lra. }
      rewrite Hlow; lra. }
    pose proof (pageCapOf_range opts Hs) as [Hc0 Hc1].
    destruct (capPass_cases opts budget es2) as (x & Hx & ->).
    set (cap := budget * pageCapOf opts) in *.
    assert (Hcap : 0 < cap) by (apply Qmult_lt_0_compat; assumption).
    pose proof (clipped_sum cap es2) as Hclip.
    pose proof (sumBy_nonneg (overshoot cap) es2
                  (fun e _ => overshoot_nonneg cap e)) as HX.
    destruct (JS.ltb 0 x) eqn:Ex; [apply ltb_lt in Ex | apply ltb_ge in Ex];
      [| lra].
    rewrite (received_sum cap x es2 (fun e He => proj1 (Hb2 e He))).
    destruct (JS.truthy (weightOf cap es2)) eqn:Et; [lra |].
    apply truthy_false in Et.
    assert (Hrecv : forall e, In e (map (clipTo cap) es2) ->
                      JS.ltb (alloc e) cap = true -> boosted e == 0).
    { intros e He Hlt.
      apply (sumBy_all_zero boosted (receiversOf cap es2)).
      - intros y Hy.
        apply (receivers_boosted cap es2 y (fun e0 H => proj1 (Hb2 e0 H)) Hy).
      - exact Et.
      - apply filter_In. split; assumption. }
    assert (Hpos3 : forall e, In e (map (clipTo cap) es2) -> 0 <= alloc e).
    { intros e He.
      destruct (JS.ltb (alloc e) cap) eqn:El.
      - pose proof (Hrecv e He El) as Hz.
        apply in_map_iff in He. destruct He as (e2 & <- & He2).
        rewrite (proj2 (clipTo_keeps cap e2)) in Hz.
        pose proof (proj2 (Hb2 e2 He2) Hz) as Ha2.
        destruct (clipTo_alloc cap e2) as (_ & _ & Hsame & Hclipd).
        destruct (Qlt_le_dec cap (alloc e2)) as [Hgt | Hle].
        + rewrite (Hclipd Hgt). lra.
        + rewrite (Hsame Hle). exact Ha2.
      - apply ltb_ge in El. lra. }
    destruct (sumBy_exists_pos boosted es ET) as (e & He & Hbe).
    assert (He0 : In (setAlloc e (boosted e / T * budget)) es0).
    { unfold es0, proportional.
      apply (in_map (fun e => setAlloc e (boosted e / T * budget))).
      exact He. }
    destruct (floorPass_forward opts es0 _ He0) as (e2 & He2 & Eb2).
    cbn [setAlloc boosted] in Eb2.
    assert (He3 : In (clipTo cap e2) (map (clipTo cap) es2))
      by (apply in_map; exact He2).
    assert (Hge : cap <= alloc (clipTo cap e2)).
    { destruct (JS.ltb (alloc (clipTo cap e2)) cap) eqn:El.
      - pose proof (Hrecv _ He3 El) as Hz.
        rewrite (proj2 (clipTo_keeps cap e2)), Eb2 in Hz. lra.
      - apply ltb_ge in El. exact El. }
    pose proof (sumBy_member alloc _ _ Hpos3 He3). lra.
Qed.

End PageBounds.

(** ** Floor respect of [allocateBudget] *)

Section PageFloor.
Import Page Props.

(** With all entries above the cap, the cap pass leaves every entry at the
    cap. *)
Lemma cap_all_clipped (opts : Opts) (budget : Q) (es : list Entry) :
  (forall e, In e es -> budget * pageCapOf opts < alloc e) ->
  forall e, In e (capPass opts budget es) ->
            alloc e = budget * pageCapOf opts.
Proof.
  intros Hall e He.
  destruct (capPass_cases opts budget es) as (x & _ & E). rewrite E in He.
  set (cap := budget * pageCapOf opts) in *.
  assert (Hclip : forall e0, In e0 es -> alloc (clipTo cap e0) = cap).
  { intros e0 He0. apply clipTo_alloc. apply Hall. exact He0. }
  destruct (JS.ltb 0 x).
  - apply in_map_iff in He. destruct He as (e1 & <- & He1).
    apply in_map_iff in He1. destruct He1 as (e0 & <- & He0).
    unfold receive. rewrite (Hclip e0 He0).
    rewrite (proj2 (ltb_ge cap cap)) by lra. apply Hclip. exact He0.
  - apply in_map_iff in He. destruct He as (e0 & <- & He0).
    apply Hclip. exact He0.
Qed.

(** With the cap at or above the floor, the cap pass keeps every entry at
    or above the floor and does not raise the total. *)
Lemma cap_keeps_floor (opts : Opts) (budget m : Q) (es : list Entry) :
  (forall e, In e es -> 0 <= boosted e) ->
  (forall e, In e es -> m <= alloc e) ->
  m <= budget * pageCapOf opts ->
  (forall e, In e (capPass opts budget es) -> m <= alloc e)
  /\ JS.sumBy alloc (capPass opts budget es) <= JS.sumBy alloc es.
Proof.
  intros Hbo Hfl Hcap.
  destruct (capPass_cases opts budget es) as (x & Hx & ->).
  set (cap := budget * pageCapOf opts) in *.
  pose proof (clipped_sum cap es) as Hclip.
  pose proof (sumBy_nonneg (overshoot cap) es
                (fun e _ => overshoot_nonneg cap e)) as HX.
  assert (Hfl3 : forall e, In e (map (clipTo cap) es) -> m <= alloc e).
  { intros e He. apply in_map_iff in He. destruct He as (e0 & <- & He0).
    destruct (clipTo_alloc cap e0) as (_ & _ & Hsame & Hclipd).
    destruct (Qlt_le_dec cap (alloc e0)) as [Hgt | Hle].
    - rewrite (Hclipd Hgt). exact Hcap.
    - rewrite (Hsame Hle). apply Hfl. exact He0. }
  destruct (JS.ltb 0 x) eqn:Ex; [apply ltb_lt in Ex | apply ltb_ge in Ex].
  - split.
    + intros e He. apply in_map_iff in He. destruct He as (e3 & <- & He3).
      pose proof (received_ge cap x es e3 Hbo ltac:(lra) He3).
      pose proof (Hfl3 e3 He3). lra.
    + rewrite (received_sum cap x es Hbo).
      destruct (JS.truthy (weightOf cap es)); lra.
  - split; [exact Hfl3 | lra].
Qed.

(** Floor respect of [allocateBudget]. *)
Lemma allocateBudget_floor (scores : list (string * Q)) (budget : Q)
    (opts : Opts) (p : string * Q) :
  0 <= minEuro opts -> 0 <= maxShare opts -> 0 <= ruralUplift opts ->
  minEuro opts * JS.len scores <= budget ->
  In p (allocateBudget scores budget opts) ->
  minEuro opts <= snd p.
Proof.
  intros Hm Hs Hu Hfit Hin.
  assert (Hne : scores <> []).
  { intro E. subst scores. destruct Hin. }
  assert (Hn : 0 < JS.len scores) by (apply len_pos; exact Hne).
  assert (Hb0 : 0 <= budget) by nra.
  destruct (Qlt_le_dec 0 budget) as [Hb | Hb]; cycle 1.
  { (* budget = 0: the floor is 0 and so is every amount *)
    assert (Eb : budget == 0) by lra.
    assert (Em : minEuro opts <= 0) by nra.
    rewrite allocateBudget_settled in Hin.
    apply in_map_iff in Hin. destruct Hin as (e & <- & _).
    cbn [snd]. set (S := JS.orElse _ 1). clearbody S.
    rewrite Eb. unfold Qdiv. rewrite Qmult_0_l, Qmult_0_r.
    exact Em. }
  destruct (Qlt_le_dec 0 (pageTotal scores opts)) as [HT | HT]; cycle 1.
  { rewrite (equal_split_value scores budget opts p Hne Hb HT Hin).
    apply Qle_shift_div_l; assumption. }
  rewrite allocateBudget_settled in Hin.
  apply in_map_iff in Hin. destruct Hin as (e & <- & He). cbn [snd].
  revert e He.
  unfold settled. unfold pageTotal in HT.
  set (es := map (boost opts) scores) in *.
  rewrite (proj2 (leb_gt _ _) HT).
  set (T := JS.sumBy boosted es) in *.
  set (es0 := proportional T budget es).
  assert (Hbo : forall e, In e es -> 0 <= boosted e).
  { intros e He. apply in_map_iff in He. destruct He as (q & <- & _).
    apply boost_nonneg. exact Hu. }
  assert (H0 : JS.sumBy alloc es0 == budget).
  { apply proportional_sum; [unfold T in HT; lra | reflexivity]. }
  assert (Hlen0 : JS.len es0 = JS.len scores).
  { unfold es0, proportional, es. rewrite !len_map. reflexivity. }
  destruct (floor_respected opts es0) as [Hfl2 Hsum2].
  { rewrite Hlen0, H0. exact Hfit. }
  set (es2 := floorPass opts es0) in *.
  assert (Hbo2 : forall e, In e es2 -> 0 <= boosted e).
  { intros e He. destruct (floor_low opts es0 e He) as (e0 & He0 & Eb & _).
    destruct (proportional_alloc T budget es e0 He0) as (_ & e1 & He1 & Eb1).
    rewrite Eb, Eb1. apply Hbo. exact He1. }
  assert (Hlen2 : JS.len (capPass opts budget es2) = JS.len scores).
  { rewrite <- Hlen0. unfold JS.len, es2.
    rewrite capPass_length, floorPass_length. reflexivity. }
  pose proof (pageCapOf_range opts Hs) as [Hc0 Hc1].
  assert (Hcap : 0 < budget * pageCapOf opts)
    by (apply Qmult_lt_0_compat; assumption).
  destruct (Qlt_le_dec (budget * pageCapOf opts) (minEuro opts))
    as [Hlow | Hhigh].
  - (* the cap lies below the floor: every entry is clipped *)
    assert (Hall : forall e, In e (capPass opts budget es2) ->
                     alloc e = budget * pageCapOf opts).
    { apply cap_all_clipped. intros e He. specialize (Hfl2 e He). lra. }
    assert (HS : JS.sumBy alloc (capPass opts budget es2)
                 == budget * pageCapOf opts * JS.len scores).
    { rewrite (sumBy_ext alloc (fun _ => budget * pageCapOf opts)).
      - rewrite sumBy_const, Hlen2. reflexivity.
      - intros e He. rewrite (Hall e He). reflexivity. }
    assert (HS0 : 0 < budget * pageCapOf opts * JS.len scores)
      by (apply Qmult_lt_0_compat; assumption).
    intros e He.
    destruct (orElse_cases (JS.sumBy alloc (capPass opts budget es2)) 1)
      as [[Hz _] | [_ ->]]; [lra |].
    rewrite (Hall e He), HS.
    setoid_replace (budget * pageCapOf opts
                    * (budget / (budget * pageCapOf opts * JS.len scores)))
      with (budget / JS.len scores) by (field; split; lra).
    apply Qle_shift_div_l; assumption.
  - (* the cap lies at or above the floor *)
    destruct (cap_keeps_floor opts budget (minEuro opts) es2 Hbo2 Hfl2 Hhigh)
      as [Hfl4 Hsum4].
    set (es4 := capPass opts budget es2) in *.
    assert (Hpos4 : forall e, In e es4 -> 0 <= alloc e).
    { intros e He. specialize (Hfl4 e He). lra. }
    pose proof (sumBy_nonneg alloc es4 Hpos4) as HS0.
    intros e He.
    destruct (orElse_cases (JS.sumBy alloc es4) 1) as [[Hz ->] | [Hnz ->]].
    + pose proof (sumBy_all_zero alloc es4 Hpos4 Hz e He) as Ez.
      specialize (Hfl4 e He). rewrite Ez. lra.
    + assert (Hk : 1 <= budget / JS.sumBy alloc es4).
      { apply Qle_shift_div_l; lra. }
      specialize (Hfl4 e He). specialize (Hpos4 e He). nra.
Qed.

End PageFloor.

(** ** The floor scenario on [allocateBudget] *)

(** Symbolic evaluation: the atoms of a comparison are replaced by their
    known values and the closed comparison is computed; a test is decided
    once its operands hold no undecided test. *)
Ltac subst_atoms :=
  repeat match goal with
         | H : ?x == _ |- context [?x] => is_var x; rewrite H
         end.

Ltac closed_fact :=
  subst_atoms; vm_compute;
  first [ reflexivity | discriminate
        | (let E := fresh in intro E; discriminate E) ].

Ltac no_test a :=
  lazymatch a with
  | context [JS.ltb] => fail
  | context [Qle_bool] => fail
  | context [JS.truthy] => fail
  | _ => idtac
  end.

Ltac decide_test :=
  match goal with
  | |- context [JS.ltb ?a ?b] => no_test a; no_test b;
      first [ rewrite (proj2 (ltb_lt a b)) by closed_fact
            | rewrite (proj2 (ltb_ge a b)) by closed_fact ]
  | |- context [Qle_bool ?a ?b] => no_test a; no_test b;
      first [ rewrite (proj2 (Qle_bool_iff a b)) by closed_fact
            | rewrite (proj2 (leb_gt a b)) by closed_fact ]
  | |- context [JS.truthy ?a] => no_test a;
      first [ rewrite (proj2 (truthy_true a)) by closed_fact
            | rewrite (proj2 (truthy_false a)) by closed_fact ]
  end.

Ltac page_simpl :=
  unfold Page.setAlloc, JS.orElse, JS.sumBy, JS.max, JS.min;
  cbn [Page.floorLoop Page.capLoop Page.alloc Page.name Page.boosted
       Page.minEuro Page.maxShare Page.ruralUplift
       map filter fold_left fst snd].

Lemma boost_value (opts : Page.Opts) (n : string) (s : Q) :
  Page.ruralUplift opts == 0 -> 0 <= s ->
  Page.boosted (Page.boost opts (n, s)) == s.
Proof.
  intros Hu Hs. unfold Page.boost. cbn [fst snd Page.boosted].
  destruct (max_cases 0 s) as [[H ->] | [H ->]];
    destruct (Page.inRuralSet opts n); try rewrite Hu; lra.
Qed.

Lemma floor_scenario_allocateBudget (n1 n2 n3 : string) (c : Q)
    (rs : option (list string)) :
  0 < c ->
  Forall2 (fun p q => fst p = fst q /\ snd p == snd q)
    (Page.allocateBudget
       [(n1, c * 0); (n2, c * (1 # 3)); (n3, c * (2 # 3))]
       300000 (Scenario.pageFloored rs))
    [(n1, 50000); (n2, 87500); (n3, 162500)].
Proof.
  intro Hc.
  unfold Page.allocateBudget. cbn [map].
  set (opts := Scenario.pageFloored rs).
  assert (Hu : Page.ruralUplift opts == 0) by reflexivity.
  pose proof (boost_value opts n1 (c * 0) Hu ltac:(lra)) as Hb1.
  pose proof (boost_value opts n2 (c * (1 # 3)) Hu ltac:(lra)) as Hb2.
  pose proof (boost_value opts n3 (c * (2 # 3)) Hu ltac:(lra)) as Hb3.
  assert (Hn1 : Page.name (Page.boost opts (n1, c * 0)) = n1) by reflexivity.
  assert (Hn2 : Page.name (Page.boost opts (n2, c * (1 # 3))) = n2)
    by reflexivity.
  assert (Hn3 : Page.name (Page.boost opts (n3, c * (2 # 3))) = n3)
    by reflexivity.
  destruct (Page.boost opts (n1, c * 0)) as [k1 b1 z1].
  destruct (Page.boost opts (n2, c * (1 # 3))) as [k2 b2 z2].
  destruct (Page.boost opts (n3, c * (2 # 3))) as [k3 b3 z3].
  cbn [Page.name Page.boosted] in *. subst k1 k2 k3.
  set (T := JS.sumBy Page.boosted _).
  assert (HT : T == c).
  { unfold T. rewrite !sumBy_cons, sumBy_nil. cbn [Page.boosted]. lra. }
  assert (HT0 : Qle_bool T 0 = false) by (apply leb_gt; lra).
  rewrite HT0. clear HT0.
  cbn [map Page.setAlloc Page.name Page.boosted].
  set (a1 := b1 / T * 300000). set (a2 := b2 / T * 300000).
  set (a3 := b3 / T * 300000).
  assert (Ha1 : a1 == 0) by (unfold a1; rewrite Hb1, HT; field; lra).
  assert (Ha2 : a2 == 100000) by (unfold a2; rewrite Hb2, HT; field; lra).
  assert (Ha3 : a3 == 200000) by (unfold a3; rewrite Hb3, HT; field; lra).
  clearbody a1 a2 a3. clear Hb1 Hb2 Hb3 HT Hc Hu. clearbody T.
  unfold Page.floorPass, Page.capPass. subst opts.
  unfold Scenario.pageFloored.
  repeat (page_simpl; decide_test).
  page_simpl.
  repeat constructor; cbn [fst snd]; closed_fact.
Qed.

(** ** Evaluations of the engines on the scenarios *)

Section Evaluations.
Import Mcda Props Scenario.
Open Scope string_scope.


(** C2, counterexample.  On the indicator example with the floor,
    [scoreAndAllocate] leaves the second region at 100000 and the third at
    200000: the deficit of the floor is not recovered. *)
Lemma floor_scenario_counterexample :
  eurs (scoreAndAllocate three growthOnly floored)
  = [("r3", 200000); ("r2", 100000); ("r1", 50000)]
  /\ ~ (forall a, In a (scoreAndAllocate three growthOnly floored) ->
                  a_la a = "r2" -> eur a == 87500).
Proof.
  split; [vm_compute; reflexivity |].
  intro H.
  specialize (H (nth 1 (scoreAndAllocate three growthOnly floored)
                     (mkAlloc "" 0 0 0))).
  vm_compute in H.
  discriminate (H (or_intror (or_introl eq_refl)) eq_refl).
Qed.

(** C3, counterexample.  Scores 1, 3, 6, budget 100 and a feasible cap of
    40%: [allocateBudget] clips the third region to 40 and hands the excess
    of 20 to the other two by score, which takes the second one to 45. *)
Lemma cap_counterexample :
  1 <= Page.maxShare capped * JS.len [("a", 1); ("b", 3); ("c", 6)]
  /\ amounts (Page.allocateBudget [("a", 1); ("b", 3); ("c", 6)] 100 capped)
     = [("a", 15); ("b", 45); ("c", 40)]
  /\ ~ (forall p,
          In p (Page.allocateBudget [("a", 1); ("b", 3); ("c", 6)] 100 capped)
          -> snd p <= Page.maxShare capped * 100 + 1).
Proof.
  split; [vm_compute; discriminate |].
  split; [vm_compute; reflexivity |].
  intro H.
  specialize (H (nth 1 (Page.allocateBudget
                          [("a", 1); ("b", 3); ("c", 6)] 100 capped)
                     ("", 0))).
  vm_compute in H.
  exact (H (or_intror (or_introl eq_refl)) eq_refl).
Qed.

(** C4, counterexample.  Two equal regions, a floor of 50 and a cap of 30%
    of a budget of 100: [scoreAndAllocate] applies the cap after the floor
    and returns 30 for each region.  And with a feasible cap: a floor of
    100.40 on the three regions with a budget of 1000 leaves the first
    region, after rounding, at 100. *)
Lemma floor_counterexample :
  JS.nullish (floorEUR floorOverCap) 0 * JS.len twins
  <= budgetEUR floorOverCap
  /\ eurs (scoreAndAllocate twins growthOnly floorOverCap)
     = [("a", 30); ("b", 30)]
  /\ ~ (forall a, In a (scoreAndAllocate twins growthOnly floorOverCap) ->
                  JS.nullish (floorEUR floorOverCap) 0 <= eur a)
  /\ JS.nullish (floorEUR centsFloor) 0 * JS.len three
     <= budgetEUR centsFloor
  /\ eurs (scoreAndAllocate three growthOnly centsFloor)
     = [("r3", 667); ("r2", 333); ("r1", 100)]
  /\ ~ (forall a, In a (scoreAndAllocate three growthOnly centsFloor) ->
                  JS.nullish (floorEUR centsFloor) 0 <= eur a).
Proof.
  split; [vm_compute; discriminate |].
  split; [vm_compute; reflexivity |].
  split.
  { intro H.
    specialize (H (hd (mkAlloc "" 0 0 0)
                      (scoreAndAllocate twins growthOnly floorOverCap))).
    vm_compute in H.
    exact (H (or_introl eq_refl) eq_refl). }
  split; [vm_compute; discriminate |].
  split; [vm_compute; reflexivity |].
  intro H.
  specialize (H (nth 2 (scoreAndAllocate three growthOnly centsFloor)
                     (mkAlloc "" 0 0 0))).
  vm_compute in H.
  exact (H (or_intror (or_intror (or_introl eq_refl))) eq_refl).
Qed.

(** C6, counterexample.  With a budget of -300000 the call returns, and
    the array it returns holds negative amounts. *)
Lemma invalid_budget_counterexample :
  budgetEUR negative <= 0
  /\ (exists res, callScoreAndAllocate three growthOnly negative
                  = Returned res
                  /\ eurs res
                     = [("r1", 0); ("r2", -100000); ("r3", -200000)])
  /\ ~ rejected (callScoreAndAllocate three growthOnly negative).
Proof.
  split; [vm_compute; discriminate |].
  split.
  - eexists. split; [reflexivity | vm_compute; reflexivity].
  - intros [msg E]. discriminate E.
Qed.

(** C7, counterexample.  Two regions without score, budget 100, floor 10:
    each region ends with 50, not with [max(10, (100 - 10 * 2) / 2) = 40]. *)
Lemma zero_score_counterexample :
  pageTotal [("a", 0); ("b", 0)] floorTen <= 0
  /\ amounts (Page.allocateBudget [("a", 0); ("b", 0)] 100 floorTen)
     = [("a", 50); ("b", 50)]
  /\ ~ (forall p,
          In p (Page.allocateBudget [("a", 0); ("b", 0)] 100 floorTen) ->
          snd p == JS.max (Page.minEuro floorTen)
                          ((100 - Page.minEuro floorTen * 2) / 2)).
Proof.
  split; [vm_compute; discriminate |].
  split; [vm_compute; reflexivity |].
  intro H.
  specialize (H (hd ("", 0)
                    (Page.allocateBudget [("a", 0); ("b", 0)] 100 floorTen))).
  vm_compute in H.
  discriminate (H (or_introl eq_refl)).
Qed.

(** C8, the code at the failing input.  An uplift of 1 on a fully rural
    region doubles its score of one half in [scoreAndAllocate]; clamped
    into [0, 0.25] the uplift would give five eighths.  [allocateBudget]
    doubles the score of a rural region as well: of two regions with score
    1 the rural one gets two thirds of the budget. *)
Lemma uplift_unclamped :
  map (fun a => Qred (i_score a)) (items rural growthOnly doubling) = [1]
  /\ ~ (forall a, In a (items rural growthOnly doubling) ->
                  i_score a == (1 # 2) * (1 + JS.min (1 # 4) 1 * 1))
  /\ amounts (Page.allocateBudget [("a", 1); ("b", 1)] 100 ruralA)
     = [("a", 200 # 3); ("b", 100 # 3)].
Proof.
  split; [vm_compute; reflexivity |].
  split; [| vm_compute; reflexivity].
  intro H.
  specialize (H (hd (mkItem "" 0) (items rural growthOnly doubling))).
  vm_compute in H.
  discriminate (H (or_introl eq_refl)).
Qed.

(** C9, counterexample.  Raising the growth rate of region [a] from 0 to 2
    (weights 1 and 1 on the two benefit indicators, cap one half, budget
    100) takes its amount from 10 to 0: the amount of a region without
    score is its part of the remainder, and the remainder vanishes. *)
Lemma monotonicity_counterexample :
  after = raise Growth 2 (row "a" 0 0) :: tl before
  /\ eurs (scoreAndAllocate before twoWeights halfCap)
     = [("b", 50); ("c", 40); ("a", 10)]
  /\ eurs (scoreAndAllocate after twoWeights halfCap)
     = [("b", 50); ("c", 50); ("a", 0)]
  /\ ~ (forall x y,
          In x (scoreAndAllocate before twoWeights halfCap) -> a_la x = "a" ->
          In y (scoreAndAllocate after twoWeights halfCap) -> a_la y = "a" ->
          eur x <= eur y).
Proof.
  split; [vm_compute; reflexivity |].
  split; [vm_compute; reflexivity |].
  split; [vm_compute; reflexivity |].
  intro H.
  specialize (H (nth 2 (scoreAndAllocate before twoWeights halfCap)
                     (mkAlloc "" 0 0 0))
                (nth 2 (scoreAndAllocate after twoWeights halfCap)
                     (mkAlloc "" 0 0 0))).
  vm_compute in H.
  exact (H (or_intror (or_intror (or_introl eq_refl))) eq_refl
           (or_intror (or_intror (or_introl eq_refl))) eq_refl eq_refl).
Qed.


End Evaluations.

(** * The claims *)

(** ** C1: budget conservation *)



(** ** C2: the floor scenario *)

(** C2, as the code has it.  For three regions with scores proportional to
    0, 1/3 and 2/3, budget 300000, floor 50000, uplift 0 and a cap of 100%,
    [allocateBudget] returns 50000, 87500 and 162500: the region without
    score is raised to the floor and the deficit of 50000 is taken from the
    other two in proportion to their surplus over the floor.
    [scoreAndAllocate] on the indicator example only raises the first
    region to the floor and returns 50000, 100000 and 200000. *)
Theorem floor_redistribution_scenario (n1 n2 n3 : string) (c : Q)
    (rs : option (list string)) :
  0 < c ->
  Forall2 (fun p q => fst p = fst q /\ snd p == snd q)
    (Page.allocateBudget
       [(n1, c * 0); (n2, c * (1 # 3)); (n3, c * (2 # 3))]
       300000 (Scenario.pageFloored rs))
    [(n1, 50000); (n2, 87500); (n3, 162500)]
  /\ Scenario.eurs (Mcda.scoreAndAllocate Scenario.three Scenario.growthOnly
                                          Scenario.floored)
     = [("r3"%string, 200000); ("r2"%string, 100000); ("r1"%string, 50000)].
Proof.
  intro Hc. split.
  - apply floor_scenario_allocateBudget. exact Hc.
  - vm_compute. reflexivity.
Qed.

Lemma floor_redistribution_scenario_witness :
  0 < 3 # 2
  /\ Forall2 (fun p q => fst p = fst q /\ snd p == snd q)
       (Page.allocateBudget
          [("r1"%string, (3 # 2) * 0); ("r2"%string, (3 # 2) * (1 # 3));
           ("r3"%string, (3 # 2) * (2 # 3))]
          300000 (Scenario.pageFloored None))
       [("r1"%string, 50000); ("r2"%string, 87500); ("r3"%string, 162500)].
Proof.
  assert (H : 0 < 3 # 2) by reflexivity.
  split; [exact H |].
  exact (proj1 (floor_redistribution_scenario
                  "r1"%string "r2"%string "r3"%string (3 # 2) None H)).
Defined.

(** ** C3: cap respect *)

(** C3, as the code has it.  Cap respect holds for [scoreAndAllocate]:
    with distinct region keys, a budget that is not negative, weights that
    are not negative and a feasible cap (the cap share, clamped into
    [0, 1] and 1 when absent, times the number of regions is at least 1),
    every amount is at most the cap share times the budget before rounding,
    and at most half a euro more as returned.  [allocateBudget] clips
    once and hands the excess to the regions under the cap by score: with
    scores 1, 3 and 6, a budget of 100 and a cap share of 40% it returns
    15, 45 and 40. *)
Theorem cap_respected (rows : list Mcda.MCDAInput) (w : Mcda.Weights)
    (opt : Mcda.Options) (a : Mcda.Alloc) :
  NoDup (map Mcda.la rows) ->
  0 <= Mcda.budgetEUR opt ->
  Props.nonnegWeights w ->
  1 <= Props.capOf opt * JS.len rows ->
  In a (Mcda.scoreAndAllocate rows w opt) ->
  (exists p, In p (Props.exact rows w opt) /\ a = Mcda.rounded p
             /\ Mcda.eur p <= Props.capOf opt * Mcda.budgetEUR opt)
  /\ Mcda.eur a <= Props.capOf opt * Mcda.budgetEUR opt + (1 # 2)
  /\ Scenario.amounts
       (Page.allocateBudget
          [("a"%string, 1); ("b"%string, 3); ("c"%string, 6)] 100
          Scenario.capped)
     = [("a"%string, 15); ("b"%string, 45); ("c"%string, 40)].
Proof.
  intros Hnd HB Hw Hfeas Hin.
  apply result_in in Hin. destruct Hin as (p & Hp & ->).
  assert (Hcap : Mcda.eur p <= Props.capOf opt * Mcda.budgetEUR opt).
  { apply (exact_le_cap rows w opt p); assumption. }
  split.
  - exists p. split; [exact Hp | split; [reflexivity | exact Hcap]].
  - split; [| vm_compute; reflexivity].
    cbn [Mcda.rounded Mcda.eur].
    pose proof (round_near (Mcda.eur p)). lra.
Qed.

Lemma cap_respected_witness :
  NoDup (map Mcda.la Scenario.before)
  /\ 1 <= Props.capOf Scenario.halfCap * JS.len Scenario.before
  /\ Mcda.eur (hd (Mcda.mkAlloc EmptyString 0 0 0)
                  (Mcda.scoreAndAllocate Scenario.before Scenario.twoWeights
                                         Scenario.halfCap))
     <= Props.capOf Scenario.halfCap * Mcda.budgetEUR Scenario.halfCap
        + (1 # 2).
Proof.
  assert (H1 : NoDup (map Mcda.la Scenario.before)).
  { repeat constructor; cbn; intuition discriminate. }
  assert (H2 : 0 <= Mcda.budgetEUR Scenario.halfCap)
    by (vm_compute; discriminate).
  assert (H3 : Props.nonnegWeights Scenario.twoWeights).
  { repeat split; vm_compute; discriminate. }
  assert (H4 : 1 <= Props.capOf Scenario.halfCap * JS.len Scenario.before)
    by (vm_compute; discriminate).
  assert (H5 : In (hd (Mcda.mkAlloc EmptyString 0 0 0)
                      (Mcda.scoreAndAllocate Scenario.before
                         Scenario.twoWeights Scenario.halfCap))
                  (Mcda.scoreAndAllocate Scenario.before
                     Scenario.twoWeights Scenario.halfCap))
    by (vm_compute; left; reflexivity).
  split; [exact H1 | split; [exact H4 |]].
  exact (proj1 (proj2 (cap_respected _ _ _ _ H1 H2 H3 H4 H5))).
Defined.

(** ** C4: floor respect and sign *)

(** C4, as the code has it.  For [allocateBudget] with a floor, a cap share
    and an uplift that are not negative: whenever the floor times the number
    of regions does not exceed the budget, every returned amount is at
    least zero and at least the floor.  [scoreAndAllocate] applies the cap
    after the floor and rounds: when its cap/floor logic runs, every
    returned amount is at least [Math.round] of the smaller of the floor
    and the cap share times the budget. *)
Theorem floor_and_nonnegativity (scores : list (string * Q)) (budget : Q)
    (opts : Page.Opts) (p : string * Q) (rows : list Mcda.MCDAInput)
    (w : Mcda.Weights) (opt : Mcda.Options) (a : Mcda.Alloc) :
  0 <= Page.minEuro opts ->
  0 <= Page.maxShare opts ->
  0 <= Page.ruralUplift opts ->
  Page.minEuro opts * JS.len scores <= budget ->
  In p (Page.allocateBudget scores budget opts) ->
  Props.constrained opt ->
  In a (Mcda.scoreAndAllocate rows w opt) ->
  (0 <= snd p /\ Page.minEuro opts <= snd p)
  /\ JS.round (JS.min (Props.floorOf opt)
                      (Props.capOf opt * Mcda.budgetEUR opt))
     <= Mcda.eur a.
Proof.
  intros Hm Hs Hu Hfit Hp Hcon Ha.
  pose proof (allocateBudget_floor scores budget opts p Hm Hs Hu Hfit Hp)
    as Hfl.
  split; [split; [lra | exact Hfl] |].
  apply result_in in Ha. destruct Ha as (q & Hq & ->).
  cbn [Mcda.rounded Mcda.eur]. apply round_mono.
  apply (constrained_ge _ opt q Hcon Hq).
Qed.

Lemma floor_and_nonnegativity_witness :
  Page.minEuro (Scenario.pageFloored None) * 3 <= 300000
  /\ Props.constrained Scenario.floored
  /\ Page.minEuro (Scenario.pageFloored None)
     <= snd (hd (EmptyString, 0)
                (Page.allocateBudget
                   [("r1"%string, 0); ("r2"%string, 1 # 2); ("r3"%string, 1)]
                   300000 (Scenario.pageFloored None)))
  /\ JS.round (JS.min (Props.floorOf Scenario.floored)
                      (Props.capOf Scenario.floored
                       * Mcda.budgetEUR Scenario.floored))
     <= Mcda.eur (hd (Mcda.mkAlloc EmptyString 0 0 0)
                     (Mcda.scoreAndAllocate Scenario.three
                        Scenario.growthOnly Scenario.floored)).
Proof.
  assert (H1 : 0 <= Page.minEuro (Scenario.pageFloored None))
    by (vm_compute; discriminate).
  assert (H2 : 0 <= Page.maxShare (Scenario.pageFloored None))
    by (vm_compute; discriminate).
  assert (H3 : 0 <= Page.ruralUplift (Scenario.pageFloored None))
    by (vm_compute; discriminate).
  assert (H4 : Page.minEuro (Scenario.pageFloored None)
               * JS.len [("r1"%string, 0); ("r2"%string, 1 # 2);
                         ("r3"%string, 1)] <= 300000)
    by (vm_compute; discriminate).
  assert (H5 : In (hd (EmptyString, 0)
                      (Page.allocateBudget
                         [("r1"%string, 0); ("r2"%string, 1 # 2);
                          ("r3"%string, 1)]
                         300000 (Scenario.pageFloored None)))
                  (Page.allocateBudget
                     [("r1"%string, 0); ("r2"%string, 1 # 2);
                      ("r3"%string, 1)]
                     300000 (Scenario.pageFloored None)))
    by (vm_compute; left; reflexivity).
  assert (H6 : Props.constrained Scenario.floored) by reflexivity.
  assert (H7 : In (hd (Mcda.mkAlloc EmptyString 0 0 0)
                      (Mcda.scoreAndAllocate Scenario.three
                         Scenario.growthOnly Scenario.floored))
                  (Mcda.scoreAndAllocate Scenario.three
                     Scenario.growthOnly Scenario.floored))
    by (vm_compute; left; reflexivity).
  destruct (floor_and_nonnegativity _ _ _ _ _ _ _ _ H1 H2 H3 H4 H5 H6 H7)
    as [[_ HA] HB].
  split; [exact H4 | split; [exact H6 | split; [exact HA | exact HB]]].
Defined.

(** ** C5: degenerate normalization *)

(** C5. Degenerate normalization: when the finite raw values of an
    indicator have their maximum equal to their minimum, [mm] and [mmInv]
    give every region, whatever its own raw value, the normalized score
    one half. *)
Theorem degenerate_normalization (vals : list Q) (x : Q) :
  filter JS.isFinite vals <> [] ->
  JS.maxOf (filter JS.isFinite vals) == JS.minOf (filter JS.isFinite vals) ->
  Mcda.mm x (Mcda.rng vals) = 1 # 2 /\ Mcda.mmInv x (Mcda.rng vals) = 1 # 2.
Proof.
  intros Hne Heq. unfold Mcda.rng.
  destruct (filter JS.isFinite vals) as [| v r] eqn:E; [congruence |].
  unfold Mcda.mm, Mcda.mmInv. cbn [Mcda.rmax Mcda.rmin].
  apply Qeq_bool_iff in Heq. rewrite Heq. split; reflexivity.
Qed.

Lemma degenerate_normalization_witness :
  filter JS.isFinite [7; 7; 7] <> []
  /\ JS.maxOf (filter JS.isFinite [7; 7; 7])
     == JS.minOf (filter JS.isFinite [7; 7; 7])
  /\ Mcda.mm 7 (Mcda.rng [7; 7; 7]) = 1 # 2
  /\ Mcda.mmInv 7 (Mcda.rng [7; 7; 7]) = 1 # 2.
Proof.
  assert (H1 : filter JS.isFinite [7; 7; 7] <> []) by (simpl; discriminate).
  assert (H2 : JS.maxOf (filter JS.isFinite [7; 7; 7])
               == JS.minOf (filter JS.isFinite [7; 7; 7])) by reflexivity.
  split; [exact H1 | split; [exact H2 |]].
  exact (degenerate_normalization [7; 7; 7] 7 H1 H2).
Defined.

(** ** C6: a budget at or below zero *)

(** C6, as the code has it.  A budget at or below zero is not rejected:
    both engines return, [scoreAndAllocate] an array with one element per
    input row and [allocateBudget] an object with the keys of [scores]. *)
Theorem nonpositive_budget_returns (rows : list Mcda.MCDAInput)
    (w : Mcda.Weights) (opt : Mcda.Options)
    (scores : list (string * Q)) (budget : Q) (opts : Page.Opts) :
  Mcda.budgetEUR opt <= 0 ->
  budget <= 0 ->
  (exists res, callScoreAndAllocate rows w opt = Returned res
               /\ List.length res = List.length rows)
  /\ (exists res, callAllocateBudget scores budget opts = Returned res
                  /\ map fst res = map fst scores).
Proof.
  intros _ _. split.
  - eexists. split; [reflexivity | apply result_length].
  - eexists. split; [reflexivity | apply allocateBudget_names].
Qed.

Lemma nonpositive_budget_returns_witness :
  Mcda.budgetEUR Scenario.negative <= 0
  /\ -300000 <= 0
  /\ (exists res,
        callScoreAndAllocate Scenario.three Scenario.growthOnly
                             Scenario.negative = Returned res
        /\ List.length res = 3%nat)
  /\ (exists res,
        callAllocateBudget [(EmptyString, 1)] (-300000) Scenario.capped
        = Returned res
        /\ map fst res = [EmptyString]).
Proof.
  assert (H1 : Mcda.budgetEUR Scenario.negative <= 0)
    by (vm_compute; discriminate).
  assert (H2 : -300000 <= 0) by (vm_compute; discriminate).
  split; [exact H1 | split; [exact H2 |]].
  exact (nonpositive_budget_returns Scenario.three Scenario.growthOnly
           Scenario.negative [(EmptyString, 1)] (-300000) Scenario.capped
           H1 H2).
Defined.

(** ** C7: regions without score *)

(** C7, as the code has it.  When the boosted scores do not add up to a
    positive total, [allocateBudget] (at least one region, positive budget)
    gives every region the floor plus an even part of what the floors leave
    and then renormalizes: every region ends with exactly the budget
    divided by the number of regions, which is at or above the floor
    whenever the floor times the number of regions does not exceed the
    budget. *)
Theorem zero_score_equal_split (scores : list (string * Q)) (budget : Q)
    (opts : Page.Opts) (p : string * Q) :
  scores <> [] ->
  0 < budget ->
  Props.pageTotal scores opts <= 0 ->
  In p (Page.allocateBudget scores budget opts) ->
  snd p == budget / JS.len scores
  /\ (Page.minEuro opts * JS.len scores <= budget -> Page.minEuro opts <= snd p).
Proof.
  intros Hne Hb Htot Hin.
  pose proof (equal_split_value scores budget opts p Hne Hb Htot Hin) as Hval.
  split; [exact Hval |].
  intro Hfloor. rewrite Hval.
  apply Qle_shift_div_l; [apply len_pos; exact Hne | exact Hfloor].
Qed.

Lemma zero_score_equal_split_witness :
  [(EmptyString, 0)] <> []
  /\ 0 < 100
  /\ Props.pageTotal [(EmptyString, 0)] Scenario.floorTen <= 0
  /\ In (hd (EmptyString, 0)
            (Page.allocateBudget [(EmptyString, 0)] 100 Scenario.floorTen))
        (Page.allocateBudget [(EmptyString, 0)] 100 Scenario.floorTen)
  /\ snd (hd (EmptyString, 0)
             (Page.allocateBudget [(EmptyString, 0)] 100 Scenario.floorTen))
     == 100 / JS.len [(EmptyString, 0)].
Proof.
  assert (H1 : [(EmptyString, 0)] <> []) by discriminate.
  assert (H2 : 0 < 100) by reflexivity.
  assert (H3 : Props.pageTotal [(EmptyString, 0)] Scenario.floorTen <= 0)
    by (vm_compute; discriminate).
  assert (H4 : In (hd (EmptyString, 0)
                      (Page.allocateBudget [(EmptyString, 0)] 100
                                           Scenario.floorTen))
                  (Page.allocateBudget [(EmptyString, 0)] 100
                                       Scenario.floorTen))
    by (vm_compute; left; reflexivity).
  repeat (split; [assumption |]).
  exact (proj1 (zero_score_equal_split _ _ _ _ H1 H2 H3 H4)).
Defined.

(** ** C9: monotonicity *)

(** C9, as the code has it.  Let no cap strictly between 0 and 100% be
    in force: neither floor nor cap is configured, or the cap ([capShare],
    100% when it is absent) is at least 1, which includes every input with
    a floor and no cap, or the cap is 0, under which nothing is allocated.
    With distinct region keys, weights that are not negative and a budget
    that is not negative, raising one benefit indicator (growth rate or
    old-age dependency ratio) of one region, all else equal, never lowers
    the amount that [scoreAndAllocate] computes for that region before the
    final [Math.round].  The amount returned is the rounding of that
    amount; as the source computes it in binary64 arithmetic, where an
    amount next to a half may round either way, the statement on the
    returned whole euros is that they never fall by more than one euro. *)
Theorem benefit_monotone (b : Props.Benefit) (d : Q)
    (pre post : list Mcda.MCDAInput) (r : Mcda.MCDAInput)
    (w : Mcda.Weights) (opt : Mcda.Options) (x y : Mcda.Alloc) :
  0 <= d ->
  Props.nonnegWeights w ->
  0 <= Mcda.budgetEUR opt ->
  Props.noPartialCap opt ->
  NoDup (map Mcda.la (pre ++ r :: post)) ->
  In x (Mcda.scoreAndAllocate (pre ++ r :: post) w opt) ->
  Mcda.a_la x = Mcda.la r ->
  In y (Mcda.scoreAndAllocate (pre ++ Props.raise b d r :: post) w opt) ->
  Mcda.a_la y = Mcda.la r ->
  (exists p q,
      In p (Props.exact (pre ++ r :: post) w opt)
      /\ x = Mcda.rounded p
      /\ In q (Props.exact (pre ++ Props.raise b d r :: post) w opt)
      /\ y = Mcda.rounded q
      /\ Mcda.eur p <= Mcda.eur q)
  /\ Mcda.eur x <= Mcda.eur y + 1.
Proof.
  intros Hd Hw HB Hpath Hnd Hx Hxla Hy Hyla.
  apply result_in in Hx. destruct Hx as (p & Hp & ->).
  apply result_in in Hy. destruct Hy as (q & Hq & ->).
  cbn [Mcda.rounded Mcda.a_la Mcda.eur] in *.
  assert (Hle : Mcda.eur p <= Mcda.eur q).
  { apply (replaced_row_mono pre post r (Props.raise b d r) w opt);
      try assumption.
    - apply (proj1 (raise_keeps b d r opt)).
    - apply score_raised_own; assumption.
    - intros z Hz. apply score_raised_other; assumption. }
  split.
  - exists p, q. repeat split; assumption.
  - pose proof (round_mono _ _ Hle). lra.
Qed.

Lemma benefit_monotone_witness :
  let rows := [Scenario.row "r1" 10 0; Scenario.row "r2" 20 0;
               Scenario.row "r3" 30 0] in
  let rows' := [Scenario.row "r1" 10 0;
                Props.raise Props.Growth 5 (Scenario.row "r2" 20 0);
                Scenario.row "r3" 30 0] in
  let x := nth 1 (Mcda.scoreAndAllocate rows Scenario.growthOnly
                                        Scenario.floored)
               (Mcda.mkAlloc EmptyString 0 0 0) in
  let y := nth 1 (Mcda.scoreAndAllocate rows' Scenario.growthOnly
                                        Scenario.floored)
               (Mcda.mkAlloc EmptyString 0 0 0) in
  0 <= 5
  /\ Props.constrained Scenario.floored
  /\ Props.capOf Scenario.floored == 1
  /\ Mcda.a_la x = "r2"%string /\ Mcda.a_la y = "r2"%string
  /\ Mcda.eur x == 100000 /\ Mcda.eur y == 128571
  /\ Mcda.eur x <= Mcda.eur y + 1.
Proof.
  intros rows rows' x y.
  assert (H1 : 0 <= 5) by (vm_compute; discriminate).
  assert (H2 : Props.nonnegWeights Scenario.growthOnly).
  { repeat split; vm_compute; discriminate. }
  assert (H3 : 0 <= Mcda.budgetEUR Scenario.floored)
    by (vm_compute; discriminate).
  assert (H4 : Props.capOf Scenario.floored == 1) by reflexivity.
  assert (H5 : NoDup (map Mcda.la
                        ([Scenario.row "r1" 10 0] ++ Scenario.row "r2" 20 0
                         :: [Scenario.row "r3" 30 0]))).
  { repeat constructor; cbn; intuition discriminate. }
  assert (H6 : In x (Mcda.scoreAndAllocate
                       ([Scenario.row "r1" 10 0] ++ Scenario.row "r2" 20 0
                        :: [Scenario.row "r3" 30 0])
                       Scenario.growthOnly Scenario.floored))
    by (vm_compute; right; left; reflexivity).
  assert (H7 : Mcda.a_la x = Mcda.la (Scenario.row "r2" 20 0))
    by (vm_compute; reflexivity).
  assert (H8 : In y (Mcda.scoreAndAllocate
                       ([Scenario.row "r1" 10 0]
                        ++ Props.raise Props.Growth 5 (Scenario.row "r2" 20 0)
                        :: [Scenario.row "r3" 30 0])
                       Scenario.growthOnly Scenario.floored))
    by (vm_compute; right; left; reflexivity).
  assert (H9 : Mcda.a_la y = Mcda.la (Scenario.row "r2" 20 0))
    by (vm_compute; reflexivity).
  split; [exact H1 |]. split; [reflexivity |]. split; [exact H4 |].
  split; [exact H7 |]. split; [exact H9 |].
  split; [vm_compute; reflexivity |]. split; [vm_compute; reflexivity |].
  exact (proj2 (benefit_monotone Props.Growth 5 [Scenario.row "r1" 10 0]
                  [Scenario.row "r3" 30 0] (Scenario.row "r2" 20 0)
                  Scenario.growthOnly Scenario.floored x y
                  H1 H2 H3 (or_intror (or_introl H4)) H5 H6 H7 H8 H9)).
Defined.

(** ** C10: whole euros *)



(** * Further properties of the two engines *)

(** ** Properties of the normalizer and of [scoreAndAllocate] *)

(** X1. The two normalizations are complementary: on every range, the
    benefit value [mm] and the inverse value [mmInv] of a number add up to
    one (one half each on a range whose ends coincide). *)
Theorem normalized_complement (x : Q) (r : Mcda.Range) :
  Mcda.mm x r + Mcda.mmInv x r == 1.
Proof.
  destruct (mm_cases x r) as [[D ->] | [D ->]];
    destruct (mmInv_cases x r) as [[D' ->] | [D' ->]];
    try contradiction.
  - reflexivity.
  - field. intro E. apply D. lra.
Qed.

(** X2. Every value of a column is normalized into the unit interval by
    [mm] and by [mmInv] over the range [rng] of the column; when the column
    is not constant, its smallest value is sent to 0 and its largest to 1
    by [mm], and the other way round by [mmInv]. *)
Theorem normalized_range (vals : list Q) (x : Q) :
  In x vals ->
  (0 <= Mcda.mm x (Mcda.rng vals) <= 1
   /\ 0 <= Mcda.mmInv x (Mcda.rng vals) <= 1)
  /\ (~ JS.maxOf vals == JS.minOf vals ->
      Mcda.mm (JS.minOf vals) (Mcda.rng vals) == 0
      /\ Mcda.mm (JS.maxOf vals) (Mcda.rng vals) == 1
      /\ Mcda.mmInv (JS.minOf vals) (Mcda.rng vals) == 1
      /\ Mcda.mmInv (JS.maxOf vals) (Mcda.rng vals) == 0).
Proof.
  intro Hx. split.
  - split; [apply mm_range | apply mmInv_range]; exact Hx.
  - intro D. pose proof (In_nonempty _ _ Hx) as Hne.
    assert (Hd : ~ JS.maxOf vals - JS.minOf vals == 0)
      by (intro E; apply D; lra).
    rewrite (rng_nonempty _ Hne).
    unfold Mcda.mm, Mcda.mmInv. cbn [Mcda.rmax Mcda.rmin].
    destruct (Qeq_bool (JS.maxOf vals) (JS.minOf vals)) eqn:E.
    + apply Qeq_bool_iff in E. contradiction.
    + repeat split; field; exact Hd.
Qed.

Lemma normalized_range_witness :
  In 20 [10; 20; 30]
  /\ 0 <= Mcda.mm 20 (Mcda.rng [10; 20; 30]) <= 1
  /\ Mcda.mm (JS.maxOf [10; 20; 30]) (Mcda.rng [10; 20; 30]) == 1.
Proof.
  assert (H : In 20 [10; 20; 30]) by (right; left; reflexivity).
  destruct (normalized_range [10; 20; 30] 20 H) as [[Hm _] He].
  split; [exact H |]. split; [exact Hm |].
  apply He. intro E. vm_compute in E. discriminate E.
Defined.

(** X3. Reversing the direction of a column (every value [v] replaced by
    [a * v + b] with [a < 0]) exchanges the two normalizations: the benefit
    value of the new number over the new column is the inverse value of
    the old one over the old column, and conversely. *)
Theorem normalized_reversal (vals : list Q) (a b x : Q) :
  vals <> [] -> a < 0 ->
  Mcda.mm (a * x + b) (Mcda.rng (map (fun v => a * v + b) vals))
  == Mcda.mmInv x (Mcda.rng vals)
  /\ Mcda.mmInv (a * x + b) (Mcda.rng (map (fun v => a * v + b) vals))
     == Mcda.mm x (Mcda.rng vals).
Proof. apply mm_affine_neg. Qed.

Lemma normalized_reversal_witness :
  [10; 20; 30] <> [] /\ -(1) < 0
  /\ Mcda.mm (-(1) * 10 + 0)
             (Mcda.rng (map (fun v => -(1) * v + 0) [10; 20; 30]))
     == Mcda.mmInv 10 (Mcda.rng [10; 20; 30]).
Proof.
  assert (H1 : [10; 20; 30] <> []) by discriminate.
  assert (H2 : -(1) < 0) by reflexivity.
  split; [exact H1 |]. split; [exact H2 |].
  exact (proj1 (normalized_reversal [10; 20; 30] (-(1)) 0 10 H1 H2)).
Defined.



(** X5. Only the proportions of the weights matter to [scoreAndAllocate].
    With weights that are not negative, multiplying all five of them by
    the same factor [c > 0] multiplies the score of a region of rows with
    distinct keys by [c] and leaves its share as it is.  Where no cap
    strictly between 0 and 100% is in force (neither floor nor cap, or a
    cap of at least 1 or of 0) it leaves its amount as well, up to the one
    euro by which [Math.round] of a binary64 amount next to a half may
    differ. *)
Theorem weight_scale_invariance (c : Q) (rows : list Mcda.MCDAInput)
    (w : Mcda.Weights) (opt : Mcda.Options) (x y : Mcda.Alloc) :
  0 < c -> Props.nonnegWeights w -> NoDup (map Mcda.la rows) ->
  In x (Mcda.scoreAndAllocate rows w opt) ->
  In y (Mcda.scoreAndAllocate rows (Change.scaleWeights c w) opt) ->
  Mcda.a_la x = Mcda.a_la y ->
  Mcda.score y == c * Mcda.score x
  /\ Mcda.share x == Mcda.share y
  /\ (Props.noPartialCap opt ->
      Qabs (Mcda.eur x - Mcda.eur y) <= 1).
Proof.
  intros Hc Hw Hnd Hx Hy Hk.
  destruct (scaled_items_result c rows rows w (Change.scaleWeights c w)
              opt x y) as (Hs & Hh & He); try assumption.
  - right. intros it Hit. apply (items_nonneg rows w opt it Hw Hit).
  - rewrite !items_scoreIn. apply Forall2_map_same. intros r Hr.
    destruct (scoreIn_factor rows w opt r) as [K S].
    destruct (scoreIn_factor rows (Change.scaleWeights c w) opt r)
      as [K' S'].
    split; [rewrite K, K'; reflexivity |].
    rewrite S, S', weighted_scaled. ring.
  - split; [exact Hs |]. split; [exact Hh |].
    intros _. rewrite He. apply Qabs_Qle_condition. split; lra.
Qed.

Lemma weight_scale_invariance_witness :
  let x := hd (Mcda.mkAlloc EmptyString 0 0 0)
              (Mcda.scoreAndAllocate Scenario.before Scenario.twoWeights
                 Scenario.hundred) in
  let y := hd (Mcda.mkAlloc EmptyString 0 0 0)
              (Mcda.scoreAndAllocate Scenario.before
                 (Change.scaleWeights 7 Scenario.twoWeights)
                 Scenario.hundred) in
  0 < 7 /\ Props.nonnegWeights Scenario.twoWeights
  /\ Mcda.a_la x = Mcda.a_la y
  /\ Props.unconstrained Scenario.hundred
  /\ Mcda.score y == 7 * Mcda.score x
  /\ Mcda.share x == Mcda.share y
  /\ Qabs (Mcda.eur x - Mcda.eur y) <= 1.
Proof.
  intros x y.
  assert (H1 : 0 < 7) by reflexivity.
  assert (H2 : Props.nonnegWeights Scenario.twoWeights)
    by (repeat split; vm_compute; discriminate).
  assert (H3 : NoDup (map Mcda.la Scenario.before)).
  { repeat constructor; cbn; intuition discriminate. }
  assert (H4 : In x (Mcda.scoreAndAllocate Scenario.before
                       Scenario.twoWeights Scenario.hundred))
    by (vm_compute; left; reflexivity).
  assert (H5 : In y (Mcda.scoreAndAllocate Scenario.before
                       (Change.scaleWeights 7 Scenario.twoWeights)
                       Scenario.hundred))
    by (vm_compute; left; reflexivity).
  assert (H6 : Mcda.a_la x = Mcda.a_la y) by (vm_compute; reflexivity).
  assert (H7 : Props.unconstrained Scenario.hundred) by reflexivity.
  destruct (weight_scale_invariance 7 Scenario.before Scenario.twoWeights
              Scenario.hundred x y H1 H2 H3 H4 H5 H6) as (Hs & Hh & He).
  split; [exact H1 |]. split; [exact H2 |]. split; [exact H6 |].
  split; [exact H7 |]. split; [exact Hs |]. split; [exact Hh |].
  apply He. left. exact H7.
Defined.

(** X6. The array returned by [scoreAndAllocate] is in descending order of
    [eur]: no element has a smaller amount than an element after it. *)
Theorem result_sorted (rows : list Mcda.MCDAInput) (w : Mcda.Weights)
    (opt : Mcda.Options) :
  StronglySorted (fun x y => Mcda.eur y <= Mcda.eur x)
                 (Mcda.scoreAndAllocate rows w opt).
Proof. apply sortDesc_sorted. Qed.

(** X7. [scoreAndAllocate] returns one element per input row: the [la]
    keys of the result are the keys of the rows, each as often as it
    occurs among the rows, possibly in another order. *)
Theorem result_regions (rows : list Mcda.MCDAInput) (w : Mcda.Weights)
    (opt : Mcda.Options) :
  Permutation (map Mcda.a_la (Mcda.scoreAndAllocate rows w opt))
              (map Mcda.la rows).
Proof. apply result_keys. Qed.


(** X9. The rural uplift never lowers a score and never raises it by more
    than the configured rate: with weights that are not negative, the score
    of every returned element lies between the score the same region has
    without uplift and that score times [1 + max(0, ruralUplift)]; an
    uplift that is absent, zero or negative changes no score. *)
Theorem uplift_bounds (rows : list Mcda.MCDAInput) (w : Mcda.Weights)
    (opt : Mcda.Options) (a : Mcda.Alloc) :
  Props.nonnegWeights w ->
  In a (Mcda.scoreAndAllocate rows w opt) ->
  exists a0,
    In a0 (Mcda.scoreAndAllocate rows w (Change.noUplift opt))
    /\ Mcda.a_la a0 = Mcda.a_la a
    /\ Mcda.score a0 <= Mcda.score a
    /\ Mcda.score a
       <= (1 + JS.max 0 (JS.nullish (Mcda.ruralUplift opt) 0))
          * Mcda.score a0.
Proof.
  intros Hw Ha.
  destruct (row_of_result rows w opt a Ha) as (r & Hr & Ek & Es & _).
  destruct (result_of_row rows w (Change.noUplift opt) r Hr)
    as (a0 & Ha0 & Ek0 & Es0).
  exists a0. split; [exact Ha0 |]. split; [congruence |].
  rewrite Es, Es0.
  rewrite (proj2 (scoreIn_factor rows w opt r)).
  rewrite (proj2 (scoreIn_factor rows w (Change.noUplift opt) r)).
  change (Props.upliftFactor (Change.noUplift opt) r) with 1.
  pose proof (weighted_nonneg rows w r Hw Hr) as H0.
  pose proof (upliftFactor_pos opt r) as H1.
  pose proof (upliftFactor_upper opt r) as H2.
  split; nra.
Qed.

Lemma uplift_bounds_witness :
  let a := hd (Mcda.mkAlloc EmptyString 0 0 0)
              (Mcda.scoreAndAllocate Scenario.rural Scenario.growthOnly
                 Scenario.doubling) in
  Props.nonnegWeights Scenario.growthOnly
  /\ In a (Mcda.scoreAndAllocate Scenario.rural Scenario.growthOnly
             Scenario.doubling)
  /\ exists a0,
       In a0 (Mcda.scoreAndAllocate Scenario.rural Scenario.growthOnly
                (Change.noUplift Scenario.doubling))
       /\ Mcda.a_la a0 = Mcda.a_la a
       /\ Mcda.score a0 <= Mcda.score a
       /\ Mcda.score a
          <= (1 + JS.max 0 (JS.nullish (Mcda.ruralUplift Scenario.doubling) 0))
             * Mcda.score a0.
Proof.
  intro a.
  assert (H1 : Props.nonnegWeights Scenario.growthOnly)
    by (repeat split; vm_compute; discriminate).
  assert (H2 : In a (Mcda.scoreAndAllocate Scenario.rural
                       Scenario.growthOnly Scenario.doubling))
    by (vm_compute; left; reflexivity).
  split; [exact H1 |]. split; [exact H2 |].
  exact (uplift_bounds Scenario.rural Scenario.growthOnly Scenario.doubling
           a H1 H2).
Defined.

(** X10. A cap share of zero or less, once the cap/floor logic runs, takes
    everything: every region is clamped to zero, no region has room for a
    top-up, and every returned amount is 0, whatever the budget and the
    floor. *)
Theorem zero_cap_allocates_nothing (rows : list Mcda.MCDAInput)
    (w : Mcda.Weights) (opt : Mcda.Options) (c : Q) (a : Mcda.Alloc) :
  Mcda.capShare opt = Some c -> c <= 0 ->
  Props.constrained opt ->
  In a (Mcda.scoreAndAllocate rows w opt) ->
  Mcda.eur a = 0.
Proof.
  intros Ec Hc Hcon Ha.
  assert (Hcap : Props.capOf opt == 0).
  { unfold Props.capOf. rewrite Ec. cbn [JS.nullish].
    destruct (min_cases 1 c) as [[H ->] | [H ->]]; [lra |].
    destruct (max_cases 0 c) as [[H' ->] | [H' ->]]; lra. }
  apply result_in in Ha. destruct Ha as (p & Hp & ->).
  cbn [Mcda.rounded Mcda.eur]. apply round_zero.
  apply (exact_zero_cap _ opt p Hcon Hcap Hp).
Qed.

Lemma zero_cap_allocates_nothing_witness :
  let opt := Mcda.mkOptions None (Some 50) (Some 0) 300 in
  let a := hd (Mcda.mkAlloc EmptyString 0 0 0)
              (Mcda.scoreAndAllocate Scenario.three Scenario.growthOnly opt) in
  Mcda.capShare opt = Some 0 /\ 0 <= 0
  /\ Props.constrained opt
  /\ In a (Mcda.scoreAndAllocate Scenario.three Scenario.growthOnly opt)
  /\ Mcda.eur a = 0.
Proof.
  intros opt a.
  assert (H1 : Mcda.capShare opt = Some 0) by reflexivity.
  assert (H2 : 0 <= 0) by (vm_compute; discriminate).
  assert (H3 : Props.constrained opt) by reflexivity.
  assert (H4 : In a (Mcda.scoreAndAllocate Scenario.three
                       Scenario.growthOnly opt))
    by (vm_compute; left; reflexivity).
  repeat (split; [assumption |]).
  exact (zero_cap_allocates_nothing Scenario.three Scenario.growthOnly opt 0
           a H1 H2 H3 H4).
Defined.

(** X11. Without a floor, a cap share of zero is no cap at all: the test
    [opt.floorEUR || opt.capShare] fails, the cap/floor logic is skipped
    and the result is the result without [capShare]. *)
Theorem zero_cap_ignored (rows : list Mcda.MCDAInput) (w : Mcda.Weights)
    (opt : Mcda.Options) (c : Q) :
  Mcda.capShare opt = Some c -> c == 0 ->
  JS.truthyOpt (Mcda.floorEUR opt) = false ->
  Mcda.scoreAndAllocate rows w opt
  = Mcda.scoreAndAllocate rows w (Change.noCap opt).
Proof.
  intros Ec Hc Hf.
  unfold Mcda.scoreAndAllocate, Mcda.allocate, Change.noCap.
  cbn [Mcda.floorEUR Mcda.capShare Mcda.budgetEUR].
  rewrite Ec, Hf. cbn [JS.truthyOpt orb].
  rewrite (proj2 (truthy_false c) Hc). reflexivity.
Qed.

Lemma zero_cap_ignored_witness :
  let opt := Mcda.mkOptions None None (Some 0) 300 in
  Mcda.capShare opt = Some 0 /\ 0 == 0
  /\ JS.truthyOpt (Mcda.floorEUR opt) = false
  /\ Scenario.eurs
       (Mcda.scoreAndAllocate Scenario.three Scenario.growthOnly opt)
     = [("r3"%string, 200); ("r2"%string, 100); ("r1"%string, 0)].
Proof.
  intro opt.
  assert (H1 : Mcda.capShare opt = Some 0) by reflexivity.
  assert (H2 : 0 == 0) by reflexivity.
  assert (H3 : JS.truthyOpt (Mcda.floorEUR opt) = false) by reflexivity.
  repeat (split; [assumption |]).
  rewrite (zero_cap_ignored Scenario.three Scenario.growthOnly opt 0
             H1 H2 H3).
  vm_compute. reflexivity.
Defined.

(** X12. With weights and a budget that are not negative,
    [scoreAndAllocate] returns no negative amount, on the proportional path
    and in the cap/floor logic alike. *)
Theorem amounts_nonnegative (rows : list Mcda.MCDAInput) (w : Mcda.Weights)
    (opt : Mcda.Options) (a : Mcda.Alloc) :
  Props.nonnegWeights w -> 0 <= Mcda.budgetEUR opt ->
  In a (Mcda.scoreAndAllocate rows w opt) ->
  0 <= Mcda.eur a.
Proof.
  intros Hw HB Ha.
  destruct (JS.truthyOpt (Mcda.floorEUR opt)
            || JS.truthyOpt (Mcda.capShare opt)) eqn:E.
  - apply result_in in Ha. destruct Ha as (p & Hp & ->).
    cbn [Mcda.rounded Mcda.eur]. apply round_nonneg.
    pose proof (constrained_ge _ opt p E Hp) as Hge.
    pose proof (max_lower_l 0 (JS.nullish (Mcda.floorEUR opt) 0)) as Hf.
    fold (Props.floorOf opt) in Hf.
    pose proof (max_lower_l 0 (JS.min 1 (JS.nullish (Mcda.capShare opt) 1)))
      as Hc.
    fold (Props.capOf opt) in Hc.
    pose proof (Qmult_le_0_compat _ _ Hc HB) as Hcb.
    destruct (min_cases (Props.floorOf opt)
                (Props.capOf opt * Mcda.budgetEUR opt)) as [[H Em] | [H Em]];
      rewrite Em in Hge; lra.
  - rewrite (unconstrained_eur rows w opt a E Ha). apply round_nonneg.
    destruct (result_field_in rows w opt a Ha) as (s & Hs & _ & _ & Eh).
    rewrite Eh. apply Qmult_le_0_compat; [| exact HB].
    apply (shares_range (Mcda.items rows w opt)); [| exact Hs].
    intros it Hit. apply (items_nonneg rows w opt it Hw Hit).
Qed.

Lemma amounts_nonnegative_witness :
  let a := hd (Mcda.mkAlloc EmptyString 0 0 0)
              (Mcda.scoreAndAllocate Scenario.before Scenario.twoWeights
                 Scenario.halfCap) in
  Props.nonnegWeights Scenario.twoWeights
  /\ 0 <= Mcda.budgetEUR Scenario.halfCap
  /\ In a (Mcda.scoreAndAllocate Scenario.before Scenario.twoWeights
             Scenario.halfCap)
  /\ 0 <= Mcda.eur a.
Proof.
  intro a.
  assert (H1 : Props.nonnegWeights Scenario.twoWeights)
    by (repeat split; vm_compute; discriminate).
  assert (H2 : 0 <= Mcda.budgetEUR Scenario.halfCap)
    by (vm_compute; discriminate).
  assert (H3 : In a (Mcda.scoreAndAllocate Scenario.before
                       Scenario.twoWeights Scenario.halfCap))
    by (vm_compute; left; reflexivity).
  repeat (split; [assumption |]).
  exact (amounts_nonnegative Scenario.before Scenario.twoWeights
           Scenario.halfCap a H1 H2 H3).
Defined.



(** ** [allocateBudget]: equal amounts and proportional scores *)

Section PageCongruence.
Import Page Props Change.

Variable c : Q.
Hypothesis c_pos : 0 < c.

Lemma raiseTo_sim (m : Q) (e e' : Entry) :
  sameEntry c e e' -> sameEntry c (raiseTo m e) (raiseTo m e').
Proof.
  intros (Hn & Ha & Hb). unfold raiseTo.
  rewrite (ltb_compat _ _ m m Ha (Qeq_refl m)).
  destruct (JS.ltb (alloc e') m); repeat split;
    cbn [setAlloc name alloc boosted]; try assumption; reflexivity.
Qed.

Lemma shortfall_sim (m : Q) (e e' : Entry) :
  sameEntry c e e' -> shortfall m e == shortfall m e'.
Proof.
  intros (Hn & Ha & Hb). unfold shortfall.
  rewrite (ltb_compat _ _ m m Ha (Qeq_refl m)).
  destruct (JS.ltb (alloc e') m); [rewrite Ha |]; reflexivity.
Qed.

Lemma poolOf_sim (m : Q) (es es' : list Entry) :
  Forall2 (sameEntry c) es es' -> poolOf m es == poolOf m es'.
Proof.
  intro H. unfold poolOf. rewrite !sumBy_filter, !sumBy_map.
  apply sumBy_Forall2.
  apply (Forall2_weaken (sameEntry c)); [| exact H].
  intros e e' _ _ He.
  destruct (raiseTo_sim m e e' He) as (_ & Ha & _).
  rewrite (ltb_compat m m _ _ (Qeq_refl m) Ha).
  destruct (JS.ltb m (alloc (raiseTo m e'))); [rewrite Ha |]; reflexivity.
Qed.

Lemma donate_sim (m pool pool' d d' : Q) (e e' : Entry) :
  pool == pool' -> d == d' ->
  sameEntry c e e' ->
  sameEntry c (donate m pool d e) (donate m pool' d' e').
Proof.
  intros Hp Hd (Hn & Ha & Hb). unfold donate.
  rewrite (ltb_compat m m _ _ (Qeq_refl m) Ha).
  destruct (JS.ltb m (alloc e')); repeat split;
    cbn [setAlloc name alloc boosted]; try assumption.
  rewrite Ha, Hp, Hd. reflexivity.
Qed.

Lemma floorPass_sim (opts opts' : Opts) (es es' : list Entry) :
  minEuro opts = minEuro opts' ->
  Forall2 (sameEntry c) es es' ->
  Forall2 (sameEntry c) (floorPass opts es) (floorPass opts' es').
Proof.
  intros Hm H.
  destruct (floorPass_cases opts es) as (d & Hd & ->).
  destruct (floorPass_cases opts' es') as (d' & Hd' & ->).
  rewrite <- Hm in *.
  assert (Ed : d == d').
  { rewrite Hd, Hd'. apply sumBy_Forall2.
    apply (Forall2_weaken (sameEntry c)); [| exact H].
    intros e e' _ _ He. apply shortfall_sim. exact He. }
  rewrite <- (ltb_compat 0 0 d d' (Qeq_refl 0) Ed).
  assert (Hr : Forall2 (sameEntry c) (map (raiseTo (minEuro opts)) es)
                 (map (raiseTo (minEuro opts)) es')).
  { apply Forall2_map.
    apply (Forall2_weaken (sameEntry c)); [| exact H].
    intros e e' _ _ He. apply raiseTo_sim. exact He. }
  destruct (JS.ltb 0 d); [| exact Hr].
  apply Forall2_map.
  apply (Forall2_weaken (sameEntry c)); [| exact Hr].
  intros e e' _ _ He. apply donate_sim; [| exact Ed | exact He].
  apply orElse_compat; [apply poolOf_sim; exact H | reflexivity].
Qed.

Lemma clipTo_sim (cap : Q) (e e' : Entry) :
  sameEntry c e e' -> sameEntry c (clipTo cap e) (clipTo cap e').
Proof.
  intros (Hn & Ha & Hb). unfold clipTo.
  rewrite (ltb_compat cap cap _ _ (Qeq_refl cap) Ha).
  destruct (JS.ltb cap (alloc e')); repeat split;
    cbn [setAlloc name alloc boosted]; try assumption; reflexivity.
Qed.

Lemma overshoot_sim (cap : Q) (e e' : Entry) :
  sameEntry c e e' -> overshoot cap e == overshoot cap e'.
Proof.
  intros (Hn & Ha & Hb). unfold overshoot.
  rewrite (ltb_compat cap cap _ _ (Qeq_refl cap) Ha).
  destruct (JS.ltb cap (alloc e')); [rewrite Ha |]; reflexivity.
Qed.

Lemma weightOf_sim (cap : Q) (es es' : list Entry) :
  Forall2 (sameEntry c) es es' ->
  weightOf cap es' == c * weightOf cap es.
Proof.
  intro H. unfold weightOf, receiversOf.
  rewrite !sumBy_filter, !sumBy_map.
  rewrite Qmult_comm, <- sumBy_scale. symmetry.
  apply sumBy_Forall2.
  apply (Forall2_weaken (sameEntry c)); [| exact H].
  intros e e' _ _ He.
  destruct (clipTo_sim cap e e' He) as (_ & Ha & Hb).
  rewrite (ltb_compat _ _ cap cap Ha (Qeq_refl cap)).
  destruct (JS.ltb (alloc (clipTo cap e')) cap); [rewrite Hb |]; ring.
Qed.

Lemma sim_nonneg (es es' : list Entry) :
  Forall2 (sameEntry c) es es' ->
  (forall e, In e es -> 0 <= boosted e) ->
  forall e', In e' es' -> 0 <= boosted e'.
Proof.
  intros H Hpos e' He'.
  destruct (Forall2_In_r _ _ _ e' H He') as (e & He & _ & _ & Hb).
  specialize (Hpos e He). rewrite Hb. nra.
Qed.

Lemma capPass_sim (opts opts' : Opts) (budget : Q) (es es' : list Entry) :
  maxShare opts = maxShare opts' ->
  (forall e, In e es -> 0 <= boosted e) ->
  Forall2 (sameEntry c) es es' ->
  Forall2 (sameEntry c) (capPass opts budget es) (capPass opts' budget es').
Proof.
  intros Hm Hpos H.
  pose proof (sim_nonneg es es' H Hpos) as Hpos'.
  destruct (capPass_cases opts budget es) as (x & Hx & ->).
  destruct (capPass_cases opts' budget es') as (x' & Hx' & ->).
  assert (Ecap : pageCapOf opts' = pageCapOf opts)
    by (unfold pageCapOf; rewrite Hm; reflexivity).
  rewrite Ecap in *. set (cap := budget * pageCapOf opts) in *.
  assert (Ex : x == x').
  { rewrite Hx, Hx'. apply sumBy_Forall2.
    apply (Forall2_weaken (sameEntry c)); [| exact H].
    intros e e' _ _ He. apply overshoot_sim. exact He. }
  rewrite <- (ltb_compat 0 0 x x' (Qeq_refl 0) Ex).
  assert (Hr : Forall2 (sameEntry c) (map (clipTo cap) es)
                 (map (clipTo cap) es')).
  { apply Forall2_map.
    apply (Forall2_weaken (sameEntry c)); [| exact H].
    intros e e' _ _ He. apply clipTo_sim. exact He. }
  destruct (JS.ltb 0 x); [| exact Hr].
  apply Forall2_map.
  apply (Forall2_weaken (sameEntry c)); [| exact Hr].
  intros e e' He He' (Hn & Ha & Hb).
  destruct (receive_keeps cap
              (JS.orElse (weightOf cap es) (JS.len (receiversOf cap es)))
              (JS.len (receiversOf cap es)) x e) as [Kn Kb].
  destruct (receive_keeps cap
              (JS.orElse (weightOf cap es') (JS.len (receiversOf cap es')))
              (JS.len (receiversOf cap es')) x' e') as [Kn' Kb'].
  split; [rewrite Kn, Kn'; exact Hn |].
  split; [| rewrite Kb, Kb'; exact Hb].
  rewrite (received_alloc cap x es e Hpos He).
  rewrite (received_alloc cap x' es' e' Hpos' He').
  pose proof (weightOf_sim cap es es' H) as EW.
  rewrite (ltb_compat _ _ cap cap Ha (Qeq_refl cap)).
  assert (ET : JS.truthy (weightOf cap es') = JS.truthy (weightOf cap es)).
  { apply eq_true_iff_eq. rewrite !truthy_true, EW.
    split; intros N E; apply N; nra. }
  rewrite ET.
  destruct (JS.ltb (alloc e') cap); [| rewrite Ha; ring].
  destruct (JS.truthy (weightOf cap es)) eqn:T; [| rewrite Ha; ring].
  apply truthy_true in T.
  rewrite Ha, Hb, EW, Ex. field. split; [exact T | lra].
Qed.

End PageCongruence.

(** ** [allocateBudget]: from the scores to the result *)

Section PageResults.
Import Page Props Change.

Lemma Forall2_map_r {A B : Type} (R : A -> B -> Prop) (f : A -> B)
    (l : list A) :
  (forall x, In x l -> R x (f x)) -> Forall2 R l (map f l).
Proof.
  induction l as [| x l IH]; intro H; simpl; constructor.
  - apply H. left. reflexivity.
  - apply IH. intros y Hy. apply H. right. exact Hy.
Qed.

Lemma Forall2_map_r3 {A B C D : Type} (R : A -> D -> Prop) (g1 : A -> B)
    (g2 : B -> C) (f : C -> D) (l : list A) :
  (forall x, In x l -> R x (f (g2 (g1 x)))) ->
  Forall2 R l (map f (map g2 (map g1 l))).
Proof. intro H. rewrite !map_map. apply Forall2_map_r. exact H. Qed.

Lemma pageTotal_pos_branch (scores : list (string * Q)) (budget : Q)
    (opts : Opts) :
  0 < pageTotal scores opts ->
  settled scores budget opts
  = capPass opts budget
      (floorPass opts
         (proportional (pageTotal scores opts) budget
            (map (boost opts) scores))).
Proof.
  intro H. unfold settled. fold (pageTotal scores opts).
  rewrite (proj2 (leb_gt _ _) H). reflexivity.
Qed.

Lemma result_sim_page (c : Q) (scores scores' : list (string * Q))
    (budget : Q) (opts opts' : Opts) :
  Forall2 (sameEntry c) (settled scores budget opts)
          (settled scores' budget opts') ->
  sameResult (allocateBudget scores budget opts)
             (allocateBudget scores' budget opts').
Proof.
  intro H. unfold sameResult. rewrite !allocateBudget_settled.
  assert (Es : JS.sumBy alloc (settled scores budget opts)
               == JS.sumBy alloc (settled scores' budget opts')).
  { apply sumBy_Forall2.
    apply (Forall2_weaken (sameEntry c)); [| exact H].
    intros e e' _ _ (_ & Ha & _). exact Ha. }
  apply Forall2_map.
  apply (Forall2_weaken (sameEntry c)); [| exact H].
  intros e e' _ _ (Hn & Ha & _). split; cbn [fst snd]; [exact Hn |].
  rewrite (orElse_compat _ _ 1 1 Es (Qeq_refl 1)), Ha. reflexivity.
Qed.

Lemma settled_sim (c : Q) (scores scores' : list (string * Q))
    (budget : Q) (opts opts' : Opts) :
  0 < c ->
  minEuro opts = minEuro opts' -> maxShare opts = maxShare opts' ->
  (forall p, In p scores -> 0 <= boosted (boost opts p)) ->
  Forall2 (sameEntry c) (map (boost opts) scores)
          (map (boost opts') scores') ->
  Forall2 (sameEntry c) (settled scores budget opts)
          (settled scores' budget opts').
Proof.
  intros Hc Hm Hs Hpos H. unfold settled.
  set (es := map (boost opts) scores) in *.
  set (es' := map (boost opts') scores') in *.
  assert (Hpos_es : forall e, In e es -> 0 <= boosted e).
  { intros e He. apply in_map_iff in He. destruct He as (p & <- & Hp).
    apply Hpos. exact Hp. }
  assert (ET : JS.sumBy boosted es' == c * JS.sumBy boosted es).
  { rewrite Qmult_comm, <- sumBy_scale. symmetry. apply sumBy_Forall2.
    apply (Forall2_weaken (sameEntry c)); [| exact H].
    intros e e' _ _ (_ & _ & Hb). rewrite Hb. ring. }
  assert (EB : Qle_bool (JS.sumBy boosted es') 0
               = Qle_bool (JS.sumBy boosted es) 0).
  { apply eq_true_iff_eq. rewrite !Qle_bool_iff, ET. split; intro; nra. }
  rewrite EB. destruct (Qle_bool (JS.sumBy boosted es) 0) eqn:B.
  - rewrite <- Hm, <- (Forall2_length_len _ _ _ H).
    apply Forall2_map.
    apply (Forall2_weaken (sameEntry c)); [| exact H].
    intros e e' _ _ (Hn & _ & Hb).
    split; [exact Hn |]. split; [reflexivity | exact Hb].
  - apply leb_gt in B.
    apply (capPass_sim c Hc); [exact Hs | |].
    + intros e He.
      destruct (floor_low opts _ e He) as (e1 & He1 & -> & _).
      destruct (proportional_alloc _ _ _ e1 He1) as (_ & e0 & He0 & ->).
      apply Hpos_es. exact He0.
    + apply (floorPass_sim c); [exact Hm |].
      unfold proportional. apply Forall2_map.
      apply (Forall2_weaken (sameEntry c)); [| exact H].
      intros e e' _ _ (Hn & _ & Hb).
      repeat split; cbn [setAlloc name alloc boosted]; try assumption.
      rewrite Hb, ET. field. split; lra.
Qed.

Lemma floorPass_idle (opts : Opts) (es : list Entry) :
  (forall e, In e es -> minEuro opts <= alloc e) -> floorPass opts es = es.
Proof.
  intro H. destruct (floorPass_cases opts es) as (d & Hd & ->).
  assert (Hr : map (raiseTo (minEuro opts)) es = es).
  { rewrite <- (map_id es) at 2. apply map_ext_in. intros e He.
    unfold raiseTo. rewrite (proj2 (ltb_ge _ _) (H e He)). reflexivity. }
  assert (Hz : d == 0).
  { rewrite Hd, <- (sumBy_zero es). apply sumBy_ext. intros e He.
    unfold shortfall. rewrite (proj2 (ltb_ge _ _) (H e He)). reflexivity. }
  assert (Hl : JS.ltb 0 d = false) by (apply ltb_ge; lra).
  rewrite Hl. exact Hr.
Qed.

Lemma capPass_idle (opts : Opts) (budget : Q) (es : list Entry) :
  (forall e, In e es -> alloc e <= budget * pageCapOf opts) ->
  capPass opts budget es = es.
Proof.
  intro H. destruct (capPass_cases opts budget es) as (x & Hx & ->).
  assert (Hr : map (clipTo (budget * pageCapOf opts)) es = es).
  { rewrite <- (map_id es) at 2. apply map_ext_in. intros e He.
    unfold clipTo. rewrite (proj2 (ltb_ge _ _) (H e He)). reflexivity. }
  assert (Hz : x == 0).
  { rewrite Hx, <- (sumBy_zero es). apply sumBy_ext. intros e He.
    unfold overshoot. rewrite (proj2 (ltb_ge _ _) (H e He)). reflexivity. }
  assert (Hl : JS.ltb 0 x = false) by (apply ltb_ge; lra).
  rewrite Hl. exact Hr.
Qed.

Lemma proportional_nonneg (scores : list (string * Q)) (budget : Q)
    (opts : Opts) (e : Entry) :
  0 <= budget -> 0 <= ruralUplift opts -> 0 < pageTotal scores opts ->
  In e (proportional (pageTotal scores opts) budget
          (map (boost opts) scores)) ->
  0 <= alloc e <= budget.
Proof.
  intros HB Hu HT He.
  destruct (proportional_alloc _ _ _ e He) as (Ea & e0 & He0 & Eb).
  assert (Hpos : forall e1, In e1 (map (boost opts) scores) ->
                            0 <= boosted e1).
  { intros e1 H1. apply in_map_iff in H1. destruct H1 as (p & <- & _).
    apply boost_nonneg. exact Hu. }
  pose proof (Hpos e0 He0) as H0.
  pose proof (sumBy_member boosted _ e0 Hpos He0) as Hle.
  fold (pageTotal scores opts) in Hle. rewrite <- Eb in H0, Hle.
  assert (Hq : 0 <= boosted e / pageTotal scores opts <= 1).
  { split.
    - apply Qle_shift_div_l; [exact HT | lra].
    - apply Qle_shift_div_r; [exact HT | lra]. }
  rewrite Ea. split; nra.
Qed.

Lemma settled_unfloored (scores : list (string * Q)) (budget : Q)
    (opts : Opts) :
  0 <= budget -> minEuro opts <= 0 -> 0 <= ruralUplift opts ->
  0 < pageTotal scores opts ->
  settled scores budget opts
  = capPass opts budget
      (proportional (pageTotal scores opts) budget
         (map (boost opts) scores)).
Proof.
  intros HB Hm Hu HT. rewrite (pageTotal_pos_branch _ _ _ HT).
  rewrite floorPass_idle; [reflexivity |].
  intros e He.
  pose proof (proportional_nonneg scores budget opts e HB Hu HT He). lra.
Qed.

Lemma boost_zero (opts : Opts) (p : string * Q) :
  snd p <= 0 -> boosted (boost opts p) == 0.
Proof.
  intro H. unfold boost. cbn [boosted].
  assert (E : JS.max 0 (snd p) == 0)
    by (destruct (max_cases 0 (snd p)) as [[H' ->] | [H' ->]]; lra).
  destruct (inRuralSet opts (fst p)); rewrite E; ring.
Qed.

Lemma boost_scaled (c : Q) (opts : Opts) (p : string * Q) :
  0 < c ->
  sameEntry c (boost opts p) (boost opts (fst p, c * snd p)).
Proof.
  intro Hc. unfold boost. cbn [fst snd].
  repeat split; cbn [name alloc boosted]; try reflexivity.
  assert (E : JS.max 0 (c * snd p) == c * JS.max 0 (snd p)).
  { destruct (max_cases 0 (snd p)) as [[H ->] | [H ->]];
      destruct (max_cases 0 (c * snd p)) as [[H' ->] | [H' ->]]; nra. }
  destruct (inRuralSet opts (fst p)); rewrite E; ring.
Qed.

End PageResults.

(** ** Properties of [allocateBudget] *)

(** X14. [allocateBudget] returns an amount for every key of [scores] and
    for no other key, in the order of the keys. *)
Theorem allocateBudget_keys (scores : list (string * Q)) (budget : Q)
    (opts : Page.Opts) :
  map fst (Page.allocateBudget scores budget opts) = map fst scores.
Proof. apply allocateBudget_names. Qed.

(** X15. With a budget of zero [allocateBudget] gives every region 0,
    whatever the floor: the final renormalization multiplies every amount
    by [budget / sum]. *)
Theorem zero_budget_allocates_nothing (scores : list (string * Q))
    (budget : Q) (opts : Page.Opts) (p : string * Q) :
  budget == 0 ->
  In p (Page.allocateBudget scores budget opts) ->
  snd p == 0.
Proof.
  intros Hb Hp. rewrite allocateBudget_settled in Hp.
  apply in_map_iff in Hp. destruct Hp as (e & <- & _). cbn [snd].
  set (S := JS.orElse _ 1). clearbody S.
  rewrite Hb. unfold Qdiv. ring.
Qed.

Lemma zero_budget_allocates_nothing_witness :
  let res := Page.allocateBudget [("a"%string, 1); ("b"%string, 3)] 0
               Scenario.floorTen in
  0 == 0 /\ In (hd (EmptyString, 0) res) res
  /\ snd (hd (EmptyString, 0) res) == 0.
Proof.
  intro res.
  assert (H1 : 0 == 0) by reflexivity.
  assert (H2 : In (hd (EmptyString, 0) res) res)
    by (vm_compute; left; reflexivity).
  split; [exact H1 |]. split; [exact H2 |].
  exact (zero_budget_allocates_nothing
           [("a"%string, 1); ("b"%string, 3)] 0 Scenario.floorTen
           (hd (EmptyString, 0) res) H1 H2).
Defined.

(** X16. Without an effective floor and cap [allocateBudget] is
    proportional: with a budget and an uplift that are not negative, a
    floor of zero or less, a maximum share of 0 (which [opts.maxShare || 1]
    turns into 1) or of at least 1, and boosted scores of positive total,
    every region gets its boosted score divided by the total, times the
    budget. *)
Theorem proportional_without_floor_and_cap (scores : list (string * Q))
    (budget : Q) (opts : Page.Opts) :
  0 <= budget -> Page.minEuro opts <= 0 -> 0 <= Page.ruralUplift opts ->
  Page.maxShare opts == 0 \/ 1 <= Page.maxShare opts ->
  0 < Props.pageTotal scores opts ->
  Forall2
    (fun p q =>
       fst q = fst p
       /\ snd q == Page.boosted (Page.boost opts p)
                   / Props.pageTotal scores opts * budget)
    scores (Page.allocateBudget scores budget opts).
Proof.
  intros HB Hm Hu Hs HT.
  assert (Hcap : Props.pageCapOf opts == 1).
  { unfold Props.pageCapOf.
    destruct (orElse_cases (Page.maxShare opts) 1) as [[Z ->] | [NZ ->]].
    - reflexivity.
    - destruct Hs as [Z | H1]; [contradiction |].
      destruct (min_cases 1 (Page.maxShare opts)) as [[H ->] | [H ->]];
        [reflexivity | lra]. }
  assert (Eset : Props.settled scores budget opts
                 = Props.proportional (Props.pageTotal scores opts) budget
                     (map (Page.boost opts) scores)).
  { rewrite (settled_unfloored _ _ _ HB Hm Hu HT).
    apply capPass_idle. intros e He.
    pose proof (proportional_nonneg scores budget opts e HB Hu HT He).
    rewrite Hcap. lra. }
  assert (Esum : JS.sumBy Page.alloc (Props.settled scores budget opts)
                 == budget).
  { rewrite Eset. apply proportional_sum; [| reflexivity].
    fold (Props.pageTotal scores opts). lra. }
  rewrite allocateBudget_settled.
  set (S := JS.orElse _ 1).
  assert (HS : budget * (budget / S) == budget).
  { unfold S.
    destruct (orElse_cases
                (JS.sumBy Page.alloc (Props.settled scores budget opts)) 1)
      as [[Z ->] | [NZ ->]].
    - rewrite Esum in Z. rewrite Z. reflexivity.
    - rewrite Esum in *. field. exact NZ. }
  clearbody S. rewrite Eset. unfold Props.proportional.
  rewrite !map_map. apply Forall2_map_r. intros p _.
  cbn [Page.setAlloc Page.name Page.alloc fst snd]. split; [reflexivity |].
  rewrite <- Qmult_assoc, HS. reflexivity.
Qed.

Lemma proportional_without_floor_and_cap_witness :
  let opts := Page.mkOpts 0 0 0 None in
  let scores := [("a"%string, 1); ("b"%string, 3)] in
  0 <= 100 /\ Page.minEuro opts <= 0 /\ 0 <= Page.ruralUplift opts
  /\ (Page.maxShare opts == 0 \/ 1 <= Page.maxShare opts)
  /\ 0 < Props.pageTotal scores opts
  /\ Forall2
       (fun p q =>
          fst q = fst p
          /\ snd q == Page.boosted (Page.boost opts p)
                      / Props.pageTotal scores opts * 100)
       scores (Page.allocateBudget scores 100 opts).
Proof.
  intros opts scores.
  assert (H1 : 0 <= 100) by (vm_compute; discriminate).
  assert (H2 : Page.minEuro opts <= 0) by (vm_compute; discriminate).
  assert (H3 : 0 <= Page.ruralUplift opts) by (vm_compute; discriminate).
  assert (H4 : Page.maxShare opts == 0 \/ 1 <= Page.maxShare opts)
    by (left; reflexivity).
  assert (H5 : 0 < Props.pageTotal scores opts) by (vm_compute; reflexivity).
  split; [exact H1 |]. split; [exact H2 |]. split; [exact H3 |].
  split; [exact H4 |]. split; [exact H5 |].
  exact (proportional_without_floor_and_cap scores 100 opts H1 H2 H3 H4 H5).
Defined.

(** X17. Without a floor, a region whose score is zero or negative gets
    nothing from [allocateBudget] as soon as some region has a positive
    score: with a budget and an uplift that are not negative and a floor
    of zero or less, its amount is 0, whatever the cap. *)
Theorem no_score_no_money (scores : list (string * Q)) (budget : Q)
    (opts : Page.Opts) :
  0 <= budget -> Page.minEuro opts <= 0 -> 0 <= Page.ruralUplift opts ->
  0 < Props.pageTotal scores opts ->
  Forall2 (fun p q => fst q = fst p /\ (snd p <= 0 -> snd q == 0))
          scores (Page.allocateBudget scores budget opts).
Proof.
  intros HB Hm Hu HT.
  rewrite allocateBudget_settled.
  set (S := JS.orElse _ 1). clearbody S.
  rewrite (settled_unfloored _ _ _ HB Hm Hu HT).
  set (es := Props.proportional (Props.pageTotal scores opts) budget
               (map (Page.boost opts) scores)).
  assert (Hpos : forall e, In e es -> 0 <= Page.boosted e).
  { intros e He. destruct (proportional_alloc _ _ _ e He)
      as (_ & e0 & He0 & ->).
    apply in_map_iff in He0. destruct He0 as (p & <- & _).
    apply boost_nonneg. exact Hu. }
  assert (Hcap : 0 <= budget * Props.pageCapOf opts).
  { apply Qmult_le_0_compat; [exact HB |]. unfold Props.pageCapOf.
    apply max_lower_l. }
  destruct (capPass_cases opts budget es) as (x & Hx & ->).
  set (cap := budget * Props.pageCapOf opts) in *.
  assert (Hkeep : forall p, In p scores ->
            let e := Page.setAlloc (Page.boost opts p)
                       (Page.boosted (Page.boost opts p)
                        / Props.pageTotal scores opts * budget) in
            In e es /\ Page.name e = fst p
            /\ (snd p <= 0 ->
                Page.boosted e == 0 /\ Page.alloc e == 0
                /\ Props.clipTo cap e = e)).
  { intros p Hp e. split; [| split].
    - unfold es, Props.proportional. rewrite map_map.
      apply in_map_iff. exists p. split; [reflexivity | exact Hp].
    - reflexivity.
    - intro Hz. pose proof (boost_zero opts p Hz) as Eb.
      assert (Ea : Page.alloc e == 0).
      { unfold e. cbn [Page.setAlloc Page.alloc]. rewrite Eb.
        unfold Qdiv. ring. }
      split; [exact Eb |]. split; [exact Ea |].
      apply clipTo_alloc. rewrite Ea. exact Hcap. }
  destruct (JS.ltb 0 x).
  - rewrite !map_map. apply Forall2_map_r3. intros p Hp.
    destruct (Hkeep p Hp) as (He & Hn & Hz).
    cbv zeta in He, Hn, Hz.
    set (e := Page.setAlloc (Page.boost opts p)
                (Page.boosted (Page.boost opts p)
                 / Props.pageTotal scores opts * budget)) in *.
    cbn [fst snd]. split.
    + rewrite (proj1 (receive_keeps _ _ _ _ _)).
      rewrite (proj1 (clipTo_keeps _ _)). exact Hn.
    + intro Hle. destruct (Hz Hle) as (Eb & Ea & Ec). rewrite Ec.
      rewrite (received_alloc cap x es e Hpos).
      * destruct (JS.ltb (Page.alloc e) cap);
          [destruct (JS.truthy (Props.weightOf cap es)) |];
          rewrite Ea; try rewrite Eb; unfold Qdiv; ring.
      * rewrite <- Ec. apply in_map. exact He.
  - rewrite !map_map. apply Forall2_map_r3. intros p Hp.
    destruct (Hkeep p Hp) as (He & Hn & Hz).
    cbv zeta in He, Hn, Hz.
    set (e := Page.setAlloc (Page.boost opts p)
                (Page.boosted (Page.boost opts p)
                 / Props.pageTotal scores opts * budget)) in *.
    cbn [fst snd]. split.
    + rewrite (proj1 (clipTo_keeps _ _)). exact Hn.
    + intro Hle. destruct (Hz Hle) as (Eb & Ea & Ec). rewrite Ec, Ea.
      ring.
Qed.

Lemma no_score_no_money_witness :
  let scores := [("a"%string, 0); ("b"%string, 3); ("c"%string, 6)] in
  0 <= 100 /\ Page.minEuro Scenario.capped <= 0
  /\ 0 <= Page.ruralUplift Scenario.capped
  /\ 0 < Props.pageTotal scores Scenario.capped
  /\ Forall2 (fun p q => fst q = fst p /\ (snd p <= 0 -> snd q == 0))
             scores (Page.allocateBudget scores 100 Scenario.capped).
Proof.
  intro scores.
  assert (H1 : 0 <= 100) by (vm_compute; discriminate).
  assert (H2 : Page.minEuro Scenario.capped <= 0)
    by (vm_compute; discriminate).
  assert (H3 : 0 <= Page.ruralUplift Scenario.capped)
    by (vm_compute; discriminate).
  assert (H4 : 0 < Props.pageTotal scores Scenario.capped)
    by (vm_compute; reflexivity).
  split; [exact H1 |]. split; [exact H2 |]. split; [exact H3 |].
  split; [exact H4 |].
  exact (no_score_no_money scores 100 Scenario.capped H1 H2 H3 H4).
Defined.

(** X18. Only the proportions of the scores matter to [allocateBudget].
    Let the uplift and the floor be not negative, the floor one that the
    budget can pay to every region, and the cap 100% (a maximum share of
    at least 1, or of 0, which the source reads as 1): then multiplying
    every score by the same factor [c > 0] leaves every amount as it is.
    Under a lower cap the source decides by comparing a computed amount
    with the cap, which in binary64 arithmetic an amount at the cap may
    pass either way; the statement is not made there. *)
Theorem score_scale_invariance (c : Q) (scores : list (string * Q))
    (budget : Q) (opts : Page.Opts) :
  0 < c -> 0 <= Page.ruralUplift opts ->
  0 <= Page.minEuro opts ->
  Page.minEuro opts * JS.len scores <= budget ->
  Page.maxShare opts == 0 \/ 1 <= Page.maxShare opts ->
  Change.sameResult
    (Page.allocateBudget scores budget opts)
    (Page.allocateBudget (Change.scaleScores c scores) budget opts).
Proof.
  intros Hc Hu _ _ _. apply (result_sim_page c).
  apply settled_sim; try reflexivity; [exact Hc | |].
  - intros p _. apply boost_nonneg. exact Hu.
  - unfold Change.scaleScores. rewrite map_map.
    apply Forall2_map_same. intros p _. apply boost_scaled. exact Hc.
Qed.

Lemma score_scale_invariance_witness :
  let scores := [("a"%string, 1); ("b"%string, 7); ("c"%string, 12)] in
  0 < 5 /\ 0 <= Page.ruralUplift Scenario.floorTen
  /\ 0 <= Page.minEuro Scenario.floorTen
  /\ Page.minEuro Scenario.floorTen * JS.len scores <= 100
  /\ 1 <= Page.maxShare Scenario.floorTen
  /\ Change.sameResult
       (Page.allocateBudget scores 100 Scenario.floorTen)
       (Page.allocateBudget (Change.scaleScores 5 scores) 100
          Scenario.floorTen).
Proof.
  intro scores.
  assert (H1 : 0 < 5) by reflexivity.
  assert (H2 : 0 <= Page.ruralUplift Scenario.floorTen)
    by (vm_compute; discriminate).
  assert (H3 : 0 <= Page.minEuro Scenario.floorTen)
    by (vm_compute; discriminate).
  assert (H4 : Page.minEuro Scenario.floorTen * JS.len scores <= 100)
    by (vm_compute; discriminate).
  assert (H5 : 1 <= Page.maxShare Scenario.floorTen)
    by (vm_compute; discriminate).
  split; [exact H1 |]. split; [exact H2 |]. split; [exact H3 |].
  split; [exact H4 |]. split; [exact H5 |].
  exact (score_scale_invariance 5 scores 100 Scenario.floorTen
           H1 H2 H3 H4 (or_intror H5)).
Defined.

(** X19. The rural uplift works only through the contrast between rural
    and other regions.  Let the uplift and the floor be not negative, the
    floor one that the budget can pay to every region, and the cap 100% (a
    maximum share of at least 1, or of 0, which the source reads as 1):
    when every key of [scores] is in the rural set, the uplift changes no
    amount.  Under a lower cap the source decides by comparing a computed
    amount with the cap, which in binary64 arithmetic an amount at the cap
    may pass either way; the statement is not made there. *)
Theorem uplift_of_all_regions_is_neutral (scores : list (string * Q))
    (budget : Q) (opts : Page.Opts) :
  0 <= Page.ruralUplift opts ->
  (forall p, In p scores -> Page.inRuralSet opts (fst p) = true) ->
  0 <= Page.minEuro opts ->
  Page.minEuro opts * JS.len scores <= budget ->
  Page.maxShare opts == 0 \/ 1 <= Page.maxShare opts ->
  Change.sameResult
    (Page.allocateBudget scores budget (Change.withUplift 0 opts))
    (Page.allocateBudget scores budget opts).
Proof.
  intros Hu Hall _ _ _.
  apply (result_sim_page (1 + Page.ruralUplift opts)).
  apply settled_sim; try reflexivity; [lra | |].
  - intros p _. apply boost_nonneg. cbn. lra.
  - apply Forall2_map_same. intros p Hp.
    unfold Page.boost, Change.sameEntry.
    change (Page.inRuralSet (Change.withUplift 0 opts) (fst p))
      with (Page.inRuralSet opts (fst p)).
    rewrite (Hall p Hp). cbn [Page.name Page.alloc Page.boosted].
    cbn [Change.withUplift Page.ruralUplift].
    repeat split; try reflexivity. ring.
Qed.

Lemma uplift_of_all_regions_is_neutral_witness :
  let opts := Page.mkOpts 1 10 (1 # 4) (Some ["a"%string; "b"%string]) in
  let scores := [("a"%string, 1); ("b"%string, 19)] in
  0 <= Page.ruralUplift opts
  /\ 0 <= Page.minEuro opts
  /\ Page.minEuro opts * JS.len scores <= 100
  /\ 1 <= Page.maxShare opts
  /\ Change.sameResult
       (Page.allocateBudget scores 100 (Change.withUplift 0 opts))
       (Page.allocateBudget scores 100 opts).
Proof.
  intros opts scores.
  assert (H1 : 0 <= Page.ruralUplift opts) by (vm_compute; discriminate).
  assert (H2 : forall p, In p scores ->
                         Page.inRuralSet opts (fst p) = true).
  { intros p [<- | [<- | []]]; reflexivity. }
  assert (H3 : 0 <= Page.minEuro opts) by (vm_compute; discriminate).
  assert (H4 : Page.minEuro opts * JS.len scores <= 100)
    by (vm_compute; discriminate).
  assert (H5 : 1 <= Page.maxShare opts) by (vm_compute; discriminate).
  split; [exact H1 |]. split; [exact H3 |]. split; [exact H4 |].
  split; [exact H5 |].
  exact (uplift_of_all_regions_is_neutral scores 100 opts
           H1 H2 H3 H4 (or_intror H5)).
Defined.

(** ** The table of the page *)

Section TableFacts.
Import PageTable.

Lemma insertRow_perm (a : OutRow) (l : list OutRow) :
  Permutation (insertRow a l) (a :: l).
Proof.
  induction l as [| b l IH]; simpl.
  - apply Permutation_refl.
  - destruct (Qle_bool (euros b - euros a) 0).
    + apply Permutation_refl.
    + eapply perm_trans; [apply perm_skip; exact IH | apply perm_swap].
Qed.

Lemma sortRows_perm (l : list OutRow) : Permutation (sortRows l) l.
Proof.
  induction l as [| a l IH]; simpl.
  - apply perm_nil.
  - eapply perm_trans; [apply insertRow_perm | apply perm_skip; exact IH].
Qed.

Lemma insertRow_sorted (a : OutRow) (l : list OutRow) :
  StronglySorted (fun x y => euros y <= euros x) l ->
  StronglySorted (fun x y => euros y <= euros x) (insertRow a l).
Proof.
  induction 1 as [| b l Hs IH Hb]; simpl.
  - constructor; [constructor | constructor].
  - destruct (Qle_bool (euros b - euros a) 0) eqn:E.
    + apply Qle_bool_iff in E.
      constructor; [constructor; assumption |].
      constructor; [lra |].
      rewrite Forall_forall in Hb |- *. intros y Hy.
      specialize (Hb y Hy). lra.
    + apply leb_gt in E.
      constructor; [exact IH |].
      rewrite Forall_forall in Hb |- *. intros y Hy.
      apply (Permutation_in _ (insertRow_perm a l)) in Hy.
      destruct Hy as [<- | Hy]; [lra | apply Hb; exact Hy].
Qed.

Lemma sortRows_sorted (l : list OutRow) :
  StronglySorted (fun x y => euros y <= euros x) (sortRows l).
Proof.
  induction l as [| a l IH]; simpl.
  - constructor.
  - apply insertRow_sorted. exact IH.
Qed.

Lemma LA_LIST_NoDup : NoDup LA_LIST.
Proof.
  assert (E : nodup string_dec LA_LIST = LA_LIST)
    by (vm_compute; reflexivity).
  rewrite <- E. apply NoDup_nodup.
Qed.

Lemma get_in {V : Type} (o : list (string * V)) (k : string) :
  In k (map fst o) -> exists v, get o k = Some v /\ In (k, v) o.
Proof.
  intro H. unfold get.
  destruct (find (fun x => String.eqb (fst x) k) o) as [[k' v] |] eqn:E.
  - apply find_some in E. destruct E as [Hin Hk]. cbn [fst] in Hk.
    apply String.eqb_eq in Hk. subst k'. exists v.
    split; [reflexivity | exact Hin].
  - exfalso. apply in_map_iff in H. destruct H as (p & Hp & Hin).
    pose proof (find_none _ _ E p Hin) as N. cbv beta in N.
    rewrite Hp, String.eqb_refl in N. discriminate N.
Qed.

Lemma get_own {V : Type} (o : list (string * V)) (k : string) (v : V) :
  NoDup (map fst o) -> In (k, v) o -> get o k = Some v.
Proof.
  intros Hnd Hin. unfold get. rewrite (find_key o k v Hnd Hin). reflexivity.
Qed.

(** Reading an object at each of its keys gives each of its values. *)
Lemma sum_over_keys (o : list (string * Q)) (ks : list string) :
  NoDup (map fst o) -> Permutation ks (map fst o) ->
  JS.sumBy (fun k => JS.nullish (get o k) 0) ks == JS.sumBy snd o.
Proof.
  intros Hnd Hp. rewrite (sumBy_perm _ _ _ Hp), sumBy_map.
  apply sumBy_ext. intros [k v] Hin. cbn [fst snd].
  rewrite (get_own o k v Hnd Hin). reflexivity.
Qed.

Lemma fallback_keys (hosp : list (string * HospRow)) :
  map fst (fallback hosp) = LA_LIST.
Proof.
  unfold fallback. rewrite map_map. cbn [fst]. apply map_id.
Qed.

Lemma out_perm hosp server budget ruralUplift maxShare minEuro :
  exists f,
    Permutation (out hosp server budget ruralUplift maxShare minEuro)
                (map f LA_LIST)
    /\ (forall k, la (f k) = k)
    /\ (forall k,
          euros (f k)
          = JS.nullish
              (get (Page.allocateBudget
                      (match server with
                       | Some s => s
                       | None => fallback hosp
                       end) budget
                      (Page.mkOpts maxShare minEuro ruralUplift
                                   (Some ruralSet))) k) 0)
    /\ (forall k, share (f k) = euros (f k) / JS.max 1 budget).
Proof.
  eexists. split; [unfold out; apply sortRows_perm |].
  split; [| split]; intro k; reflexivity.
Qed.

Lemma inv_none (h : HospRow) :
  JS.nullish (hospitals_per_100k_65 h) 0 <= 0 -> hospitals_total h <= 0 ->
  inv h = 0.
Proof.
  intros Ha Ht. unfold inv.
  rewrite (proj2 (ltb_ge 0 (hospitals_total h)) Ht), andb_false_r.
  destruct (hospitals_per_100k_65 h) as [v |]; [| reflexivity].
  cbn [JS.nullish] in Ha.
  rewrite (proj2 (ltb_ge 0 v) Ha), andb_false_r. reflexivity.
Qed.

End TableFacts.

(** ** Properties of the table *)

(** X20. The table always has one row for each of the 31 local authorities
    of [LA_LIST] and no other row, whatever keys the scores of the backend
    have, and its rows are in descending order of [euros]. *)
Theorem table_rows (hosp : list (string * PageTable.HospRow))
    (server : option (list (string * Q)))
    (budget ruralUplift maxShare minEuro : Q) :
  let rows :=
    PageTable.out hosp server budget ruralUplift maxShare minEuro in
  Permutation (map PageTable.la rows) PageTable.LA_LIST
  /\ StronglySorted (fun x y => PageTable.euros y <= PageTable.euros x) rows.
Proof.
  intro rows. unfold rows. split.
  - destruct (out_perm hosp server budget ruralUplift maxShare minEuro)
      as (f & Hp & Hla & _).
    eapply perm_trans; [apply Permutation_map; exact Hp |].
    rewrite map_map. rewrite (map_ext _ (fun la => la) Hla), map_id.
    apply Permutation_refl.
  - apply sortRows_sorted.
Qed.

(** X21. The allocated total the page shows is the budget, and the shares
    of the table add up to [budget / max(1, budget)], whenever the scores
    are the fallback scores or scores of the backend whose keys are the 31
    local authorities, for a positive budget and a floor, a maximum share
    and an uplift that are not negative. *)
Theorem table_total (hosp : list (string * PageTable.HospRow))
    (server : option (list (string * Q)))
    (budget ruralUplift maxShare minEuro : Q) :
  0 < budget -> 0 <= minEuro -> 0 <= maxShare -> 0 <= ruralUplift ->
  (forall s, server = Some s ->
             Permutation (map fst s) PageTable.LA_LIST) ->
  let rows :=
    PageTable.out hosp server budget ruralUplift maxShare minEuro in
  PageTable.total rows == budget
  /\ JS.sumBy PageTable.share rows == budget / JS.max 1 budget.
Proof.
  intros HB Hm Hs Hu Hkeys rows. unfold rows.
  destruct (out_perm hosp server budget ruralUplift maxShare minEuro)
    as (f & Hp & _ & He & Hsh).
  set (scores := match server with
                 | Some s => s
                 | None => PageTable.fallback hosp
                 end) in *.
  set (opts := Page.mkOpts maxShare minEuro ruralUplift
                 (Some PageTable.ruralSet)) in *.
  assert (Hk : Permutation (map fst scores) PageTable.LA_LIST).
  { unfold scores. destruct server as [s |].
    - apply Hkeys. reflexivity.
    - rewrite fallback_keys. apply Permutation_refl. }
  assert (Hne : scores <> []).
  { intro E. rewrite E in Hk. apply Permutation_nil in Hk.
    discriminate Hk. }
  assert (Hnd : NoDup (map fst (Page.allocateBudget scores budget opts))).
  { rewrite allocateBudget_names.
    apply (Permutation_NoDup (Permutation_sym Hk)). apply LA_LIST_NoDup. }
  assert (Hsum : JS.sumBy PageTable.euros (map f PageTable.LA_LIST)
                 == budget).
  { rewrite sumBy_map.
    rewrite (sumBy_ext _
               (fun la => JS.nullish
                            (PageTable.get
                               (Page.allocateBudget scores budget opts) la)
                            0)).
    - rewrite (sum_over_keys _ _ Hnd).
      + apply renormalized_sum.
        pose proof (settled_sum_pos scores budget opts Hne HB Hm Hs Hu).
        lra.
      + rewrite allocateBudget_names. apply Permutation_sym. exact Hk.
    - intros la _. rewrite He. reflexivity. }
  split.
  - unfold PageTable.total. rewrite (sumBy_perm _ _ _ Hp). exact Hsum.
  - rewrite (sumBy_perm _ _ _ Hp), sumBy_map.
    rewrite (sumBy_ext _ (fun la => PageTable.euros (f la)
                                    * / JS.max 1 budget)).
    + rewrite sumBy_scale. rewrite sumBy_map in Hsum. rewrite Hsum.
      reflexivity.
    + intros la _. rewrite Hsh. reflexivity.
Qed.

Lemma table_total_witness :
  let rows := PageTable.out [] None 117000000 (3 # 20) (3 # 25) 250000 in
  0 < 117000000 /\ 0 <= 250000 /\ 0 <= 3 # 25 /\ 0 <= 3 # 20
  /\ PageTable.total rows == 117000000.
Proof.
  intro rows.
  assert (H1 : 0 < 117000000) by reflexivity.
  assert (H2 : 0 <= 250000) by (vm_compute; discriminate).
  assert (H3 : 0 <= 3 # 25) by (vm_compute; discriminate).
  assert (H4 : 0 <= 3 # 20) by (vm_compute; discriminate).
  assert (H5 : forall s, @None (list (string * Q)) = Some s ->
                         Permutation (map fst s) PageTable.LA_LIST)
    by (intros s E; discriminate E).
  split; [exact H1 |]. split; [exact H2 |]. split; [exact H3 |].
  split; [exact H4 |].
  exact (proj1 (table_total [] None 117000000 (3 # 20) (3 # 25) 250000
                  H1 H2 H3 H4 H5)).
Defined.

(** X22. Without hospital data and without an answer of the backend the
    page splits the budget evenly: when no record of [hosp] has a positive
    access rate or a positive number of sites (as before the CSV has been
    read), every fallback score is 0 and each of the 31 rows shows the
    budget divided by 31, for a positive budget. *)
Theorem no_data_even_split (hosp : list (string * PageTable.HospRow))
    (budget ruralUplift maxShare minEuro : Q) (r : PageTable.OutRow) :
  0 < budget ->
  (forall la h, PageTable.get hosp la = Some h ->
     JS.nullish (PageTable.hospitals_per_100k_65 h) 0 <= 0
     /\ PageTable.hospitals_total h <= 0) ->
  In r (PageTable.out hosp None budget ruralUplift maxShare minEuro) ->
  PageTable.euros r == budget / 31.
Proof.
  intros HB Hno Hr.
  destruct (out_perm hosp None budget ruralUplift maxShare minEuro)
    as (f & Hp & _ & He & _).
  apply (Permutation_in _ Hp) in Hr. apply in_map_iff in Hr.
  destruct Hr as (la & <- & Hla). rewrite He. clear He Hp f.
  set (opts := Page.mkOpts maxShare minEuro ruralUplift
                 (Some PageTable.ruralSet)).
  assert (Hz : forall p, In p (PageTable.fallback hosp) -> snd p = 0).
  { intros p Hp. unfold PageTable.fallback in Hp. apply in_map_iff in Hp.
    destruct Hp as (k & <- & _). cbn [snd].
    destruct (PageTable.get hosp k) as [h |] eqn:E.
    - destruct (Hno k h E) as [Ha Ht].
      apply inv_none; assumption.
    - reflexivity. }
  assert (HT : Props.pageTotal (PageTable.fallback hosp) opts <= 0).
  { unfold Props.pageTotal. rewrite sumBy_map.
    rewrite (sumBy_ext _ (fun _ => 0)); [rewrite sumBy_zero; lra |].
    intros p Hp. apply boost_zero. rewrite (Hz p Hp). lra. }
  assert (Hne : PageTable.fallback hosp <> []) by discriminate.
  assert (Hin : In la (map fst (Page.allocateBudget
                                  (PageTable.fallback hosp) budget opts))).
  { rewrite allocateBudget_names, fallback_keys. exact Hla. }
  destruct (get_in _ la Hin) as (v & -> & Hv). cbn [JS.nullish].
  rewrite (equal_split_value _ budget opts (la, v) Hne HB HT Hv).
  unfold PageTable.fallback. rewrite len_map. reflexivity.
Qed.

Lemma no_data_even_split_witness :
  let rows := PageTable.out [] None 3100 0 0 0 in
  0 < 3100 /\ In (hd (PageTable.mkOutRow EmptyString 0 0 None 0 0) rows) rows
  /\ PageTable.euros (hd (PageTable.mkOutRow EmptyString 0 0 None 0 0) rows)
     == 3100 / 31.
Proof.
  intro rows.
  assert (H1 : 0 < 3100) by reflexivity.
  assert (H2 : forall la h, PageTable.get (@nil (string * PageTable.HospRow))
                              la = Some h ->
                 JS.nullish (PageTable.hospitals_per_100k_65 h) 0 <= 0
                 /\ PageTable.hospitals_total h <= 0)
    by (intros la h E; discriminate E).
  assert (H3 : In (hd (PageTable.mkOutRow EmptyString 0 0 None 0 0) rows)
                  rows)
    by (vm_compute; left; reflexivity).
  split; [exact H1 |]. split; [exact H3 |].
  exact (no_data_even_split [] 3100 0 0 0 _ H1 H2 H3).
Defined.

(** ** [scoreAndAllocate]: the order of the rows *)

Section RowOrder.
Import Mcda Props Change.











Lemma len_cons {A : Type} (x : A) (l : list A) :
  JS.len (x :: l) == JS.len l + 1.
Proof.
  unfold JS.len. cbn [List.length]. rewrite Nat2Z.inj_succ.
  unfold Z.succ. rewrite inject_Z_plus. reflexivity.
Qed.

Lemma sumBy_floor {A : Type} (f : A -> Q) (m : Q) (l : list A) :
  (forall q, In q l -> m <= f q) -> m * JS.len l <= JS.sumBy f l.
Proof.
  intro H. rewrite <- sumBy_const. apply sumBy_le. exact H.
Qed.

Lemma sumBy_others {A : Type} (f : A -> Q) (m : Q) (l : list A) (p : A) :
  (forall q, In q l -> m <= f q) -> In p l ->
  f p + m * (JS.len l - 1) <= JS.sumBy f l.
Proof.
  induction l as [| x l IH]; intros H Hin; [destruct Hin |].
  rewrite sumBy_cons, len_cons.
  assert (Hl : forall q, In q l -> m <= f q)
    by (intros q Hq; apply H; right; exact Hq).
  destruct Hin as [-> | Hin].
  - pose proof (sumBy_floor f m l Hl). nra.
  - pose proof (IH Hl Hin). pose proof (H x (or_introl eq_refl)). nra.
Qed.

End RowOrder.

(** ** The order of the rows, and a bound on the amounts *)



(** X24. An upper bound that [allocateBudget] does keep: with a positive
    budget, a floor, a maximum share and an uplift that are not negative
    and a floor that the budget can pay to every region, no region gets
    more than the budget less the floor of every other region. *)
Theorem amount_upper_bound (scores : list (string * Q)) (budget : Q)
    (opts : Page.Opts) (p : string * Q) :
  0 < budget ->
  0 <= Page.minEuro opts -> 0 <= Page.maxShare opts ->
  0 <= Page.ruralUplift opts ->
  Page.minEuro opts * JS.len scores <= budget ->
  In p (Page.allocateBudget scores budget opts) ->
  snd p <= budget - Page.minEuro opts * (JS.len scores - 1).
Proof.
  intros HB Hm Hs Hu Hfeas Hp.
  assert (Hne : scores <> []).
  { intro E. subst scores. destruct Hp. }
  assert (Hsum : Props.pageSum (Page.allocateBudget scores budget opts)
                 == budget).
  { apply renormalized_sum.
    pose proof (settled_sum_pos scores budget opts Hne HB Hm Hs Hu). lra. }
  assert (Hlen : JS.len (Page.allocateBudget scores budget opts)
                 = JS.len scores).
  { rewrite <- (len_map fst), allocateBudget_names. apply len_map. }
  pose proof (sumBy_others snd (Page.minEuro opts)
                (Page.allocateBudget scores budget opts) p
                (fun q Hq => allocateBudget_floor scores budget opts q
                               Hm Hs Hu Hfeas Hq) Hp) as H.
  unfold Props.pageSum in Hsum. rewrite Hlen in H. lra.
Qed.

Lemma amount_upper_bound_witness :
  let scores := [("a"%string, 1); ("b"%string, 3); ("c"%string, 6)] in
  let opts := Page.mkOpts (2 # 5) 10 0 None in
  let p := hd (EmptyString, 0) (Page.allocateBudget scores 100 opts) in
  0 < 100 /\ Page.minEuro opts * JS.len scores <= 100
  /\ In p (Page.allocateBudget scores 100 opts)
  /\ snd p <= 100 - Page.minEuro opts * (JS.len scores - 1).
Proof.
  intros scores opts p.
  assert (H1 : 0 < 100) by reflexivity.
  assert (H2 : 0 <= Page.minEuro opts) by (vm_compute; discriminate).
  assert (H3 : 0 <= Page.maxShare opts) by (vm_compute; discriminate).
  assert (H4 : 0 <= Page.ruralUplift opts) by (vm_compute; discriminate).
  assert (H5 : Page.minEuro opts * JS.len scores <= 100)
    by (vm_compute; discriminate).
  assert (H6 : In p (Page.allocateBudget scores 100 opts))
    by (vm_compute; left; reflexivity).
  split; [exact H1 |]. split; [exact H5 |]. split; [exact H6 |].
  exact (amount_upper_bound scores 100 opts p H1 H2 H3 H4 H5 H6).
Defined.

(** ** [scoreAndAllocate]: when an inverse indicator is lowered *)

Section Lowered.
Import Mcda Props Change.

(** Order facts on the ranges of an array before and after one of its
    values is lowered. *)
Lemma lowered_ranges (p q : list Q) (v d : Q) :
  0 <= d ->
  let r := rng (p ++ v :: q) in
  let r' := rng (p ++ (v - d) :: q) in
  (rmin r <= v <= rmax r)
  /\ (rmin r' <= v - d <= rmax r')
  /\ (forall y, In y (p ++ q) ->
        rmin r <= y <= rmax r /\ rmin r' <= y <= rmax r')
  /\ rmin r' <= rmin r /\ rmax r' <= rmax r
  /\ (rmax r' == rmax r \/ rmax r == v)
  /\ (rmin r' == rmin r \/ rmin r' == v - d).
Proof.
  intros Hd r r'.
  assert (Hne : p ++ v :: q <> []) by (destruct p; discriminate).
  assert (Hne' : p ++ (v - d) :: q <> []) by (destruct p; discriminate).
  assert (Hv : In v (p ++ v :: q)) by (apply in_middle; left; reflexivity).
  assert (Hv' : In (v - d) (p ++ (v - d) :: q))
    by (apply in_middle; left; reflexivity).
  assert (Hy : forall y, In y (p ++ q) ->
                 In y (p ++ v :: q) /\ In y (p ++ (v - d) :: q)).
  { intros y H. split; apply in_middle; right; exact H. }
  pose proof (rng_bounds _ _ Hv) as Bv.
  pose proof (rng_bounds _ _ Hv') as Bv'.
  assert (By : forall y, In y (p ++ q) ->
                 rmin r <= y <= rmax r /\ rmin r' <= y <= rmax r').
  { intros y H. destruct (Hy y H) as [H1 H2].
    split; [apply (rng_bounds _ _ H1) | apply (rng_bounds _ _ H2)]. }
  fold r in Bv. fold r' in Bv'.
  assert (Hlo : In (rmin r) (p ++ v :: q)).
  { unfold r. rewrite (rng_nonempty _ Hne). apply minOf_in. exact Hne. }
  assert (Hhi : In (rmax r) (p ++ v :: q)).
  { unfold r. rewrite (rng_nonempty _ Hne). apply maxOf_in. exact Hne. }
  assert (Hlo' : In (rmin r') (p ++ (v - d) :: q)).
  { unfold r'. rewrite (rng_nonempty _ Hne'). apply minOf_in. exact Hne'. }
  assert (Hhi' : In (rmax r') (p ++ (v - d) :: q)).
  { unfold r'. rewrite (rng_nonempty _ Hne'). apply maxOf_in. exact Hne'. }
  apply in_middle in Hlo, Hhi, Hlo', Hhi'.
  assert (Hmin : rmin r' <= rmin r).
  { destruct Hlo as [E | H]; [rewrite E; lra | apply (By _ H)]. }
  assert (Hmax : rmax r' <= rmax r).
  { destruct Hhi' as [E | H]; [rewrite E; lra | apply (By _ H)]. }
  repeat split; try lra; try (apply By; assumption).
  - destruct Hhi as [E | H]; [right; rewrite E; reflexivity |].
    left. pose proof (proj2 (proj2 (By _ H))). lra.
  - destruct Hlo' as [E | H]; [right; rewrite E; reflexivity |].
    left. pose proof (proj1 (proj1 (By _ H))). lra.
Qed.

(** Lowering one value of an inverse indicator does not lower the
    normalized score of its region... *)
Lemma mmInv_lowered_own (p q : list Q) (v d : Q) :
  0 <= d ->
  mmInv v (rng (p ++ v :: q)) <= mmInv (v - d) (rng (p ++ (v - d) :: q)).
Proof.
  intro Hd.
  destruct (lowered_ranges p q v d Hd)
    as (Bv & Bv' & _ & Hmin & Hmax & HA & HB).
  set (r := rng (p ++ v :: q)) in *.
  set (r' := rng (p ++ (v - d) :: q)) in *.
  destruct (mmInv_cases v r) as [[Hdeg ->] | [Hnd ->]];
    destruct (mmInv_cases (v - d) r') as [[Hdeg' ->] | [Hnd' ->]].
  - lra.
  - apply Qle_shift_div_l; [lra |]. destruct HB; lra.
  - apply Qle_shift_div_r; [lra |]. destruct HA; lra.
  - apply Qdiv_le_cross; [lra | lra |].
    destruct HA as [EA | EA]; destruct HB as [EB | EB]; nra.
Qed.

(** ... and does not raise that of any other region. *)
Lemma mmInv_lowered_other (p q : list Q) (v d y : Q) :
  0 <= d -> In y (p ++ q) ->
  mmInv y (rng (p ++ (v - d) :: q)) <= mmInv y (rng (p ++ v :: q)).
Proof.
  intros Hd Hy.
  destruct (lowered_ranges p q v d Hd)
    as (Bv & Bv' & By & Hmin & Hmax & HA & HB).
  destruct (By y Hy) as [Hy1 Hy2].
  set (r := rng (p ++ v :: q)) in *.
  set (r' := rng (p ++ (v - d) :: q)) in *.
  destruct (mmInv_cases y r) as [[Hdeg ->] | [Hnd ->]];
    destruct (mmInv_cases y r') as [[Hdeg' ->] | [Hnd' ->]].
  - lra.
  - apply Qle_shift_div_r; [lra |]. lra.
  - apply Qle_shift_div_l; [lra |]. lra.
  - apply Qdiv_le_cross; [lra | lra |].
    assert (0 <= (rmax r - y) * (rmin r - rmin r')) by nra.
    assert (0 <= (rmax r - rmax r') * (y - rmin r)) by nra.
    nra.
Qed.

Lemma lower_keeps (c : Inverse) (d : Q) (r : MCDAInput) (opt : Options) :
  la (lower c d r) = la r
  /\ upliftFactor opt (lower c d r) = upliftFactor opt r.
Proof. destruct c; split; reflexivity. Qed.

Lemma lower_keys (c : Inverse) (d : Q) (pre post : list MCDAInput)
    (r : MCDAInput) :
  map la (pre ++ lower c d r :: post) = map la (pre ++ r :: post).
Proof.
  rewrite !map_app. cbn [map]. destruct c; reflexivity.
Qed.

Ltac split_lowered :=
  rewrite ?map_app; cbn [map lower growth65 oadr dwellingsPer1k65
                         medianIncome grantsPer65].

Lemma score_lowered_own (c : Inverse) (d : Q) (pre post : list MCDAInput)
    (r : MCDAInput) (w : Weights) (opt : Options) :
  0 <= d -> nonnegWeights w ->
  i_score (scoreIn (pre ++ r :: post) w opt r)
  <= i_score (scoreIn (pre ++ lower c d r :: post) w opt (lower c d r)).
Proof.
  intros Hd (_ & _ & Hh & Hi & Hg).
  rewrite (proj2 (scoreIn_factor (pre ++ r :: post) w opt r)).
  rewrite (proj2 (scoreIn_factor (pre ++ lower c d r :: post) w opt
                    (lower c d r))).
  rewrite (proj2 (lower_keeps c d r opt)).
  pose proof (upliftFactor_pos opt r) as Hf.
  unfold weighted.
  apply Qmult_le_compat_r; [| lra].
  destruct c; split_lowered.
  - pose proof (mmInv_lowered_own (map dwellingsPer1k65 pre)
                  (map dwellingsPer1k65 post) (dwellingsPer1k65 r) d Hd).
    nra.
  - pose proof (mmInv_lowered_own (map medianIncome pre)
                  (map medianIncome post) (medianIncome r) d Hd).
    nra.
  - pose proof (mmInv_lowered_own (map grantsPer65 pre)
                  (map grantsPer65 post) (grantsPer65 r) d Hd).
    nra.
Qed.

Lemma score_lowered_other (c : Inverse) (d : Q) (pre post : list MCDAInput)
    (r z : MCDAInput) (w : Weights) (opt : Options) :
  0 <= d -> nonnegWeights w -> In z (pre ++ post) ->
  i_score (scoreIn (pre ++ lower c d r :: post) w opt z)
  <= i_score (scoreIn (pre ++ r :: post) w opt z).
Proof.
  intros Hd (_ & _ & Hh & Hi & Hg) Hz.
  rewrite (proj2 (scoreIn_factor (pre ++ r :: post) w opt z)).
  rewrite (proj2 (scoreIn_factor (pre ++ lower c d r :: post) w opt z)).
  pose proof (upliftFactor_pos opt z) as Hf.
  unfold weighted.
  apply Qmult_le_compat_r; [| lra].
  assert (Hin : forall f : MCDAInput -> Q,
            In (f z) (map f pre ++ map f post)).
  { intro f. rewrite <- map_app. apply in_map. exact Hz. }
  destruct c; split_lowered.
  - pose proof (mmInv_lowered_other (map dwellingsPer1k65 pre)
                  (map dwellingsPer1k65 post) (dwellingsPer1k65 r) d
                  (dwellingsPer1k65 z) Hd (Hin dwellingsPer1k65)).
    nra.
  - pose proof (mmInv_lowered_other (map medianIncome pre)
                  (map medianIncome post) (medianIncome r) d
                  (medianIncome z) Hd (Hin medianIncome)).
    nra.
  - pose proof (mmInv_lowered_other (map grantsPer65 pre)
                  (map grantsPer65 post) (grantsPer65 r) d
                  (grantsPer65 z) Hd (Hin grantsPer65)).
    nra.
Qed.

End Lowered.

(** X25. Let no cap strictly between 0 and 100% be in force: neither
    floor nor cap is configured, or the cap ([capShare], 100% when it is
    absent) is at least 1, or it is 0.  With distinct region keys, weights that are not negative and
    a budget that is not negative, lowering one inverse indicator
    (dwellings per 1,000 aged 65+, median income or grants per person aged
    65+) of one region, all else equal, never lowers the amount that
    [scoreAndAllocate] computes for that region before the final
    [Math.round]; the whole euros returned for it, which the source rounds
    in binary64 arithmetic, never fall by more than one euro. *)
Theorem inverse_monotone (c : Change.Inverse) (d : Q)
    (pre post : list Mcda.MCDAInput) (r : Mcda.MCDAInput)
    (w : Mcda.Weights) (opt : Mcda.Options) (x y : Mcda.Alloc) :
  0 <= d ->
  Props.nonnegWeights w ->
  0 <= Mcda.budgetEUR opt ->
  Props.noPartialCap opt ->
  NoDup (map Mcda.la (pre ++ r :: post)) ->
  In x (Mcda.scoreAndAllocate (pre ++ r :: post) w opt) ->
  Mcda.a_la x = Mcda.la r ->
  In y (Mcda.scoreAndAllocate (pre ++ Change.lower c d r :: post) w opt) ->
  Mcda.a_la y = Mcda.la r ->
  (exists p q,
      In p (Props.exact (pre ++ r :: post) w opt)
      /\ x = Mcda.rounded p
      /\ In q (Props.exact (pre ++ Change.lower c d r :: post) w opt)
      /\ y = Mcda.rounded q
      /\ Mcda.eur p <= Mcda.eur q)
  /\ Mcda.eur x <= Mcda.eur y + 1.
Proof.
  intros Hd Hw HB Hpath Hnd Hx Hxla Hy Hyla.
  apply result_in in Hx. destruct Hx as (p & Hp & ->).
  apply result_in in Hy. destruct Hy as (q & Hq & ->).
  cbn [Mcda.rounded Mcda.a_la Mcda.eur] in *.
  assert (Hle : Mcda.eur p <= Mcda.eur q).
  { apply (replaced_row_mono pre post r (Change.lower c d r) w opt);
      try assumption.
    - apply (proj1 (lower_keeps c d r opt)).
    - apply score_lowered_own; assumption.
    - intros z Hz. apply score_lowered_other; assumption. }
  split.
  - exists p, q. repeat split; assumption.
  - pose proof (round_mono _ _ Hle). lra.
Qed.

Lemma inverse_monotone_witness :
  let w := Mcda.mkWeights 1 0 0 1 0 in
  let opt := Mcda.mkOptions None (Some 20) None 100 in
  let ra := Mcda.mkInput "a"%string 1 0 0 50000 0 None in
  let rb := Mcda.mkInput "b"%string 3 0 0 40000 0 None in
  let rc := Mcda.mkInput "c"%string 2 0 0 45000 0 None in
  let x := hd (Mcda.mkAlloc EmptyString 0 0 0)
              (Mcda.scoreAndAllocate [ra; rb; rc] w opt) in
  let y := hd (Mcda.mkAlloc EmptyString 0 0 0)
              (Mcda.scoreAndAllocate
                 [ra; Change.lower Change.IncomeInv 20000 rb; rc] w opt) in
  0 <= 20000
  /\ Props.capOf opt == 1
  /\ Mcda.a_la x = "b"%string /\ Mcda.a_la y = "b"%string
  /\ Mcda.eur x <= Mcda.eur y + 1.
Proof.
  intros w opt ra rb rc x y.
  assert (H1 : 0 <= 20000) by (vm_compute; discriminate).
  assert (H2 : Props.nonnegWeights w)
    by (repeat split; vm_compute; discriminate).
  assert (H3 : 0 <= Mcda.budgetEUR opt) by (vm_compute; discriminate).
  assert (H4 : Props.capOf opt == 1) by reflexivity.
  assert (H5 : NoDup (map Mcda.la ([ra] ++ rb :: [rc]))).
  { repeat constructor; cbn; intuition discriminate. }
  assert (H6 : In x (Mcda.scoreAndAllocate ([ra] ++ rb :: [rc]) w opt))
    by (vm_compute; left; reflexivity).
  assert (H7 : Mcda.a_la x = Mcda.la rb) by (vm_compute; reflexivity).
  assert (H8 : In y (Mcda.scoreAndAllocate
                       ([ra] ++ Change.lower Change.IncomeInv 20000 rb
                        :: [rc])
                       w opt))
    by (vm_compute; left; reflexivity).
  assert (H9 : Mcda.a_la y = Mcda.la rb) by (vm_compute; reflexivity).
  split; [exact H1 |]. split; [exact H4 |].
  split; [exact H7 |]. split; [exact H9 |].
  exact (proj2 (inverse_monotone Change.IncomeInv 20000 [ra] [rc] rb w
                  opt x y H1 H2 H3 (or_intror (or_introl H4)) H5 H6 H7 H8 H9)).
Defined.

(** ** [allocateBudget]: the order of the keys *)

Section KeyOrder.
Import Page Props Change.

Lemma filter_perm {A : Type} (h : A -> bool) (l l' : list A) :
  Permutation l l' -> Permutation (filter h l) (filter h l').
Proof.
  induction 1 as [| x l l' _ IH | x y l | l l' l'' _ IH1 _ IH2]; simpl.
  - apply perm_nil.
  - destruct (h x); [apply perm_skip |]; exact IH.
  - destruct (h x), (h y); try apply Permutation_refl. apply perm_swap.
  - eapply perm_trans; eassumption.
Qed.

Lemma sameEntry_refl (e : Entry) : sameEntry 1 e e.
Proof. repeat split; try reflexivity. ring. Qed.

Lemma sameEntry_trans (l1 l2 l3 : list Entry) :
  Forall2 (sameEntry 1) l1 l2 -> Forall2 (sameEntry 1) l2 l3 ->
  Forall2 (sameEntry 1) l1 l3.
Proof.
  intro H. revert l3. induction H as [| a b l1 l2 (N & A & B) _ IH];
    intros l3 H3; inversion H3 as [| b' c l2' l3' (N' & A' & B') F]; subst.
  - constructor.
  - constructor; [| apply IH; exact F].
    repeat split; [congruence | rewrite A; exact A' |].
    rewrite B', B. ring.
Qed.

Lemma floorPass_perm (opts : Opts) (m l : list Entry) :
  Permutation m l ->
  exists m', Permutation m' (floorPass opts l)
             /\ Forall2 (sameEntry 1) m' (floorPass opts m).
Proof.
  intro Hp.
  destruct (floorPass_cases opts l) as (d & Hd & ->).
  destruct (floorPass_cases opts m) as (d' & Hd' & ->).
  set (me := minEuro opts) in *.
  assert (Ed : d == d').
  { rewrite Hd, Hd'. symmetry. apply sumBy_perm. exact Hp. }
  assert (Ep : poolOf me l == poolOf me m).
  { unfold poolOf. symmetry. apply sumBy_perm. apply filter_perm.
    apply Permutation_map. exact Hp. }
  rewrite <- (ltb_compat 0 0 d d' (Qeq_refl 0) Ed).
  destruct (JS.ltb 0 d).
  - exists (map (donate me (JS.orElse (poolOf me l) 1) d)
                (map (raiseTo me) m)).
    split; [apply Permutation_map, Permutation_map; exact Hp |].
    apply Forall2_map_same. intros e _.
    apply (donate_sim 1); [| exact Ed | apply sameEntry_refl].
    apply orElse_compat; [exact Ep | reflexivity].
  - exists (map (raiseTo me) m).
    split; [apply Permutation_map; exact Hp |].
    apply Forall2_map_same. intros e _. apply sameEntry_refl.
Qed.

Lemma receive_compat (cap w w' n x x' : Q) (e : Entry) :
  w == w' -> x == x' ->
  sameEntry 1 (receive cap w n x e) (receive cap w' n x' e).
Proof.
  intros Ew Ex. unfold receive.
  destruct (JS.ltb (alloc e) cap); [| apply sameEntry_refl].
  repeat split; cbn [setAlloc name alloc boosted]; [| ring].
  rewrite (truthy_compat w w' Ew).
  destruct (JS.truthy w'); [rewrite Ew, Ex | rewrite Ex]; reflexivity.
Qed.

Lemma capPass_perm (opts : Opts) (budget : Q) (m l : list Entry) :
  Permutation m l ->
  exists m', Permutation m' (capPass opts budget l)
             /\ Forall2 (sameEntry 1) m' (capPass opts budget m).
Proof.
  intro Hp.
  destruct (capPass_cases opts budget l) as (x & Hx & ->).
  destruct (capPass_cases opts budget m) as (x' & Hx' & ->).
  set (cap := budget * pageCapOf opts) in *.
  assert (Ex : x == x').
  { rewrite Hx, Hx'. symmetry. apply sumBy_perm. exact Hp. }
  assert (Pr : Permutation (receiversOf cap m) (receiversOf cap l)).
  { unfold receiversOf. apply filter_perm, Permutation_map. exact Hp. }
  assert (Ew : weightOf cap l == weightOf cap m).
  { unfold weightOf. symmetry. apply sumBy_perm. exact Pr. }
  assert (En : JS.len (receiversOf cap l) = JS.len (receiversOf cap m)).
  { unfold JS.len. rewrite (Permutation_length Pr). reflexivity. }
  rewrite <- (ltb_compat 0 0 x x' (Qeq_refl 0) Ex).
  destruct (JS.ltb 0 x).
  - exists (map (receive cap
                   (JS.orElse (weightOf cap l) (JS.len (receiversOf cap l)))
                   (JS.len (receiversOf cap l)) x)
                (map (clipTo cap) m)).
    split; [apply Permutation_map, Permutation_map; exact Hp |].
    apply Forall2_map_same. intros e _. rewrite <- En.
    apply receive_compat; [| exact Ex].
    apply orElse_compat; [exact Ew | reflexivity].
  - exists (map (clipTo cap) m).
    split; [apply Permutation_map; exact Hp |].
    apply Forall2_map_same. intros e _. apply sameEntry_refl.
Qed.

Lemma settled_perm (scores scores' : list (string * Q)) (budget : Q)
    (opts : Opts) :
  0 <= ruralUplift opts ->
  Permutation scores' scores ->
  exists m, Permutation m (settled scores budget opts)
            /\ Forall2 (sameEntry 1) m (settled scores' budget opts).
Proof.
  intros Hu Hp. unfold settled.
  set (es := map (boost opts) scores).
  set (es' := map (boost opts) scores').
  assert (Pe : Permutation es' es) by (apply Permutation_map; exact Hp).
  assert (ET : JS.sumBy boosted es' == JS.sumBy boosted es)
    by (apply sumBy_perm; exact Pe).
  assert (EL : JS.len es' = JS.len es).
  { unfold JS.len. rewrite (Permutation_length Pe). reflexivity. }
  rewrite (leb_compat _ _ 0 0 ET (Qeq_refl 0)), EL.
  destruct (Qle_bool (JS.sumBy boosted es) 0) eqn:B.
  - eexists. split; [apply Permutation_map; exact Pe |].
    apply Forall2_map_same. intros e _. apply sameEntry_refl.
  - apply leb_gt in B.
    set (p := proportional (JS.sumBy boosted es) budget es).
    set (p' := proportional (JS.sumBy boosted es') budget es').
    set (q := proportional (JS.sumBy boosted es) budget es').
    assert (Pq : Permutation q p) by (apply Permutation_map; exact Pe).
    assert (Fq : Forall2 (sameEntry 1) q p').
    { unfold q, p', proportional. apply Forall2_map_same. intros e _.
      repeat split; cbn [setAlloc name alloc boosted]; [| ring].
      rewrite ET. reflexivity. }
    assert (Hpos : forall l, Permutation l p \/ l = q ->
              forall e, In e l -> 0 <= boosted e).
    { intros l Hl e He.
      assert (He' : In e p).
      { destruct Hl as [Hl | ->];
          [apply (Permutation_in _ Hl) | apply (Permutation_in _ Pq)];
          exact He. }
      destruct (proportional_alloc _ _ _ e He') as (_ & e0 & He0 & ->).
      apply in_map_iff in He0. destruct He0 as (s & <- & _).
      apply boost_nonneg. exact Hu. }
    destruct (floorPass_perm opts q p Pq) as (f1 & Pf1 & Ff1).
    pose proof (floorPass_sim 1 opts opts q p' eq_refl Fq) as Ff2.
    pose proof (sameEntry_trans _ _ _ Ff1 Ff2) as Ff.
    destruct (capPass_perm opts budget f1 (floorPass opts p) Pf1)
      as (c1 & Pc1 & Fc1).
    assert (Hf1 : forall e, In e f1 -> 0 <= boosted e).
    { intros e He. apply (Permutation_in _ Pf1) in He.
      destruct (floor_low opts p e He) as (e1 & He1 & -> & _).
      apply (Hpos p (or_introl (Permutation_refl p))). exact He1. }
    assert (H01 : 0 < 1) by reflexivity.
    pose proof (capPass_sim 1 H01 opts opts budget f1
                  (floorPass opts p') eq_refl Hf1 Ff) as Fc2.
    exists c1. split; [exact Pc1 |].
    apply (sameEntry_trans _ _ _ Fc1 Fc2).
Qed.

End KeyOrder.

(** X26. The amounts of [allocateBudget] do not depend on the order of the
    keys of [scores].  Let the keys be distinct, the uplift and the floor
    not negative, the floor one that the budget can pay to every region,
    and the cap 100% (a maximum share of at least 1, or of 0, which the
    source reads as 1): then every key gets the same amount from the
    scores listed in another order as from the scores.  Under a lower cap
    the source decides by comparing a computed amount with the cap, which
    in binary64 arithmetic, where the sum of the scores depends on their
    order, an amount at the cap may pass either way; the statement is not
    made there. *)
Theorem key_order_invariance (scores scores' : list (string * Q))
    (budget : Q) (opts : Page.Opts) (k : string) (v v' : Q) :
  NoDup (map fst scores) -> Permutation scores' scores ->
  0 <= Page.ruralUplift opts ->
  0 <= Page.minEuro opts ->
  Page.minEuro opts * JS.len scores <= budget ->
  Page.maxShare opts == 0 \/ 1 <= Page.maxShare opts ->
  In (k, v) (Page.allocateBudget scores budget opts) ->
  In (k, v') (Page.allocateBudget scores' budget opts) ->
  v == v'.
Proof.
  intros Hnd Hp Hu _ _ _ Hv Hv'.
  destruct (settled_perm scores scores' budget opts Hu Hp) as (m & Pm & Fm).
  assert (Es : JS.sumBy Page.alloc (Props.settled scores' budget opts)
               == JS.sumBy Page.alloc (Props.settled scores budget opts)).
  { rewrite <- (sumBy_perm _ _ _ Pm). symmetry. apply sumBy_Forall2.
    apply (Forall2_weaken (Change.sameEntry 1)); [| exact Fm].
    intros e e' _ _ (_ & A & _). exact A. }
  rewrite allocateBudget_settled in Hv, Hv'.
  apply in_map_iff in Hv'. destruct Hv' as (e' & E' & He').
  destruct (Forall2_In_r _ _ _ e' Fm He') as (e & He & N & A & _).
  apply (Permutation_in _ Pm) in He.
  injection E' as Ek Ev'.
  assert (Hin : In (k, Page.alloc e
                       * (budget
                          / JS.orElse
                              (JS.sumBy Page.alloc
                                 (Props.settled scores budget opts)) 1))
                   (Page.allocateBudget scores budget opts)).
  { rewrite allocateBudget_settled. apply in_map_iff. exists e.
    split; [rewrite N, Ek; reflexivity | exact He]. }
  rewrite <- allocateBudget_settled in Hv.
  assert (Hnd' : NoDup (map fst (Page.allocateBudget scores budget opts)))
    by (rewrite allocateBudget_names; exact Hnd).
  pose proof (NoDup_key fst _ _ _ Hnd' Hv Hin eq_refl) as E.
  injection E as ->. rewrite <- Ev'.
  rewrite (orElse_compat _ _ 1 1 Es (Qeq_refl 1)), A. reflexivity.
Qed.

Lemma key_order_invariance_witness :
  let scores := [("a"%string, 1); ("b"%string, 7); ("c"%string, 12)] in
  let v := snd (hd (EmptyString, 0)
                   (Page.allocateBudget scores 100 Scenario.floorTen)) in
  let v' := snd (last (Page.allocateBudget (rev scores) 100
                         Scenario.floorTen)
                      (EmptyString, 0)) in
  NoDup (map fst scores) /\ Permutation (rev scores) scores
  /\ 0 <= Page.ruralUplift Scenario.floorTen
  /\ 0 <= Page.minEuro Scenario.floorTen
  /\ Page.minEuro Scenario.floorTen * JS.len scores <= 100
  /\ 1 <= Page.maxShare Scenario.floorTen
  /\ In ("a"%string, v) (Page.allocateBudget scores 100 Scenario.floorTen)
  /\ In ("a"%string, v')
        (Page.allocateBudget (rev scores) 100 Scenario.floorTen)
  /\ v == v'.
Proof.
  intros scores v v'.
  assert (H1 : NoDup (map fst scores)).
  { repeat constructor; cbn; intuition discriminate. }
  assert (H2 : Permutation (rev scores) scores)
    by (apply Permutation_sym, Permutation_rev).
  assert (H3 : 0 <= Page.ruralUplift Scenario.floorTen)
    by (vm_compute; discriminate).
  assert (H4 : 0 <= Page.minEuro Scenario.floorTen)
    by (vm_compute; discriminate).
  assert (H5 : Page.minEuro Scenario.floorTen * JS.len scores <= 100)
    by (vm_compute; discriminate).
  assert (H6 : 1 <= Page.maxShare Scenario.floorTen)
    by (vm_compute; discriminate).
  assert (H7 : In ("a"%string, v)
                  (Page.allocateBudget scores 100 Scenario.floorTen))
    by (vm_compute; left; reflexivity).
  assert (H8 : In ("a"%string, v')
                  (Page.allocateBudget (rev scores) 100 Scenario.floorTen))
    by (vm_compute; right; right; left; reflexivity).
  split; [exact H1 |]. split; [exact H2 |]. split; [exact H3 |].
  split; [exact H4 |]. split; [exact H5 |]. split; [exact H6 |].
  split; [exact H7 |]. split; [exact H8 |].
  exact (key_order_invariance scores (rev scores) 100 Scenario.floorTen
           "a"%string v v' H1 H2 H3 H4 H5 (or_intror H6) H7 H8).
Defined.
